(** * PageFaultStat: the sampling, cache, delta and dump engine

    A shallow embedding of the C sources (proc.c, cache.c, utils.c, main.c,
    faultstat.h) and the properties of the engine that the specification
    states about them.

    - [int64_t] values are integers of [Z]; the arithmetic of the C code is
      written with its two's complement wrap-around ([add64], [sub64],
      [neg64]).
    - [double] values are IEEE binary64 numbers of the standard library's
      [spec_float], with the library's correctly rounded operations.
    - Records live in a store ([gmap]) indexed by addresses; a pointer is an
      [option] of an address and [None] is [NULL].  The three link fields of
      a fault record ([next], [s_next], [d_next]) are pointers in that store,
      so that the code's sharing of records between lists is kept.
    - A loop over a linked list takes a bound on the number of iterations;
      [None] is returned only when the bound is exhausted or a pointer
      dangles. *)

From Stdlib Require Import ZArith Lia Ascii String Floats.SpecFloat.
From stdpp Require Import gmap strings list fin_maps pretty sorting.

Open Scope Z_scope.

(** ** Machine integers *)

Definition int64_wrap (z : Z) : Z := (z + 2 ^ 63) mod 2 ^ 64 - 2 ^ 63.
Definition add64 (a b : Z) : Z := int64_wrap (a + b).
Definition sub64 (a b : Z) : Z := int64_wrap (a - b).
Definition neg64 (a : Z) : Z := int64_wrap (- a).

(** A cumulative counter as the kernel reports it: a non-negative [int64_t]. *)
Definition counter (z : Z) : Prop := 0 <= z < 2 ^ 63.

(** ** faultstat.h *)

Definition UNAME_HASH_TABLE_SIZE : Z := 521.
Definition PROC_HASH_TABLE_SIZE : Z := 503.

Definition OPT_CMD_COMM : Z := 4.
Definition OPT_ARROW : Z := 64.

Definition SORT_MAJOR_MINOR : Z := 0.
Definition SORT_MAJOR : Z := 1.
Definition SORT_MINOR : Z := 2.
Definition SORT_D_MAJOR_MINOR : Z := 3.
Definition SORT_D_MAJOR : Z := 4.
Definition SORT_D_MINOR : Z := 5.
Definition SORT_SWAP : Z := 6.
Definition SORT_END : Z := 7.

Definition addr := positive.
Abbreviation ptr := (option addr).

(** [proc_info_t] *)
Record proc_info_t := Proc_info {
  p_next : ptr;
  p_cmdline : option string;
  p_pid : Z;
  p_kernel_thread : bool
}.

(** [uname_cache_t] *)
Record uname_cache_t := Uname_cache {
  u_next : ptr;
  u_name : string;
  u_uid : Z
}.

(** [fault_info_t] *)
Record fault_info_t := Fault_info {
  pid : Z;
  uid : Z;
  proc : ptr;
  uname : ptr;
  min_fault : Z;
  maj_fault : Z;
  vm_swap : Z;
  d_min_fault : Z;
  d_maj_fault : Z;
  d_next : ptr;
  s_next : ptr;
  next : ptr;
  alive : bool
}.

(** [pid_list_t]: one entry of the allow-list given with [-p]. *)
Record pid_list_t := Pid_list {
  pl_name : option string;
  pl_pid : Z
}.

Abbreviation heap := (gmap addr fault_info_t).

(** Assignments to one field of a fault record. *)
Definition set_min_fault (v : Z) (f : fault_info_t) : fault_info_t :=
  Fault_info (pid f) (uid f) (proc f) (uname f) v (maj_fault f) (vm_swap f)
    (d_min_fault f) (d_maj_fault f) (d_next f) (s_next f) (next f) (alive f).
Definition set_maj_fault (v : Z) (f : fault_info_t) : fault_info_t :=
  Fault_info (pid f) (uid f) (proc f) (uname f) (min_fault f) v (vm_swap f)
    (d_min_fault f) (d_maj_fault f) (d_next f) (s_next f) (next f) (alive f).
Definition set_d_min_fault (v : Z) (f : fault_info_t) : fault_info_t :=
  Fault_info (pid f) (uid f) (proc f) (uname f) (min_fault f) (maj_fault f)
    (vm_swap f) v (d_maj_fault f) (d_next f) (s_next f) (next f) (alive f).
Definition set_d_maj_fault (v : Z) (f : fault_info_t) : fault_info_t :=
  Fault_info (pid f) (uid f) (proc f) (uname f) (min_fault f) (maj_fault f)
    (vm_swap f) (d_min_fault f) v (d_next f) (s_next f) (next f) (alive f).
Definition set_d_next (v : ptr) (f : fault_info_t) : fault_info_t :=
  Fault_info (pid f) (uid f) (proc f) (uname f) (min_fault f) (maj_fault f)
    (vm_swap f) (d_min_fault f) (d_maj_fault f) v (s_next f) (next f) (alive f).
Definition set_s_next (v : ptr) (f : fault_info_t) : fault_info_t :=
  Fault_info (pid f) (uid f) (proc f) (uname f) (min_fault f) (maj_fault f)
    (vm_swap f) (d_min_fault f) (d_maj_fault f) (d_next f) v (next f) (alive f).
Definition set_alive (v : bool) (f : fault_info_t) : fault_info_t :=
  Fault_info (pid f) (uid f) (proc f) (uname f) (min_fault f) (maj_fault f)
    (vm_swap f) (d_min_fault f) (d_maj_fault f) (d_next f) (s_next f) (next f) v.

(** The two sort-order links of a record. *)
Inductive link := D_NEXT | S_NEXT.

Definition get_link (fld : link) (f : fault_info_t) : ptr :=
  match fld with D_NEXT => d_next f | S_NEXT => s_next f end.
Definition set_link (fld : link) (v : ptr) (f : fault_info_t) : fault_info_t :=
  match fld with D_NEXT => set_d_next v f | S_NEXT => set_s_next v f end.

(** ** utils.c *)



(** *** [int64_to_str] *)

Definition double_of_Z (z : Z) : spec_float := binary_normalize 53 1024 z 0 false.
Definition double_div (x y : spec_float) : spec_float := SFdiv 53 1024 x y.

(** The integer nearest to a finite non-zero double of mantissa [m] and
    exponent [e], ties to even: what [printf] prints for ["%.0f"]. *)
Definition nearest_even (m : positive) (e : Z) : Z :=
  if 0 <=? e then Z.pos m * 2 ^ e
  else
    let d := 2 ^ (- e) in
    let q := Z.pos m / d in
    let r := Z.pos m mod d in
    if 2 * r <? d then q
    else if d <? 2 * r then q + 1
    else if Z.even q then q else q + 1.

(** The text of ["%.0f"]. *)
Definition fmt_f0 (x : spec_float) : string :=
  match x with
  | S754_zero s => if s then "-0" else "0"
  | S754_infinity s => if s then "-inf" else "inf"
  | S754_nan => "nan"
  | S754_finite s m e =>
      (if s then "-" else "") +:+ pretty (nearest_even m e)
  end.

Fixpoint spaces (n : nat) : string :=
  match n with
  | O => ""
  | S n' => String " "%char (spaces n')
  end.

(** A field of minimum width [w], right-aligned. *)
Definition pad_left (w : nat) (s : string) : string :=
  spaces (w - String.length s) +:+ s.

(** [snprintf(buf, buflen, ...)]: at most [buflen - 1] characters are kept. *)
Definition snprintf (buflen : nat) (s : string) : string :=
  substring 0 (buflen - 1) s.

Definition int64_to_str (val : Z) (buflen : nat) : string :=
  let pos_val := if val <? 0 then 0 else val in
  let v := double_of_Z pos_val in
  let '(s, unit) :=
    if pos_val <? 1000000 then (v, " ")
    else if pos_val <? 1000000000 then (double_div v (double_of_Z 1000), "k")
    else if pos_val <? 1000000000000 then (double_div v (double_of_Z 1000000), "M")
    else (double_div v (double_of_Z 1000000000), "G") in
  snprintf buflen (pad_left 6 (fmt_f0 s) +:+ unit).

(** [uname_name] *)
Definition uname_name (unames : gmap addr uname_cache_t) (u : ptr) : string :=
  match u with
  | Some a => match unames !! a with Some r => u_name r | None => "<unknown>" end
  | None => "<unknown>"
  end.

(** ** proc.c *)

(** Process-wide variables read by the dump functions, and the records of
    the two caches the fault records point into. *)
Record globals := Globals {
  sort_by : Z;
  opt_flags : Z;
  proc_recs : gmap addr proc_info_t;
  uname_recs : gmap addr uname_cache_t
}.

(** [fault_delta]: compute page fault changes.  [fault_old] is the cursor of
    the loop over the previous list. *)
Fixpoint fault_delta (fuel : nat) (fault_new : addr) (fault_old : ptr)
    (h : heap) : option heap :=
  match fault_old with
  | None =>
      n ← h !! fault_new;
      Some (alter (set_d_maj_fault (maj_fault n)) fault_new
             (alter (set_d_min_fault (min_fault n)) fault_new h))
  | Some o =>
      match fuel with
      | O => None
      | S fuel' =>
          n ← h !! fault_new;
          fo ← h !! o;
          if bool_decide (pid n = pid fo) then
            Some (alter (set_alive true) o
                   (alter (set_d_maj_fault (sub64 (maj_fault n) (maj_fault fo))) fault_new
                     (alter (set_d_min_fault (sub64 (min_fault n) (min_fault fo))) fault_new h)))
          else fault_delta fuel' fault_new (next fo) h
      end
  end.

(** [get_cmdline] *)
Definition get_cmdline (procs : gmap addr proc_info_t) (f : fault_info_t) : string :=
  match proc f with
  | Some a =>
      match procs !! a with
      | Some p => match p_cmdline p with Some c => c | None => "<unknown>" end
      | None => "<unknown>"
      end
  | None => "<unknown>"
  end.

(** [compare]: sort comparison based on the [sort_by] setting. *)
Definition compare (sort_by : Z) (f1 f2 : fault_info_t) : bool :=
  if sort_by =? SORT_MAJOR_MINOR then
    add64 (min_fault f1) (maj_fault f1) <? add64 (min_fault f2) (maj_fault f2)
  else if sort_by =? SORT_MAJOR then maj_fault f1 <? maj_fault f2
  else if sort_by =? SORT_MINOR then min_fault f1 <? min_fault f2
  else if sort_by =? SORT_D_MAJOR_MINOR then
    add64 (d_min_fault f1) (d_maj_fault f1) <? add64 (d_min_fault f2) (d_maj_fault f2)
  else if sort_by =? SORT_D_MAJOR then d_maj_fault f1 <? d_maj_fault f2
  else if sort_by =? SORT_D_MINOR then d_min_fault f1 <? d_min_fault f2
  else if sort_by =? SORT_SWAP then vm_swap f1 <? vm_swap f2
  else true.

(** The cursor [fault_info_t **l] of the insertion loops: the address of the
    local variable [sorted], or of the link field of a record. *)
Inductive lref := Root | Field (a : addr).

Definition load_ref (fld : link) (l : lref) (h : heap) (sorted : ptr) : option ptr :=
  match l with
  | Root => Some sorted
  | Field a => get_link fld <$> h !! a
  end.

Definition store_ref (fld : link) (l : lref) (v : ptr) (h : heap) (sorted : ptr)
    : heap * ptr :=
  match l with
  | Root => (h, v)
  | Field a => (alter (set_link fld v) a h, sorted)
  end.

(** The insertion loop shared by the three dump functions, over the link
    field [fld]: the cursor [l] starts at [sorted] and moves to the link
    field of the record it points to, until it points to [NULL] or to a
    record [c] with [compare c fault_info]; in the second case the link of
    [fault_info] is set to [c]; then [fault_info] is stored through [l]. *)
Fixpoint sorted_insert (fuel : nat) (sb : Z) (fld : link) (fault_info : addr)
    (l : lref) (h : heap) (sorted : ptr) : option (heap * ptr) :=
  match fuel with
  | O => None
  | S fuel' =>
      cur ← load_ref fld l h sorted;
      match cur with
      | None => Some (store_ref fld l (Some fault_info) h sorted)
      | Some c =>
          fc ← h !! c;
          fx ← h !! fault_info;
          if compare sb fc fx then
            Some (store_ref fld l (Some fault_info)
                    (alter (set_link fld (Some c)) fault_info h) sorted)
          else sorted_insert fuel' sb fld fault_info (Field c) h sorted
      end
  end.

(** The running totals of a dump. *)
Record totals := Totals {
  t_min_fault : Z;
  t_maj_fault : Z;
  t_d_min_fault : Z;
  t_d_maj_fault : Z;
  t_vm_swap : Z
}.

Definition totals0 : totals := Totals 0 0 0 0 0.

Definition add_cumulative (f : fault_info_t) (t : totals) : totals :=
  Totals (add64 (t_min_fault t) (min_fault f)) (add64 (t_maj_fault t) (maj_fault f))
    (t_d_min_fault t) (t_d_maj_fault t) (t_vm_swap t).
Definition sub_cumulative (f : fault_info_t) (t : totals) : totals :=
  Totals (sub64 (t_min_fault t) (min_fault f)) (sub64 (t_maj_fault t) (maj_fault f))
    (t_d_min_fault t) (t_d_maj_fault t) (t_vm_swap t).
Definition add_deltas (f : fault_info_t) (t : totals) : totals :=
  Totals (t_min_fault t) (t_maj_fault t)
    (add64 (t_d_min_fault t) (d_min_fault f)) (add64 (t_d_maj_fault t) (d_maj_fault f))
    (t_vm_swap t).
Definition add_swap (f : fault_info_t) (t : totals) : totals :=
  Totals (t_min_fault t) (t_maj_fault t) (t_d_min_fault t) (t_d_maj_fault t)
    (add64 (t_vm_swap t) (vm_swap f)).

(** The state of a dump: the store, the local [sorted] and the totals. *)
Definition dump_state : Type := heap * ptr * totals.

(** The first loop of the dump functions, over the new list.  [fld] is the
    link the chain is built on and [diff] tells the loop of
    [fault_dump_diff], which skips the records whose combined delta is zero;
    [swap] tells the loop of [fault_dump_json], which also totals the swap.
    [k] bounds the iterations of this loop and [fuel] those of the loops
    inside. *)
Fixpoint scan_new (k fuel : nat) (sb : Z) (fld : link) (diff swap : bool)
    (fault_info_old : ptr) (fault_info : ptr) (st : dump_state)
    : option dump_state :=
  match fault_info with
  | None => Some st
  | Some a =>
      match k with
      | O => None
      | S k' =>
          let '(h, sorted, t) := st in
          h1 ← fault_delta fuel a fault_info_old h;
          f1 ← h1 !! a;
          if diff && (add64 (d_min_fault f1) (d_maj_fault f1) =? 0) then
            scan_new k' fuel sb fld diff swap fault_info_old (next f1) (h1, sorted, t)
          else
            '(h2, sorted') ← sorted_insert fuel sb fld a Root h1 sorted;
            f2 ← h2 !! a;
            let t1 := add_deltas f2 (add_cumulative f2 t) in
            let t2 := if swap then add_swap f2 t1 else t1 in
            scan_new k' fuel sb fld diff swap fault_info_old (next f2) (h2, sorted', t2)
      end
  end.

(** The second loop of [fault_dump] and [fault_dump_diff], over the previous
    list: a record not marked alive belongs to a process that has died.
    [diff] tells the loop of [fault_dump_diff], which subtracts the counters
    of the record from the totals where [fault_dump] adds them. *)
Fixpoint scan_died (k fuel : nat) (sb : Z) (diff : bool)
    (fault_info : ptr) (st : dump_state) : option dump_state :=
  match fault_info with
  | None => Some st
  | Some a =>
      match k with
      | O => None
      | S k' =>
          let '(h, sorted, t) := st in
          f ← h !! a;
          if alive f then scan_died k' fuel sb diff (next f) st
          else
            '(h1, sorted') ← sorted_insert fuel sb D_NEXT a Root h sorted;
            f1 ← h1 !! a;
            let t1 := if diff then sub_cumulative f1 t else add_cumulative f1 t in
            let h2 := alter (set_d_min_fault (neg64 (min_fault f1))) a h1 in
            f2 ← h2 !! a;
            let h3 := alter (set_d_maj_fault (neg64 (maj_fault f2))) a h2 in
            f3 ← h3 !! a;
            let t2 := add_deltas f3 t1 in
            let h4 := alter (set_maj_fault 0) a (alter (set_min_fault 0) a h3) in
            f4 ← h4 !! a;
            scan_died k' fuel sb diff (next f4) (h4, sorted', t2)
      end
  end.

(** One printed line of the human-readable dumps: the pid, the numeric
    columns as [int64_to_str] formats them, the arrow, the user and the
    command. *)
Record text_row := Text_row {
  r_pid : Z;
  r_cols : list string;
  r_arrow : string;
  r_user : string;
  r_cmd : string
}.

(** One object of the array ["processes"] of the JSON dump. *)
Record json_row := Json_row {
  j_pid : Z;
  j_major : Z;
  j_minor : Z;
  j_deltaMajor : Z;
  j_deltaMinor : Z;
  j_swap : Z;
  j_user : string;
  j_command : string
}.

Record text_dump := Text_dump {
  rows : list text_row;
  total_line : list string
}.

Record json_dump := Json_dump {
  processes : list json_row;
  json_totals : totals;
  timestamp : Z
}.

(** The buffers of the dump functions are [char s[12]]. *)
Definition fmt (v : Z) : string := int64_to_str v 12.

Definition arrow_of (f : fault_info_t) : string :=
  let delta := add64 (d_min_fault f) (d_maj_fault f) in
  if delta <? 0 then "v" else if 0 <? delta then "^ " else "  ".

(** The line [fault_dump] prints for a record. *)
Definition dump_row (g : globals) (one_shot : bool) (f : fault_info_t) : text_row :=
  if one_shot then
    Text_row (pid f) [fmt (maj_fault f); fmt (min_fault f); fmt (vm_swap f)] ""
      (uname_name (uname_recs g) (uname f)) (get_cmdline (proc_recs g) f)
  else
    Text_row (pid f)
      [fmt (maj_fault f); fmt (min_fault f); fmt (d_maj_fault f);
       fmt (d_min_fault f); fmt (vm_swap f)]
      (if Z.land (opt_flags g) OPT_ARROW =? 0 then "" else arrow_of f)
      (uname_name (uname_recs g) (uname f)) (get_cmdline (proc_recs g) f).

(** The line [fault_dump_diff] prints for a record. *)
Definition diff_row (g : globals) (f : fault_info_t) : text_row :=
  Text_row (pid f)
    [fmt (maj_fault f); fmt (min_fault f); fmt (d_maj_fault f);
     fmt (d_min_fault f); fmt (vm_swap f)]
    "" (uname_name (uname_recs g) (uname f)) (get_cmdline (proc_recs g) f).

(** The object [fault_dump_json] prints for a record. *)
Definition json_row_of (g : globals) (f : fault_info_t) : json_row :=
  Json_row (pid f) (maj_fault f) (min_fault f) (d_maj_fault f) (d_min_fault f)
    (vm_swap f) (uname_name (uname_recs g) (uname f)) (get_cmdline (proc_recs g) f).

(** The printing loops: follow the link [fld] from [fault_info], one line
    per record.  [clear] tells the loop of [fault_dump_diff], which resets
    the link of each record once it is printed. *)
Fixpoint print_chain {A : Type} (k : nat) (fld : link) (clear : bool)
    (row : fault_info_t → A) (fault_info : ptr) (h : heap)
    : option (list A * heap) :=
  match fault_info with
  | None => Some ([], h)
  | Some a =>
      match k with
      | O => None
      | S k' =>
          f ← h !! a;
          let h' := if clear then alter (set_link fld None) a h else h in
          '(rs, h'') ← print_chain k' fld clear row (get_link fld f) h';
          Some (row f :: rs, h'')
      end
  end.

(** [fault_dump_json]: dump out page fault usage in JSON format.  [now] is
    the value of [time(NULL)]. *)
Definition fault_dump_json (fuel : nat) (g : globals) (now : Z)
    (fault_info_old fault_info_new : ptr) (h : heap) : option (json_dump * heap) :=
  '(h1, sorted, t) ← scan_new fuel fuel (sort_by g) S_NEXT false true
                        fault_info_old fault_info_new (h, None, totals0);
  '(rs, h2) ← print_chain fuel S_NEXT false (json_row_of g) sorted h1;
  Some (Json_dump rs t now, h2).

(** The line of totals of the human-readable dumps. *)
Definition total_cols (one_shot : bool) (t : totals) : list string :=
  if one_shot then [fmt (t_maj_fault t); fmt (t_min_fault t)]
  else [fmt (t_maj_fault t); fmt (t_min_fault t);
        fmt (t_d_maj_fault t); fmt (t_d_min_fault t)].

(** The two loops of [fault_dump] before anything is printed. *)
Definition fault_dump_scan (fuel : nat) (sb : Z) (fault_info_old fault_info_new : ptr)
    (h : heap) : option dump_state :=
  st ← scan_new fuel fuel sb S_NEXT false false fault_info_old fault_info_new
         (h, None, totals0);
  scan_died fuel fuel sb false fault_info_old st.


(** The two loops of [fault_dump_diff] before anything is printed. *)
Definition fault_dump_diff_scan (fuel : nat) (sb : Z)
    (fault_info_old fault_info_new : ptr) (h : heap) : option dump_state :=
  st ← scan_new fuel fuel sb D_NEXT true false fault_info_old fault_info_new
         (h, None, totals0);
  scan_died fuel fuel sb true fault_info_old st.

(** [fault_dump_diff]: dump differences between old and new events. *)
Definition fault_dump_diff (fuel : nat) (g : globals)
    (fault_info_old fault_info_new : ptr) (h : heap) : option (text_dump * heap) :=
  '(h1, sorted_deltas, t) ←
     fault_dump_diff_scan fuel (sort_by g) fault_info_old fault_info_new h;
  '(rs, h2) ← print_chain fuel D_NEXT true (diff_row g) sorted_deltas h1;
  Some (Text_dump rs (total_cols false t), h2).





(** *** [parse_pid_list] (utils.c) *)

Definition is_digit (c : ascii) : bool :=
  let n := Z.of_nat (nat_of_ascii c) in (48 <=? n) && (n <=? 57).

(** [strtol(token, NULL, 10)] on a token that starts with a digit: the value
    of the leading digits. *)
Fixpoint strtol_digits (acc : Z) (s : string) : Z :=
  match s with
  | String c r =>
      if is_digit c then strtol_digits (10 * acc + (Z.of_nat (nat_of_ascii c) - 48)) r
      else acc
  | EmptyString => acc
  end.

Definition LONG_MAX : Z := 2 ^ 63 - 1.
Definition int32_wrap (z : Z) : Z := (z + 2 ^ 31) mod 2 ^ 32 - 2 ^ 31.

(** One token of the list; [None] is the error return. *)
Definition parse_pid_token (token : string) (pids : list pid_list_t)
    : option (list pid_list_t) :=
  match token with
  | String c _ =>
      if is_digit c then
        let v := strtol_digits 0 token in
        if LONG_MAX <? v then None
        else
          let pid := int32_wrap v in
          if bool_decide (Exists (λ p, pl_pid p = pid) pids) then Some pids
          else Some (Pid_list None pid :: pids)
      else Some (Pid_list (Some token) 0 :: pids)
  | EmptyString => Some (Pid_list (Some token) 0 :: pids)
  end.

(** The tokens [strtok] cuts its argument into at the commas. *)
Fixpoint strtok_commas (cur : string) (s : string) : list string :=
  match s with
  | EmptyString => if bool_decide (cur = "") then [] else [cur]
  | String c r =>
      if bool_decide (c = ","%char) then
        (if bool_decide (cur = "") then [] else [cur]) ++ strtok_commas "" r
      else strtok_commas (cur +:+ String c "") r
  end.

Fixpoint parse_pid_tokens (tokens : list string) (pids : list pid_list_t)
    : option (list pid_list_t) :=
  match tokens with
  | [] => Some pids
  | tk :: rest => pids' ← parse_pid_token tk pids; parse_pid_tokens rest pids'
  end.

Definition parse_pid_list (arg : string) (pids : list pid_list_t)
    : option (list pid_list_t) :=
  parse_pid_tokens (strtok_commas "" arg) pids.

(** ** cache.c *)

(** The queries the caches put to the system. *)
Inductive sys_query :=
  | Q_calloc
  | Q_strdup
  | Q_getpwuid (uid : Z)
  | Q_pid_exists (pid : Z)
  | Q_get_pid_cmdline (pid : Z)
  | Q_get_pid_comm (pid : Z).

(** The answers of the system; an answer may depend on the queries made
    before it, the most recent first: a process may exit, memory may run
    out.  [get_pid_cmdline] and [get_pid_comm] stand for the results of the
    functions of utils.c that read the files of a process. *)
Record system := System {
  calloc_ok : list sys_query → bool;
  strdup_ok : list sys_query → bool;
  getpwuid : list sys_query → Z → option string;
  pid_exists : list sys_query → Z → bool;
  get_pid_cmdline : list sys_query → Z → option string;
  get_pid_comm : list sys_query → Z → option string
}.

(** The two hash tables, the records they hold and the queries made so far. *)
Record cache_state := Cache_state {
  uname_cache : gmap Z addr;
  uname_heap : gmap addr uname_cache_t;
  proc_cache_hash : gmap Z addr;
  proc_heap : gmap addr proc_info_t;
  queries : list sys_query
}.

Definition ask (q : sys_query) (st : cache_state) : cache_state :=
  Cache_state (uname_cache st) (uname_heap st) (proc_cache_hash st) (proc_heap st)
    (q :: queries st).

(** [hash_uid]; a [uid_t] is an unsigned 32-bit integer. *)
Definition hash_uid (uid : Z) : Z := (uid mod 2 ^ 32) mod UNAME_HASH_TABLE_SIZE.

(** [proc_cache_hash_pid]; a [pid_t] is a signed integer, converted to an
    [unsigned long]. *)
Definition proc_cache_hash_pid (pid : Z) : Z := (pid mod 2 ^ 64) mod PROC_HASH_TABLE_SIZE.

(** The result of a search in a bucket. *)
Inductive found := Found (a : addr) | Not_found.

Fixpoint uname_bucket_find (fuel : nat) (hp : gmap addr uname_cache_t) (uid : Z)
    (cur : ptr) : option found :=
  match cur with
  | None => Some Not_found
  | Some a =>
      match fuel with
      | O => None
      | S fuel' =>
          r ← hp !! a;
          if bool_decide (u_uid r = uid) then Some (Found a)
          else uname_bucket_find fuel' hp uid (u_next r)
      end
  end.

(** [uname_cache_find]: lookup uname info on uid and cache data.  The pointer
    returned is [None] when memory ran out. *)
Definition uname_cache_find (fuel : nat) (sys : system) (uid : Z) (st : cache_state)
    : option (ptr * cache_state) :=
  let h := hash_uid uid in
  r ← uname_bucket_find fuel (uname_heap st) uid (uname_cache st !! h);
  match r with
  | Found a => Some (Some a, st)
  | Not_found =>
      let ok := calloc_ok sys (queries st) in
      let st1 := ask Q_calloc st in
      if negb ok then Some (None, st1)
      else
        let a := fresh (dom (uname_heap st1)) in
        let pw := getpwuid sys (queries st1) uid in
        let st2 := ask (Q_getpwuid uid) st1 in
        let name := match pw with
                    | None => pretty (int32_wrap uid)
                    | Some n => n
                    end in
        let dup := strdup_ok sys (queries st2) in
        let st3 := ask Q_strdup st2 in
        if negb dup then Some (None, st3)
        else
          let rec := Uname_cache (uname_cache st3 !! h) name uid in
          Some (Some a,
                Cache_state (<[h := a]> (uname_cache st3)) (<[a := rec]> (uname_heap st3))
                  (proc_cache_hash st3) (proc_heap st3) (queries st3))
  end.

Fixpoint proc_bucket_find (fuel : nat) (hp : gmap addr proc_info_t) (pid : Z)
    (cur : ptr) : option found :=
  match cur with
  | None => Some Not_found
  | Some a =>
      match fuel with
      | O => None
      | S fuel' =>
          r ← hp !! a;
          if bool_decide (p_pid r = pid) then Some (Found a)
          else proc_bucket_find fuel' hp pid (p_next r)
      end
  end.

(** [proc_cache_add_at_hash_index] *)
Definition proc_cache_add_at_hash_index (sys : system) (flags : Z) (h : Z) (pid : Z)
    (st : cache_state) : ptr * cache_state :=
  let ok := calloc_ok sys (queries st) in
  let st1 := ask Q_calloc st in
  if negb ok then (None, st1)
  else
    let a := fresh (dom (proc_heap st1)) in
    let cmdline := get_pid_cmdline sys (queries st1) pid in
    let st2 := ask (Q_get_pid_cmdline pid) st1 in
    let kernel_thread := bool_decide (cmdline = None) in
    let '(cmdline', st3) :=
      if bool_decide (cmdline = None) || negb (Z.land flags OPT_CMD_COMM =? 0) then
        (get_pid_comm sys (queries st2) pid, ask (Q_get_pid_comm pid) st2)
      else (cmdline, st2) in
    let rec := Proc_info (proc_cache_hash st3 !! h) cmdline' pid kernel_thread in
    (Some a,
     Cache_state (uname_cache st3) (uname_heap st3)
       (<[h := a]> (proc_cache_hash st3)) (<[a := rec]> (proc_heap st3)) (queries st3)).

(** [proc_cache_find_by_pid]: find process info by the process id; if it is
    not found and the process exists, cache it. *)
Definition proc_cache_find_by_pid (fuel : nat) (sys : system) (flags : Z) (pid : Z)
    (st : cache_state) : option (ptr * cache_state) :=
  let h := proc_cache_hash_pid pid in
  r ← proc_bucket_find fuel (proc_heap st) pid (proc_cache_hash st !! h);
  match r with
  | Found a => Some (Some a, st)
  | Not_found =>
      let ex := pid_exists sys (queries st) pid in
      let st1 := ask (Q_pid_exists pid) st in
      if negb ex then Some (None, st1)
      else Some (proc_cache_add_at_hash_index sys flags h pid st1)
  end.

(** ** main.c: the wait before the next sample *)

Definition double_add (x y : spec_float) : spec_float := SFadd 53 1024 x y.
Definition double_sub (x y : spec_float) : spec_float := SFsub 53 1024 x y.
Definition double_mul (x y : spec_float) : spec_float := SFmul 53 1024 x y.
Definition double_ltb (x y : spec_float) : bool := SFltb x y.

Definition double_zero : spec_float := S754_zero false.
Definition double_half : spec_float := binary_normalize 53 1024 1 (-1) false.

(** [ceil] of the C library. *)
Definition ceil (x : spec_float) : spec_float :=
  match x with
  | S754_finite s m e =>
      if 0 <=? e then x
      else
        let d := 2 ^ (- e) in
        let q := Z.pos m / d in
        let r := Z.pos m mod d in
        if s then (if q =? 0 then S754_zero true else double_of_Z (- q))
        else double_of_Z (if r =? 0 then q else q + 1)
  | _ => x
  end.

(** The conversion of a double to [uint64_t]: the integer part. *)
Definition uint64_of_double (x : spec_float) : Z :=
  match x with
  | S754_finite s m e =>
      let v := if 0 <=? e then Z.pos m * 2 ^ e else Z.pos m / 2 ^ (- e) in
      (if s then - v else v) mod 2 ^ 64
  | _ => 0
  end.

(** The head of the sampling loop of [main]: from the tick counter [t], the
    flag [redo] and the times, the wait [secs] and the new tick counter. *)
Definition next_wait (t : Z) (redo : bool) (time_start time_now duration_secs : spec_float)
    : spec_float * Z :=
  let secs := double_sub (double_add time_start (double_mul (double_of_Z t) duration_secs))
                time_now in
  if double_ltb secs double_zero then
    let t' := uint64_of_double
                (ceil (double_div (double_sub time_now time_start) duration_secs)) in
    let secs' := double_sub (double_add time_start (double_mul (double_of_Z t') duration_secs))
                   time_now in
    if double_ltb secs' double_half then (double_add secs' duration_secs, t')
    else (secs', t')
  else (secs, if redo then t else (t + 1) mod 2 ^ 64).

(** ** utils.c: [count_bits], [pid_max_digits] *)

(** The arithmetic of [unsigned int]. *)
Definition uint32_wrap (z : Z) : Z := z mod 2 ^ 32.

(** [count_bits], the version for compilers without the built-in: the loop
    [for (c = 0; n; c++) n &= n - 1] clears the lowest set bit of [n] until
    none is left.  [fuel] bounds the iterations. *)
Fixpoint count_bits_loop (fuel : nat) (c n : Z) : option Z :=
  if n =? 0 then Some c
  else match fuel with
       | O => None
       | S fuel' =>
           count_bits_loop fuel' (uint32_wrap (c + 1)) (Z.land n (uint32_wrap (n - 1)))
       end.

Definition count_bits (fuel : nat) (val : Z) : option Z := count_bits_loop fuel 0 val.

(** [pid_max_digits]: [max_digits] is the static variable of the function
    and [file] what [open] and [read] give for /proc/sys/kernel/pid_max:
    [None] when one of them fails, the bytes of the file otherwise, of which
    [read] takes at most 31.  The result is the value returned and the
    static variable after the call. *)
Fixpoint leading_digits (n : Z) (buf : list ascii) : Z :=
  match buf with
  | c :: r => if is_digit c then leading_digits (n + 1) r else n
  | [] => n
  end.

Definition pid_max_digits (max_digits : Z) (file : option (list ascii)) : Z * Z :=
  if negb (max_digits =? 0) then (max_digits, max_digits)
  else match file with
       | None => (6, 6)
       | Some bytes =>
           let digits := leading_digits 0 (take 31 bytes) in
           let digits := if digits <? 6 then 6 else digits in
           (digits, digits)
       end.

(** ** display.c: [getattr] *)

Definition ATTR_MAJOR : Z := 0.
Definition ATTR_MINOR : Z := 1.
Definition ATTR_D_MAJOR : Z := 2.
Definition ATTR_D_MINOR : Z := 3.
Definition ATTR_SWAP : Z := 4.
Definition ATTR_MAX : Z := 5.

(** The table [attr_vals]: for each sort setting, the columns to mark. *)
Definition attr_vals : list (list bool) :=
  [ [true;  true;  false; false; false];
    [true;  false; false; false; false];
    [false; true;  false; false; false];
    [false; false; true;  true;  false];
    [false; false; true;  false; false];
    [false; false; false; true;  false];
    [false; false; false; false; true ] ].

(** [getattr]: the attribute of the column [index].  [A_NORMAL] and
    [A_UNDERLINE] are the constants of curses.h. *)
Definition getattr (A_NORMAL A_UNDERLINE : Z) (sort_by index : Z) : Z :=
  if (sort_by <? 0) || (SORT_END <=? sort_by) then A_NORMAL
  else if (index <? 0) || (ATTR_MAX <=? index) then A_NORMAL
  else match attr_vals !! Z.to_nat sort_by ≫= (λ row, row !! Z.to_nat index) with
       | Some true => A_UNDERLINE
       | _ => A_NORMAL
       end.

(** ** utils.c: [get_pid_comm], [get_pid_cmdline] *)

Definition OPT_CMD_SHORT : Z := 1.
Definition OPT_CMD_LONG : Z := 2.
Definition OPT_CMD_ALL : Z := Z.lor (Z.lor OPT_CMD_SHORT OPT_CMD_LONG) OPT_CMD_COMM.
Definition OPT_DIRNAME_STRIP : Z := 8.

(** The test [opt_flags & bit]. *)
Definition flag_set (flags bit : Z) : bool := negb (Z.land flags bit =? 0).

(** The string at the start of a buffer of bytes: the bytes before the
    first zero byte.  A buffer is written here up to its last byte that the
    code sets; the code reads no byte after it. *)
Fixpoint c_string (buffer : list ascii) : string :=
  match buffer with
  | [] => ""
  | c :: r => if bool_decide (c = zero) then "" else String c (c_string r)
  end.

(** [get_pid_comm]: [file] is what [open] and [read] give for
    /proc/pid/comm, [None] when [open] fails, the bytes read otherwise, of
    which the buffer takes 4096; the last byte read is replaced by the
    terminating zero. *)
Definition read_buffer (file : option (list ascii)) : option (list ascii) :=
  match file with
  | None => None
  | Some bytes => if bool_decide (bytes = []) then None else Some (take 4096 bytes)
  end.

Definition pid_comm_of_file (file : option (list ascii)) : option string :=
  buffer ← read_buffer file;
  let ret := length buffer in
  Some (c_string (take (ret - 1) buffer ++ [zero])).

(** The loop of [OPT_CMD_LONG]: the zero bytes before the last byte read
    become spaces, and the last byte read becomes the terminating zero. *)
Definition cmd_long (ret : nat) (buffer : list ascii) : list ascii :=
  map (λ c, if bool_decide (c = zero) then " "%char else c) (take (ret - 1) buffer)
    ++ zero :: drop ret buffer.

(** The loop of [OPT_CMD_SHORT]: up to the first zero byte, spaces become
    zero bytes. *)
Fixpoint cmd_short (n : nat) (buffer : list ascii) : list ascii :=
  match n, buffer with
  | S n', c :: r =>
      if bool_decide (c = zero) then buffer
      else (if bool_decide (c = " "%char) then zero else c) :: cmd_short n' r
  | _, _ => buffer
  end.

(** [isblank] in the C locale and in the UTF-8 locales. *)
Definition isblank (c : ascii) : bool :=
  bool_decide (c = " "%char) || bool_decide (c = "009"%char).

(** The loop of [OPT_DIRNAME_STRIP]: [base] follows the last slash seen
    before the first blank or the end of the string. *)
Fixpoint cmd_base (base ptr : list ascii) : list ascii :=
  match ptr with
  | [] => base
  | c :: r =>
      if bool_decide (c = zero) then base
      else if isblank c then base
      else if bool_decide (c = "/"%char) then cmd_base r r
      else cmd_base base r
  end.

(** [get_pid_cmdline], from the bytes of /proc/pid/cmdline. *)
Definition pid_cmdline_of_file (flags : Z) (file : option (list ascii)) : option string :=
  bytes ← read_buffer file;
  let ret := if (4096 <=? length bytes)%nat then 4095%nat else length bytes in
  let buffer := take ret bytes ++ [zero] in
  let buffer := if flag_set flags OPT_CMD_LONG then cmd_long ret buffer else buffer in
  let buffer := if flag_set flags OPT_CMD_SHORT then cmd_short ret buffer else buffer in
  if flag_set flags OPT_DIRNAME_STRIP then Some (c_string (cmd_base buffer buffer))
  else Some (c_string buffer).

(** ** proc.c: the fields of /proc/pid/stat *)

(** [strstr(buf, "(")]. *)
Fixpoint from_paren (s : string) : option string :=
  match s with
  | EmptyString => None
  | String c r => if bool_decide (c = "("%char) then Some s else from_paren r
  end.

(** The first loop of [get_proc_self_stat_field]: what follows the last
    closing parenthesis. *)
Fixpoint after_comm (s : string) : option string :=
  match s with
  | EmptyString => None
  | String c r =>
      match after_comm r with
      | Some t => Some t
      | None => if bool_decide (c = ")"%char) then Some r else None
      end
  end.

Fixpoint skip_blanks (s : string) : string :=
  match s with
  | String c r => if bool_decide (c = " "%char) then skip_blanks r else s
  | EmptyString => s
  end.

Fixpoint skip_field (s : string) : string :=
  match s with
  | String c r => if bool_decide (c = " "%char) then s else skip_field r
  | EmptyString => s
  end.

(** The second loop: [n] counts the fields down. *)
Fixpoint stat_field_loop (n : nat) (ptr : string) : string :=
  match ptr with
  | EmptyString => ptr
  | _ =>
      let ptr := skip_blanks ptr in
      match n with
      | S m => match m with
               | S _ => stat_field_loop m (skip_field ptr)
               | O => ptr
               end
      | O => ptr
      end
  end.

(** [get_proc_self_stat_field]: the text from the start of the field [num]
    of the line on; [None] is [NULL]. *)
Definition get_proc_self_stat_field (buf : string) (num : Z) : option string :=
  if (num <? 1) || bool_decide (buf = "") then None
  else if num =? 1 then Some buf
  else if num =? 2 then from_paren buf
  else
    comm_end ← after_comm buf;
    Some (stat_field_loop (Z.to_nat (num - 2)) comm_end).

(** The conversions of [sscanf]: white space is skipped, then an optional
    sign and decimal digits are read; a value too large for the type is the
    largest value of the type, and a minus sign negates a value that fits
    in the type. *)
Definition isspace (c : ascii) : bool :=
  let n := Z.of_nat (nat_of_ascii c) in ((9 <=? n) && (n <=? 13)) || (n =? 32).

Fixpoint skip_space (s : string) : string :=
  match s with
  | String c r => if isspace c then skip_space r else s
  | EmptyString => s
  end.

Fixpoint scan_digits (acc : Z) (s : string) : Z * string :=
  match s with
  | String c r =>
      if is_digit c then scan_digits (10 * acc + (Z.of_nat (nat_of_ascii c) - 48)) r
      else (acc, s)
  | EmptyString => (acc, s)
  end.





(** ** cache.c: the pool of fault records *)

Definition set_next (v : ptr) (f : fault_info_t) : fault_info_t :=
  Fault_info (pid f) (uid f) (proc f) (uname f) (min_fault f) (maj_fault f)
    (vm_swap f) (d_min_fault f) (d_maj_fault f) (d_next f) (s_next f) v (alive f).

(** A record as [calloc] and [memset] leave it. *)
Definition zero_fault_info : fault_info_t :=
  Fault_info 0 0 None None 0 0 0 0 0 None None None false.

(** The store of the fault records, the free list [fault_info_cache] and the
    queries made so far. *)
Record fault_pool := Fault_pool {
  pool_heap : heap;
  fault_info_cache : ptr;
  pool_queries : list sys_query
}.

(** [fault_cache_alloc]: take a record from the free list, or from
    [calloc] when the list is empty; the pointer is [None] when memory ran
    out. *)
Definition fault_cache_alloc (sys : system) (st : fault_pool)
    : option (ptr * fault_pool) :=
  match fault_info_cache st with
  | Some a =>
      f ← pool_heap st !! a;
      Some (Some a,
            Fault_pool (<[a := zero_fault_info]> (pool_heap st)) (next f) (pool_queries st))
  | None =>
      let ok := calloc_ok sys (pool_queries st) in
      let queries := Q_calloc :: pool_queries st in
      if negb ok then Some (None, Fault_pool (pool_heap st) None queries)
      else
        let a := fresh (dom (pool_heap st)) in
        Some (Some a, Fault_pool (<[a := zero_fault_info]> (pool_heap st)) None queries)
  end.

(** [fault_cache_free]: put a record in front of the free list. *)
Definition fault_cache_free (fault_info : addr) (st : fault_pool) : option fault_pool :=
  _ ← pool_heap st !! fault_info;
  Some (Fault_pool (alter (set_next (fault_info_cache st)) fault_info (pool_heap st))
          (Some fault_info) (pool_queries st)).

(** [fault_cache_free_list]: free the records of a list. *)
Fixpoint fault_cache_free_list (fuel : nat) (fault_info : ptr) (st : fault_pool)
    : option fault_pool :=
  match fault_info with
  | None => Some st
  | Some a =>
      match fuel with
      | O => None
      | S fuel' =>
          f ← pool_heap st !! a;
          st' ← fault_cache_free a st;
          fault_cache_free_list fuel' (next f) st'
      end
  end.

(** [fault_cache_prealloc]: put [n] spare records on the free list, fewer
    when [calloc] fails. *)
Fixpoint fault_cache_prealloc (sys : system) (n : nat) (st : fault_pool)
    : option fault_pool :=
  match n with
  | O => Some st
  | S n' =>
      let ok := calloc_ok sys (pool_queries st) in
      let queries := Q_calloc :: pool_queries st in
      if ok then
        let a := fresh (dom (pool_heap st)) in
        st' ← fault_cache_free_list 1 (Some a)
                (Fault_pool (<[a := zero_fault_info]> (pool_heap st))
                   (fault_info_cache st) queries);
        fault_cache_prealloc sys n' st'
      else fault_cache_prealloc sys n' (Fault_pool (pool_heap st) (fault_info_cache st) queries)
  end.

(** [fault_cache_cleanup]: free the records of the free list. *)
Fixpoint fault_cache_cleanup (fuel : nat) (st : fault_pool) : option fault_pool :=
  match fault_info_cache st with
  | None => Some st
  | Some a =>
      match fuel with
      | O => None
      | S fuel' =>
          f ← pool_heap st !! a;
          fault_cache_cleanup fuel'
            (Fault_pool (delete a (pool_heap st)) (next f) (pool_queries st))
      end
  end.

(** ** main.c: the keys of the top mode, the options *)

Definition OPT_TOP : Z := 16.
Definition OPT_TOP_TOTAL : Z := 32.
Definition OPT_JSON : Z := 256.
Definition OPT_ONCE : Z := 512.

(** The variables a key can change: [stop_faultstat], [opt_flags] and
    [sort_by]. *)
Record key_state := Key_state {
  k_stop : bool;
  k_flags : Z;
  k_sort_by : Z
}.

(** The [switch] on the character read from the terminal in the sampling
    loop of [main]. *)
Definition handle_key (ch : ascii) (st : key_state) : key_state :=
  if bool_decide (ch = "q"%char) || bool_decide (ch = "Q"%char)
     || bool_decide (ch = "027"%char) then
    Key_state true (k_flags st) (k_sort_by st)
  else if bool_decide (ch = "a"%char) then
    Key_state (k_stop st) (Z.lxor (k_flags st) OPT_ARROW) (k_sort_by st)
  else if bool_decide (ch = "t"%char) then
    Key_state (k_stop st) (Z.lxor (k_flags st) OPT_TOP_TOTAL) (k_sort_by st)
  else if bool_decide (ch = "s"%char) then
    let sort_by := int32_wrap (k_sort_by st + 1) in
    Key_state (k_stop st) (k_flags st)
      (if SORT_END <=? sort_by then SORT_MAJOR_MINOR else sort_by)
  else st.

(** The variables the options set. *)
Record options := Options {
  o_flags : Z;
  o_count : Z;
  o_duration : spec_float;
  o_forever : bool;
  o_pids : list pid_list_t
}.

(** The values [main] starts from. *)
Definition default_options : options := Options 0 0 (double_of_Z 1) true [].

(** One round of the loop over [getopt]: [c] is the option character and
    [optarg] its argument; the right alternative is the status of [exit]. *)
Definition apply_option (c : ascii) (optarg : string) (o : options) : options + Z :=
  if bool_decide (c = "a"%char) then
    inl (Options (Z.lor (o_flags o) OPT_ARROW) (o_count o) (o_duration o) (o_forever o)
           (o_pids o))
  else if bool_decide (c = "c"%char) then
    inl (Options (Z.lor (o_flags o) OPT_CMD_COMM) (o_count o) (o_duration o)
           (o_forever o) (o_pids o))
  else if bool_decide (c = "d"%char) then
    inl (Options (Z.lor (o_flags o) OPT_DIRNAME_STRIP) (o_count o) (o_duration o)
           (o_forever o) (o_pids o))
  else if bool_decide (c = "h"%char) then inr 0
  else if bool_decide (c = "j"%char) then
    inl (Options (Z.lor (o_flags o) (Z.lor OPT_JSON OPT_ONCE)) 2 (double_of_Z 1) false (o_pids o))
  else if bool_decide (c = "l"%char) then
    inl (Options (Z.lor (o_flags o) OPT_CMD_LONG) (o_count o) (o_duration o)
           (o_forever o) (o_pids o))
  else if bool_decide (c = "p"%char) then
    match parse_pid_list optarg (o_pids o) with
    | Some pids => inl (Options (o_flags o) (o_count o) (o_duration o) (o_forever o) pids)
    | None => inr 1
    end
  else if bool_decide (c = "s"%char) then
    inl (Options (Z.lor (o_flags o) OPT_CMD_SHORT) (o_count o) (o_duration o)
           (o_forever o) (o_pids o))
  else if bool_decide (c = "T"%char) then
    inl (Options (Z.lor (Z.lor (o_flags o) OPT_TOP_TOTAL) OPT_TOP) (-1) (o_duration o)
           (o_forever o) (o_pids o))
  else if bool_decide (c = "t"%char) then
    inl (Options (Z.lor (o_flags o) OPT_TOP) (-1) (o_duration o) (o_forever o) (o_pids o))
  else inr 1.

Fixpoint apply_options (opts : list (ascii * string)) (o : options) : options + Z :=
  match opts with
  | [] => inl o
  | (c, optarg) :: rest =>
      match apply_option c optarg o with
      | inl o' => apply_options rest o'
      | inr status => inr status
      end
  end.

(** The options of [main] up to the test on [-c], [-l] and [-s]: [opts] is
    what [getopt] returns, one option after the other. *)
Definition main_options (fuel : nat) (opts : list (ascii * string)) : option (options + Z) :=
  match apply_options opts default_options with
  | inl o =>
      n ← count_bits fuel (Z.land (o_flags o) OPT_CMD_ALL);
      Some (if 1 <? n then inr 1 else inl o)
  | inr status => Some (inr status)
  end.

(** ** main.c: the question for the number of samples *)

Definition LONG_MIN : Z := - 2 ^ 63.

(** [strtol(buf, &endptr, 10)]: white space is skipped, then an optional
    sign and the decimal digits are read.  The result is the value, whether
    [endptr] differs from [buf] (some digits were read), and whether [errno]
    is set (the value is out of the range of a [long], and the result is the
    nearest end of the range). *)
Definition strtol (buf : string) : Z * bool * bool :=
  let s := skip_space buf in
  let '(neg, s) :=
    match s with
    | String c r =>
        if bool_decide (c = "-"%char) then (true, r)
        else if bool_decide (c = "+"%char) then (false, r)
        else (false, s)
    | EmptyString => (false, s)
    end in
  match s with
  | String c _ =>
      if is_digit c then
        let v := (scan_digits 0 s).1 in
        let val := if neg then - v else v in
        if LONG_MAX <? val then (LONG_MAX, true, true)
        else if val <? LONG_MIN then (LONG_MIN, true, true)
        else (val, true, false)
      else (0, false, false)
  | EmptyString => (0, false, false)
  end.

(** [prompt_for_count]: [lines] is what the calls of [fgets] return one
    after the other, each at most 63 characters of the input up to and
    with the end of a line; [fgets] returns [NULL] when they are used up.
    The result is the value returned, [count] and [forever] afterwards and
    the number of times the input was refused with a message. *)
Fixpoint prompt_for_count (lines : list string) (count : Z) (forever : bool)
    : bool * Z * bool * nat :=
  match lines with
  | [] => (false, count, forever, O)
  | buf :: rest =>
      match buf with
      | EmptyString => (false, count, forever, O)
      | String c _ =>
          if bool_decide (c = "010"%char) || bool_decide (c = zero) then
            (false, count, forever, O)
          else
            let '(val, moved, errno) := strtol buf in
            if negb errno && moved && (0 <=? val) then
              if val =? 0 then (true, -1, true, O) else (true, val, false, O)
            else
              let '(r, count', forever', refused) := prompt_for_count rest count forever in
              (r, count', forever', S refused)
      end
  end.

(** ** Notions the properties are stated with *)

(** [chain fld h p l]: following the link [fld] from the pointer [p] in the
    store [h] visits the records at the addresses [l] and ends at [NULL].
    The lists of fault records and the buckets of the caches are chains. *)
Inductive chain {R : Type} (fld : R → ptr) (h : gmap addr R) : ptr → list addr → Prop :=
  | chain_nil : chain fld h None []
  | chain_cons a f l :
      h !! a = Some f → chain fld h (fld f) l → chain fld h (Some a) (a :: l).

(** The first record of [olds] whose pid is [p]. *)
Fixpoint find_pid (h : heap) (p : Z) (olds : list addr) : option (addr * fault_info_t) :=
  match olds with
  | [] => None
  | o :: rest =>
      match h !! o with
      | Some fo => if bool_decide (p = pid fo) then Some (o, fo) else find_pid h p rest
      | None => find_pid h p rest
      end
  end.

(** The record [n] with the deltas [fault_delta] gives it against [olds]. *)
Definition with_delta (h : heap) (olds : list addr) (n : fault_info_t) : fault_info_t :=
  match find_pid h (pid n) olds with
  | Some (_, fo) =>
      set_d_maj_fault (sub64 (maj_fault n) (maj_fault fo))
        (set_d_min_fault (sub64 (min_fault n) (min_fault fo)) n)
  | None => set_d_maj_fault (maj_fault n) (set_d_min_fault (min_fault n) n)
  end.

(** The value [compare] orders the records by. *)
Definition sort_key (sb : Z) (f : fault_info_t) : Z :=
  if sb =? SORT_MAJOR_MINOR then add64 (min_fault f) (maj_fault f)
  else if sb =? SORT_MAJOR then maj_fault f
  else if sb =? SORT_MINOR then min_fault f
  else if sb =? SORT_D_MAJOR_MINOR then add64 (d_min_fault f) (d_maj_fault f)
  else if sb =? SORT_D_MAJOR then d_maj_fault f
  else if sb =? SORT_D_MINOR then d_min_fault f
  else vm_swap f.

(** Insertion of [x] before the first element that [lt] holds of, and the
    sort that inserts the elements of a list one after the other. *)
Fixpoint insert_before {A : Type} (lt : A → bool) (x : A) (l : list A) : list A :=
  match l with
  | [] => [x]
  | c :: r => if lt c then x :: c :: r else c :: insert_before lt x r
  end.

Definition insert_desc {A : Type} (key : A → Z) (x : A) (l : list A) : list A :=
  insert_before (λ c, key c <? key x) x l.

(** The insertions of the dump loops: the elements of [l], one after the
    other, into [acc]; [lt c x] tells that [x] goes before [c]. *)
Definition insert_all {A : Type} (lt : A → A → bool) (l acc : list A) : list A :=
  fold_left (λ acc x, insert_before (λ c, lt c x) x acc) l acc.

Definition sort_desc {A : Type} (key : A → Z) (l : list A) : list A :=
  insert_all (λ c x, key c <? key x) l [].

(** Descending order of the keys. *)
Definition desc {A : Type} (key : A → Z) : relation A := λ a b, key b <= key a.

(** The sort key of the record at an address. *)
Definition key_at (sb : Z) (h : heap) (a : addr) : Z :=
  match h !! a with Some f => sort_key sb f | None => 0 end.

(** A double given by its mantissa and exponent: [m * 2 ^ e]. *)
Definition dbl (m e : Z) : spec_float := binary_normalize 53 1024 m e false.

(** The wait for tick [t], and the tick the loop of [main] catches up to. *)
Definition wait_for (t : Z) (time_start time_now duration_secs : spec_float) : spec_float :=
  double_sub (double_add time_start (double_mul (double_of_Z t) duration_secs)) time_now.

Definition catch_up_tick (time_start time_now duration_secs : spec_float) : Z :=
  uint64_of_double (ceil (double_div (double_sub time_now time_start) duration_secs)).

(** The part of a name [procnamecmp] compares: up to its end or its first
    space. *)
Fixpoint name_stem (s : string) : string :=
  match s with
  | EmptyString => EmptyString
  | String c r =>
      if bool_decide (c = zero) || bool_decide (c = " "%char) then EmptyString
      else String c (name_stem r)
  end.

(** The entries [parse_pid_list] makes: an entry with a name has pid 0. *)
Definition wf_pid_list (pids : list pid_list_t) : Prop :=
  Forall (λ e, pl_name e ≠ None → pl_pid e = 0) pids.



(** The record at an address ([NULL] records do not occur in the lists). *)
Definition rec_at (h : heap) (a : addr) : fault_info_t :=
  match h !! a with
  | Some f => f
  | None => Fault_info 0 0 None None 0 0 0 0 0 None None None false
  end.

(** The record of the new list at [a] as a dump leaves it: with its deltas
    against the previous list. *)
Definition new_record (h : heap) (olds : list addr) (a : addr) : fault_info_t :=
  with_delta h olds (rec_at h a).

(** What a record of the new list adds to the totals. *)
Definition tally_new (swap : bool) (f : fault_info_t) (t : totals) : totals :=
  let t1 := add_deltas f (add_cumulative f t) in
  if swap then add_swap f t1 else t1.

(** What [fault_dump] ([diff] false) and [fault_dump_diff] ([diff] true) add
    to the totals for the record [f], as it was sampled, of a process that
    has died. *)
Definition tally_died (diff : bool) (f : fault_info_t) (t : totals) : totals :=
  let t1 := if diff then sub_cumulative f t else add_cumulative f t in
  Totals (t_min_fault t1) (t_maj_fault t1)
    (add64 (t_d_min_fault t1) (neg64 (min_fault f)))
    (add64 (t_d_maj_fault t1) (neg64 (maj_fault f))) (t_vm_swap t1).

(** The previous record [o] is the one [fault_delta] matches with the new
    record at [x]. *)
Definition matches (h : heap) (olds : list addr) (o x : addr) : bool :=
  match find_pid h (pid (rec_at h x)) olds with
  | Some (o', _) => bool_decide (o' = o)
  | None => false
  end.


(** The fields of a record that the dump loops leave alone for the records
    of the new list, and the two deltas. *)
Definition pcore (f : fault_info_t) : Z * Z * ptr * ptr * Z * Z * Z * ptr :=
  (pid f, uid f, proc f, uname f, min_fault f, maj_fault f, vm_swap f, next f).

Definition deltas (f : fault_info_t) : Z * Z := (d_min_fault f, d_maj_fault f).

(** A record without what [fault_delta] assigns (the deltas, the alive
    flag), and without what the first loop of a dump over the link [fld]
    assigns. *)
Definition no_da (f : fault_info_t) : fault_info_t :=
  set_alive false (set_d_maj_fault 0 (set_d_min_fault 0 f)).

Definition frame_new (fld : link) (f : fault_info_t) : fault_info_t :=
  set_link fld None (no_da f).

(** Two records print and count alike. *)
Definition same_data (f f' : fault_info_t) : Prop :=
  pcore f = pcore f' ∧ deltas f = deltas f'.

(** The test of the first loop of [fault_dump_diff] ([diff] true): a record
    whose two deltas add up to zero is passed over. *)
Definition kept (diff : bool) (f : fault_info_t) : bool :=
  negb (diff && (add64 (d_min_fault f) (d_maj_fault f) =? 0)).

(** The record [f] of a process that has died as the second loop of the
    dumps leaves it, its link apart. *)
Definition died_record (f : fault_info_t) : fault_info_t :=
  set_maj_fault 0
    (set_min_fault 0
       (set_d_maj_fault (neg64 (maj_fault f)) (set_d_min_fault (neg64 (min_fault f)) f))).

(** The order of the insertions of a dump: [x] goes before [c]. *)
Definition dump_lt (sb : Z) (h : heap) (olds : list addr) (c x : addr) : bool :=
  compare sb (new_record h olds c) (new_record h olds x).

(** Two stores agree on a projection of their records. *)
Definition agree_on {B : Type} (proj : fault_info_t → B) (h h' : heap) : Prop :=
  ∀ a, proj <$> h' !! a = proj <$> h !! a.

(** Records as the sampler makes them: not linked into a sorted chain. *)
Definition unlinked (h : heap) (l : list addr) : Prop :=
  ∀ a, a ∈ l → ∃ f, h !! a = Some f ∧ s_next f = None ∧ d_next f = None.

Definition sample_system : system :=
  System (λ _, true) (λ _, true) (λ _ u, if u =? 0 then Some "root" else None)
    (λ _ _, true) (λ _ _, Some "sshd: session") (λ _ _, Some "sshd").

Definition empty_caches : cache_state := Cache_state ∅ ∅ ∅ ∅ [].

(** The number of ones in the binary notation of a number: what the
    compiler's built-in population count returns. *)
Fixpoint pos_popcount (p : positive) : Z :=
  match p with
  | xH => 1
  | xO q => pos_popcount q
  | xI q => 1 + pos_popcount q
  end.

Definition popcount (z : Z) : Z :=
  match z with Zpos p => pos_popcount p | _ => 0 end.

(** The value of the column [i] of a row of the dumps, in the order of the
    heading (Major, Minor, +Major, +Minor, Swap), and the record with that
    value changed. *)
Definition column (i : Z) (f : fault_info_t) : Z :=
  if i =? ATTR_MAJOR then maj_fault f
  else if i =? ATTR_MINOR then min_fault f
  else if i =? ATTR_D_MAJOR then d_maj_fault f
  else if i =? ATTR_D_MINOR then d_min_fault f
  else vm_swap f.

Definition set_vm_swap (v : Z) (f : fault_info_t) : fault_info_t :=
  Fault_info (pid f) (uid f) (proc f) (uname f) (min_fault f) (maj_fault f) v
    (d_min_fault f) (d_maj_fault f) (d_next f) (s_next f) (next f) (alive f).

Definition set_column (i : Z) (v : Z) (f : fault_info_t) : fault_info_t :=
  if i =? ATTR_MAJOR then set_maj_fault v f
  else if i =? ATTR_MINOR then set_min_fault v f
  else if i =? ATTR_D_MAJOR then set_d_maj_fault v f
  else if i =? ATTR_D_MINOR then set_d_min_fault v f
  else set_vm_swap v f.

(** The content of /proc/pid/cmdline for a process with the arguments
    [args]: each argument followed by a zero byte. *)
Definition cmdline_bytes (args : list string) : list ascii :=
  concat (map (λ a, list_ascii_of_string a ++ [zero]) args).

(** A character does not occur in a string. *)
Definition lacks (c : ascii) (s : string) : Prop := c ∉ list_ascii_of_string s.

(** A line of /proc/pid/stat: the pid, the command in parentheses, and the
    fields that follow, separated by single spaces. *)
Definition stat_line (pid_text comm : string) (fields : list string) : string :=
  pid_text +:+ " (" +:+ comm +:+ ") " +:+ String.concat " " fields.

(** A field of the line: not empty, without a space and without a closing
    parenthesis. *)
Definition stat_field (f : string) : Prop :=
  f ≠ "" ∧ lacks " "%char f ∧ lacks ")"%char f.

(** A string of decimal digits, not empty. *)
Definition digits (s : string) : Prop :=
  s ≠ "" ∧ Forall (λ c, is_digit c = true) (list_ascii_of_string s).

(** What the loop over the options keeps of the variables it sets, and the
    test that two of the flags of [-s], [-l] and [-c] are set. *)
Definition options_ok (o : options) : Prop :=
  0 <= o_flags o ∧
  (flag_set (o_flags o) OPT_TOP_TOTAL = true → flag_set (o_flags o) OPT_TOP = true) ∧
  flag_set (o_flags o) OPT_JSON = flag_set (o_flags o) OPT_ONCE ∧
  wf_pid_list (o_pids o).

Definition two_cmd_flags (flags : Z) : bool :=
  (flag_set flags OPT_CMD_SHORT && flag_set flags OPT_CMD_LONG)
  || (flag_set flags OPT_CMD_SHORT && flag_set flags OPT_CMD_COMM)
  || (flag_set flags OPT_CMD_LONG && flag_set flags OPT_CMD_COMM).




(** A hash table in good order: every bucket is a list that ends, its
    records have keys that hash to the bucket, and no two of them have the
    same key. *)
Definition buckets_ok {R : Type} (fld : R → ptr) (key : R → Z) (hash : Z → Z)
    (hp : gmap addr R) (table : gmap Z addr) : Prop :=
  ∀ b, ∃ l, chain fld hp (table !! b) l ∧
    (∀ a r, a ∈ l → hp !! a = Some r → hash (key r) = b) ∧
    NoDup ((λ a, key <$> hp !! a) <$> l).

Definition caches_ok (st : cache_state) : Prop :=
  buckets_ok u_next u_uid hash_uid (uname_heap st) (uname_cache st) ∧
  buckets_ok p_next p_pid proc_cache_hash_pid (proc_heap st) (proc_cache_hash st).

(** The record [a] is in the bucket [b] of a table. *)
Definition in_bucket {R : Type} (fld : R → ptr) (hp : gmap addr R) (table : gmap Z addr)
    (b : Z) (a : addr) : Prop :=
  ∃ l, chain fld hp (table !! b) l ∧ a ∈ l.

(** ** The scenarios of the specification

    Tick 1 observes pid 10 with major 5 and minor 20 (the record at address
    1); tick 2 observes pid 10 with major 9 and minor 20 and a new pid 11
    with major 0 and minor 3 (the records at addresses 2 and 3). *)
Definition sample (p mn mj : Z) (nx : ptr) : fault_info_t :=
  Fault_info p 0 None None mn mj 0 0 0 None None nx false.

Definition tick_store : heap :=
  list_to_map [(1%positive, sample 10 20 5 None);
               (2%positive, sample 10 20 9 (Some 3%positive));
               (3%positive, sample 11 3 0 None)].

Definition plain_globals : globals := Globals SORT_MAJOR_MINOR 0 ∅ ∅.

(** Pid 10, sampled at tick 1 with major 5 and minor 20 (address 1), has
    exited before tick 2, where no process is sampled ([exit_store]) or pid 12
    is, with major 100 and minor 100 (address 2 of [exit_store_12]). *)
Definition exit_store : heap :=
  list_to_map [(1%positive, sample 10 20 5 None)].

Definition exit_store_12 : heap :=
  list_to_map [(1%positive, sample 10 20 5 None);
               (2%positive, sample 12 100 100 None)].


(** * Properties *)

(** ** Machine integers *)

Lemma int64_wrap_small (z : Z) : - 2 ^ 63 <= z < 2 ^ 63 → int64_wrap z = z.
Proof.
  intros Hz. unfold int64_wrap.
  rewrite Z.mod_small; lia.
Qed.

Lemma sub64_counter (a b : Z) : counter a → counter b → sub64 a b = a - b.
Proof. unfold counter, sub64. intros Ha Hb. apply int64_wrap_small. lia. Qed.

(** ** Chains *)

Lemma chain_length_inv {R : Type} (fld : R → ptr) (h : gmap addr R) p l1 l2 :
  chain fld h p l1 → chain fld h p l2 → l1 = l2.
Proof.
  intros H1. revert l2. induction H1 as [|a f l Ha _ IH]; intros l2 H2.
  - by inversion H2.
  - inversion H2 as [|a' f' l' Ha' Hc']; subst.
    rewrite Ha in Ha'. injection Ha' as <-. f_equal. by apply IH.
Qed.

Lemma chain_suffix {R : Type} (fld : R → ptr) (h : gmap addr R) p l a :
  chain fld h p l → a ∈ l → ∃ l1 l2, l = l1 ++ a :: l2 ∧ chain fld h (Some a) (a :: l2).
Proof.
  induction 1 as [|b f l Hb Hc IH]; intros Hin.
  - by apply elem_of_nil in Hin.
  - apply elem_of_cons in Hin as [->|Hin].
    + exists [], l. split; [done|]. by econstructor.
    + destruct (IH Hin) as (l1 & l2 & -> & Hc').
      exists (b :: l1), l2. split; [done|]. done.
Qed.

(** A chain that ends visits no record twice. *)
Lemma chain_NoDup {R : Type} (fld : R → ptr) (h : gmap addr R) p l :
  chain fld h p l → NoDup l.
Proof.
  induction 1 as [|a f l Ha Hc IH]; [constructor|].
  apply NoDup_cons. split; [|done].
  intros Hin. destruct (chain_suffix _ _ _ _ _ Hc Hin) as (l1 & l2 & Hl & Hc').
  assert (Hc2 : chain fld h (Some a) (a :: l)) by (by econstructor).
  pose proof (chain_length_inv _ _ _ _ _ Hc' Hc2) as Heq.
  injection Heq as Heq. subst l2.
  apply (f_equal length) in Hl. rewrite length_app in Hl. simpl in Hl. lia.
Qed.

(** A chain only depends on the records it visits. *)
Lemma chain_ext {R : Type} (fld : R → ptr) (h h' : gmap addr R) p l :
  chain fld h p l → (∀ a, a ∈ l → h' !! a = h !! a) → chain fld h' p l.
Proof.
  induction 1 as [|a f l Ha Hc IH]; intros Hext; [constructor|].
  econstructor.
  - rewrite Hext; [done|]. apply elem_of_cons. by left.
  - apply IH. intros b Hb. apply Hext. apply elem_of_cons. by right.
Qed.

(** ... and on the link it follows. *)
Lemma chain_agree {R : Type} (fld : R → ptr) (h h' : gmap addr R) p l :
  chain fld h p l → (∀ a, a ∈ l → fld <$> h' !! a = fld <$> h !! a) → chain fld h' p l.
Proof.
  induction 1 as [|a f l Ha Hc IH]; intros Hext; [constructor|].
  assert (Hfa : fld <$> h' !! a = Some (fld f)).
  { rewrite Hext; [by rewrite Ha|]. apply elem_of_cons. by left. }
  destruct (h' !! a) as [f'|] eqn:Ha'; [|done].
  injection Hfa as Hfa.
  econstructor; [done|]. rewrite Hfa.
  apply IH. intros b Hb. apply Hext. apply elem_of_cons. by right.
Qed.

Lemma chain_lookup {R : Type} (fld : R → ptr) (h : gmap addr R) p l a :
  chain fld h p l → a ∈ l → is_Some (h !! a).
Proof.
  induction 1 as [|b f l Hb Hc IH]; intros Hin.
  - by apply elem_of_nil in Hin.
  - apply elem_of_cons in Hin as [->|Hin]; [by eexists|by apply IH].
Qed.

(** ** [fault_delta] *)

Lemma fault_delta_find fuel h fault_new n old_list olds :
  chain next h old_list olds →
  h !! fault_new = Some n →
  (length olds ≤ fuel)%nat →
  fault_delta fuel fault_new old_list h =
    Some (match find_pid h (pid n) olds with
          | Some (o, fo) =>
              alter (set_alive true) o
                (alter (set_d_maj_fault (sub64 (maj_fault n) (maj_fault fo))) fault_new
                  (alter (set_d_min_fault (sub64 (min_fault n) (min_fault fo))) fault_new h))
          | None =>
              alter (set_d_maj_fault (maj_fault n)) fault_new
                (alter (set_d_min_fault (min_fault n)) fault_new h)
          end).
Proof.
  intros Hc Hn. revert fuel.
  induction Hc as [|o fo l Ho Hc IH]; intros fuel Hf.
  - destruct fuel; simpl; by rewrite Hn.
  - destruct fuel as [|fuel]; [simpl in Hf; lia|].
    simpl. rewrite Hn, Ho. simpl.
    case_bool_decide; [done|].
    apply IH. simpl in Hf. lia.
Qed.

Lemma find_pid_Some h p olds o fo :
  find_pid h p olds = Some (o, fo) →
  ∃ pre post, olds = pre ++ o :: post ∧ h !! o = Some fo ∧ pid fo = p ∧
    ∀ a fa, a ∈ pre → h !! a = Some fa → pid fa ≠ p.
Proof.
  induction olds as [|c r IH]; [done|]. simpl.
  destruct (h !! c) as [fc|] eqn:Hcq.
  - case_bool_decide as Hp.
    + intros [= -> ->]. exists [], r. repeat split; try done.
      intros a fa Ha. by apply elem_of_nil in Ha.
    + intros Hr. destruct (IH Hr) as (pre & post & -> & Ho & Hpid & Hpre).
      exists (c :: pre), post. repeat split; try done.
      intros a fa Ha Hfa. apply elem_of_cons in Ha as [->|Ha]; [|by eapply Hpre].
      rewrite Hcq in Hfa. injection Hfa as <-. congruence.
  - intros Hr. destruct (IH Hr) as (pre & post & -> & Ho & Hpid & Hpre).
    exists (c :: pre), post. repeat split; try done.
    intros a fa Ha Hfa. apply elem_of_cons in Ha as [->|Ha]; [|by eapply Hpre].
    congruence.
Qed.

Lemma find_pid_None h p olds :
  find_pid h p olds = None → ∀ a fa, a ∈ olds → h !! a = Some fa → pid fa ≠ p.
Proof.
  induction olds as [|c r IH]; simpl.
  - intros _ a fa Ha. by apply elem_of_nil in Ha.
  - destruct (h !! c) as [fc|] eqn:Hcq.
    + case_bool_decide as Hp; [done|]. intros Hr a fa Ha Hfa.
      apply elem_of_cons in Ha as [->|Ha]; [|by eapply IH].
      rewrite Hcq in Hfa. injection Hfa as <-. congruence.
    + intros Hr a fa Ha Hfa.
      apply elem_of_cons in Ha as [->|Ha]; [congruence|by eapply IH].
Qed.

(** C1: for a new-tick record whose pid occurs in the previous list,
    [fault_delta] returns, finds the first previous record [o] with that pid,
    sets the minor and major deltas of the new record to its counters minus
    those of [o] and marks [o] alive; when the counters are cumulative
    counters the deltas are the exact differences, and they are not negative
    when the new counters are not below the old ones. *)
Theorem fault_delta_matched (fuel : nat) (h : heap) (fault_new : addr)
    (n : fault_info_t) (old_list : ptr) (olds : list addr) :
  chain next h old_list olds →
  h !! fault_new = Some n →
  (∃ o fo, o ∈ olds ∧ h !! o = Some fo ∧ pid fo = pid n) →
  (length olds ≤ fuel)%nat →
  ∃ pre o post fo h',
    olds = pre ++ o :: post ∧
    h !! o = Some fo ∧ pid fo = pid n ∧
    (∀ a fa, a ∈ pre → h !! a = Some fa → pid fa ≠ pid n) ∧
    fault_delta fuel fault_new old_list h = Some h' ∧
    d_min_fault <$> h' !! fault_new = Some (sub64 (min_fault n) (min_fault fo)) ∧
    d_maj_fault <$> h' !! fault_new = Some (sub64 (maj_fault n) (maj_fault fo)) ∧
    alive <$> h' !! o = Some true ∧
    (counter (min_fault fo) → counter (min_fault n) →
       sub64 (min_fault n) (min_fault fo) = min_fault n - min_fault fo) ∧
    (counter (maj_fault fo) → counter (maj_fault n) →
       sub64 (maj_fault n) (maj_fault fo) = maj_fault n - maj_fault fo) ∧
    (counter (min_fault fo) → counter (min_fault n) → min_fault fo <= min_fault n →
       0 <= sub64 (min_fault n) (min_fault fo)) ∧
    (counter (maj_fault fo) → counter (maj_fault n) → maj_fault fo <= maj_fault n →
       0 <= sub64 (maj_fault n) (maj_fault fo)).
Proof.
  intros Hc Hn (o0 & fo0 & Hin0 & Ho0 & Hp0) Hfuel.
  destruct (find_pid h (pid n) olds) as [[o fo]|] eqn:Hfind.
  - destruct (find_pid_Some _ _ _ _ _ Hfind) as (pre & post & Holds & Ho & Hpid & Hpre).
    exists pre, o, post, fo. eexists.
    split; [done|]. split; [done|]. split; [done|]. split; [done|].
    split. { rewrite (fault_delta_find fuel h fault_new n old_list olds) by done.
             by rewrite Hfind. }
    split.
    { rewrite lookup_alter. case_decide as Heq.
      - subst o. rewrite !lookup_alter_eq, Hn. done.
      - rewrite !lookup_alter_eq, Hn. done. }
    split.
    { rewrite lookup_alter. case_decide as Heq.
      - subst o. rewrite !lookup_alter_eq, Hn. done.
      - rewrite !lookup_alter_eq, Hn. done. }
    split.
    { rewrite lookup_alter_eq.
      destruct (decide (fault_new = o)) as [->|Hne].
      - rewrite !lookup_alter_eq, Hn. done.
      - rewrite !lookup_alter_ne, Ho by done. done. }
    split; [intros; by apply sub64_counter|].
    split; [intros; by apply sub64_counter|].
    split; intros; rewrite sub64_counter by done; lia.
  - exfalso. by eapply (find_pid_None _ _ _ Hfind o0 fo0).
Qed.

(** C3: for a new-tick record whose pid does not occur in the previous list
    (the empty list of the first tick included), [fault_delta] returns and
    sets the minor and major deltas of the record to its minor and major
    counters. *)
Theorem fault_delta_new_process (fuel : nat) (h : heap) (fault_new : addr)
    (n : fault_info_t) (old_list : ptr) (olds : list addr) :
  chain next h old_list olds →
  h !! fault_new = Some n →
  (∀ o fo, o ∈ olds → h !! o = Some fo → pid fo ≠ pid n) →
  (length olds ≤ fuel)%nat →
  ∃ h',
    fault_delta fuel fault_new old_list h = Some h' ∧
    h' !! fault_new =
      Some (set_d_maj_fault (maj_fault n) (set_d_min_fault (min_fault n) n)) ∧
    d_min_fault <$> h' !! fault_new = Some (min_fault n) ∧
    d_maj_fault <$> h' !! fault_new = Some (maj_fault n) ∧
    (∀ a, a ≠ fault_new → h' !! a = h !! a).
Proof.
  intros Hc Hn Hno Hfuel.
  rewrite (fault_delta_find fuel h fault_new n old_list olds) by done.
  destruct (find_pid h (pid n) olds) as [[o fo]|] eqn:Hfind.
  - destruct (find_pid_Some _ _ _ _ _ Hfind) as (pre & post & -> & Ho & Hpid & _).
    exfalso. eapply (Hno o fo); [|done..].
    apply elem_of_app. right. apply elem_of_cons. by left.
  - eexists. split; [done|].
    rewrite !lookup_alter_eq, Hn. simpl.
    repeat split; try done.
    intros a Ha. by rewrite !lookup_alter_ne.
Qed.

Lemma fault_delta_matched_witness :
  chain next tick_store (Some 1%positive) [1%positive] ∧
  tick_store !! 2%positive = Some (sample 10 20 9 (Some 3%positive)) ∧
  (length [1%positive] ≤ 1)%nat ∧
  ∃ pre o post fo h',
    [1%positive] = pre ++ o :: post ∧
    tick_store !! o = Some fo ∧ pid fo = 10 ∧
    fault_delta 1 2%positive (Some 1%positive) tick_store = Some h' ∧
    d_min_fault <$> h' !! 2%positive = Some (sub64 20 (min_fault fo)) ∧
    d_maj_fault <$> h' !! 2%positive = Some (sub64 9 (maj_fault fo)) ∧
    alive <$> h' !! o = Some true.
Proof.
  assert (Hc : chain next tick_store (Some 1%positive) [1%positive]).
  { econstructor; [reflexivity|]. simpl. constructor. }
  assert (Hn : tick_store !! 2%positive = Some (sample 10 20 9 (Some 3%positive)))
    by reflexivity.
  split; [exact Hc|]. split; [exact Hn|]. split; [simpl; lia|].
  destruct (fault_delta_matched 1 tick_store 2%positive _ (Some 1%positive)
              [1%positive] Hc Hn) as (pre & o & post & fo & h' & H).
  - exists 1%positive, (sample 10 20 5 None).
    split; [apply elem_of_cons; by left|]. split; reflexivity.
  - simpl. lia.
  - exists pre, o, post, fo, h'. simpl in H. tauto.
Defined.

Lemma fault_delta_new_process_witness :
  chain next tick_store (Some 1%positive) [1%positive] ∧
  tick_store !! 3%positive = Some (sample 11 3 0 None) ∧
  ∃ h',
    fault_delta 1 3%positive (Some 1%positive) tick_store = Some h' ∧
    d_min_fault <$> h' !! 3%positive = Some 3 ∧
    d_maj_fault <$> h' !! 3%positive = Some 0.
Proof.
  assert (Hc : chain next tick_store (Some 1%positive) [1%positive]).
  { econstructor; [reflexivity|]. simpl. constructor. }
  assert (Hn : tick_store !! 3%positive = Some (sample 11 3 0 None)) by reflexivity.
  split; [exact Hc|]. split; [exact Hn|].
  destruct (fault_delta_new_process 1 tick_store 3%positive _ (Some 1%positive)
              [1%positive] Hc Hn) as (h' & H1 & _ & H3 & H4 & _).
  - intros o fo Ho Hfo. apply elem_of_cons in Ho as [->|Ho].
    + vm_compute in Hfo. injection Hfo as <-. simpl. lia.
    + by apply elem_of_nil in Ho.
  - simpl. lia.
  - exists h'. simpl in H3, H4. tauto.
Defined.

(** ** [int64_to_str] *)

Lemma length_spaces (n : nat) : String.length (spaces n) = n.
Proof. induction n as [|n IH]; simpl; [done|by rewrite IH]. Qed.

Lemma length_string_app (s1 s2 : string) :
  String.length (s1 +:+ s2) = (String.length s1 + String.length s2)%nat.
Proof. induction s1 as [|c s1 IH]; simpl; [done|by rewrite IH]. Qed.

Lemma length_pad_left (w : nat) (s : string) :
  String.length (pad_left w s) = (w `max` String.length s)%nat.
Proof. unfold pad_left. rewrite length_string_app, length_spaces. lia. Qed.

Lemma length_substring_0 (n : nat) (s : string) :
  String.length (substring 0 n s) = (n `min` String.length s)%nat.
Proof.
  revert n. induction s as [|c s IH]; intros [|n]; simpl; try done.
  by rewrite IH.
Qed.

Lemma length_snprintf (buflen : nat) (s : string) :
  String.length (snprintf buflen s) = ((buflen - 1) `min` String.length s)%nat.
Proof. apply length_substring_0. Qed.

Ltac units_tac :=
  repeat match goal with
         | |- _ ∧ _ => split
         | |- _ ↔ _ => split
         end;
  intros ?; try discriminate; try lia; try done.

(** The number and the unit [int64_to_str] prints for a value. *)
Lemma int64_to_str_parts (val : Z) (buflen : nat) :
  ∃ (num : string) (unit : ascii),
    int64_to_str val buflen = snprintf buflen (pad_left 6 num +:+ String unit "") ∧
    (unit = " "%char ↔ val < 1000000) ∧
    (unit = "k"%char ↔ 1000000 <= val < 1000000000) ∧
    (unit = "M"%char ↔ 1000000000 <= val < 1000000000000) ∧
    (unit = "G"%char ↔ 1000000000000 <= val).
Proof.
  unfold int64_to_str.
  destruct (Z.ltb_spec val 0) as [Hneg|Hpos].
  - change (0 <? 1000000) with true. cbv iota.
    eexists _, _. split; [reflexivity|].
    units_tac.
  - destruct (Z.ltb_spec val 1000000) as [H1|H1].
    { eexists _, _. split; [reflexivity|].
      units_tac. }
    destruct (Z.ltb_spec val 1000000000) as [H2|H2].
    { eexists _, _. split; [reflexivity|].
      units_tac. }
    destruct (Z.ltb_spec val 1000000000000) as [H3|H3].
    { eexists _, _. split; [reflexivity|].
      units_tac. }
    eexists _, _. split; [reflexivity|].
    units_tac.
Qed.

(** C10: a negative value is formatted as 0 is, so that a negative delta
    column of the lines of [fault_dump] and [fault_dump_diff], and a negative
    total, read 0. *)
Theorem int64_to_str_negative (val : Z) (buflen : nat) :
  val < 0 →
  int64_to_str val buflen = int64_to_str 0 buflen ∧
  fmt val = "     0 " ∧
  (∀ g f, d_maj_fault f = val →
     r_cols (diff_row g f) !! 2%nat = Some "     0 " ∧
     r_cols (dump_row g false f) !! 2%nat = Some "     0 ") ∧
  (∀ g f, d_min_fault f = val →
     r_cols (diff_row g f) !! 3%nat = Some "     0 " ∧
     r_cols (dump_row g false f) !! 3%nat = Some "     0 ") ∧
  (∀ t, t_d_maj_fault t = val → total_cols false t !! 2%nat = Some "     0 ") ∧
  (∀ t, t_d_min_fault t = val → total_cols false t !! 3%nat = Some "     0 ").
Proof.
  intros Hneg.
  assert (H0 : ∀ n, int64_to_str val n = int64_to_str 0 n).
  { intros n. unfold int64_to_str. by rewrite (proj2 (Z.ltb_lt val 0) Hneg). }
  assert (Hfmt : fmt val = "     0 ").
  { unfold fmt. rewrite H0. by vm_compute. }
  split; [apply H0|]. split; [exact Hfmt|].
  repeat split; intros; simpl; subst val; by rewrite Hfmt.
Qed.

Lemma int64_to_str_negative_witness :
  -5 < 0 ∧ int64_to_str (-5) 12 = int64_to_str 0 12 ∧ fmt (-5) = "     0 ".
Proof.
  split; [lia|].
  destruct (int64_to_str_negative (-5) 12) as (H1 & H2 & _); [lia|].
  split; [exact H1|exact H2].
Defined.

(** C8, as the code has it: 999999 is printed as its six digits and a blank
    unit, with no space in front; 1000000 and 1000000000 are printed as
    1000k and 1000M; the units change at the powers of 1000; a value is
    printed as a number, right-aligned in six characters or more, and its
    unit, seven characters when the number has at most six digits and never
    more than eleven. *)
Theorem int64_to_str_format :
  int64_to_str 999999 12 = "999999 " ∧
  int64_to_str 1000000 12 = "  1000k" ∧
  int64_to_str 1000000000 12 = "  1000M" ∧
  ∀ val : Z, ∃ (num : string) (unit : ascii),
    int64_to_str val 12 = snprintf 12 (pad_left 6 num +:+ String unit "") ∧
    (unit = " "%char ↔ val < 1000000) ∧
    (unit = "k"%char ↔ 1000000 <= val < 1000000000) ∧
    (unit = "M"%char ↔ 1000000000 <= val < 1000000000000) ∧
    (unit = "G"%char ↔ 1000000000000 <= val) ∧
    (7 ≤ String.length (int64_to_str val 12) ≤ 11)%nat ∧
    ((String.length num ≤ 6)%nat → String.length (int64_to_str val 12) = 7%nat).
Proof.
  split; [by vm_compute|]. split; [by vm_compute|]. split; [by vm_compute|].
  intros val.
  destruct (int64_to_str_parts val 12) as (num & unit & Heq & Hu).
  exists num, unit. split; [exact Heq|].
  destruct Hu as (H1 & H2 & H3 & H4).
  split; [exact H1|]. split; [exact H2|]. split; [exact H3|]. split; [exact H4|].
  rewrite Heq, length_snprintf, length_string_app, length_pad_left.
  change (String.length (String unit "")) with 1%nat.
  change (12 - 1)%nat with 11%nat.
  split; lia.
Qed.

(** The claim of C8 fails on the code: 999999 is not printed with a space in
    front, and the output is not of a fixed width. *)
Lemma int64_to_str_format_counterexample :
  int64_to_str 999999 12 ≠ " 999999 " ∧
  int64_to_str 9223372036854775807 12 = "9223372037G" ∧
  String.length (int64_to_str 9223372036854775807 12)
    ≠ String.length (int64_to_str 1000000 12).
Proof. split; [by vm_compute|]. split; by vm_compute. Qed.

(** ** The wait of the sampling loop *)

(** C9, as the code has it: the wait is [start + t * interval - now]; when
    it is negative the tick counter is set to the tick that catches up with
    the present and the wait is computed again, and one whole interval is
    added to a wait that is then below half a second; otherwise the tick
    counter advances, unless the wait is redone after a resize. *)
Theorem next_wait_cases (t : Z) (redo : bool)
    (time_start time_now duration_secs : spec_float) :
  let secs := wait_for t time_start time_now duration_secs in
  let t' := catch_up_tick time_start time_now duration_secs in
  let secs' := wait_for t' time_start time_now duration_secs in
  (double_ltb secs double_zero = false →
     next_wait t redo time_start time_now duration_secs =
       (secs, if redo then t else (t + 1) mod 2 ^ 64)) ∧
  (double_ltb secs double_zero = true → double_ltb secs' double_half = true →
     next_wait t redo time_start time_now duration_secs =
       (double_add secs' duration_secs, t')) ∧
  (double_ltb secs double_zero = true → double_ltb secs' double_half = false →
     next_wait t redo time_start time_now duration_secs = (secs', t')).
Proof.
  intros secs t' secs'. unfold next_wait.
  fold (wait_for t time_start time_now duration_secs). fold secs.
  fold (catch_up_tick time_start time_now duration_secs). fold t'.
  fold (wait_for t' time_start time_now duration_secs). fold secs'.
  repeat split.
  - by intros ->.
  - by intros -> ->.
  - by intros -> ->.
Qed.

(** With an interval of 2 s, a start at 1000 s and the time 1003.75 s, tick 1
    is late, the loop catches up to tick 2 and the wait of 0.25 s becomes
    2.25 s; at the time 1003.25 s the wait of 0.75 s is kept. *)
Lemma next_wait_cases_witness :
  double_ltb (wait_for 1 (dbl 1000 0) (dbl 4015 (-2)) (dbl 2 0)) double_zero = true ∧
  double_ltb (wait_for 2 (dbl 1000 0) (dbl 4015 (-2)) (dbl 2 0)) double_half = true ∧
  next_wait 1 false (dbl 1000 0) (dbl 4015 (-2)) (dbl 2 0) = (dbl 9 (-2), 2) ∧
  double_ltb (wait_for 1 (dbl 1000 0) (dbl 4013 (-2)) (dbl 2 0)) double_zero = true ∧
  double_ltb (wait_for 2 (dbl 1000 0) (dbl 4013 (-2)) (dbl 2 0)) double_half = false ∧
  next_wait 1 false (dbl 1000 0) (dbl 4013 (-2)) (dbl 2 0) = (dbl 3 (-2), 2).
Proof.
  assert (H1 : double_ltb (wait_for 1 (dbl 1000 0) (dbl 4015 (-2)) (dbl 2 0))
                 double_zero = true) by (vm_compute; reflexivity).
  assert (H2 : double_ltb
                 (wait_for (catch_up_tick (dbl 1000 0) (dbl 4015 (-2)) (dbl 2 0))
                    (dbl 1000 0) (dbl 4015 (-2)) (dbl 2 0)) double_half = true)
    by (vm_compute; reflexivity).
  assert (H3 : double_ltb (wait_for 1 (dbl 1000 0) (dbl 4013 (-2)) (dbl 2 0))
                 double_zero = true) by (vm_compute; reflexivity).
  assert (H4 : double_ltb
                 (wait_for (catch_up_tick (dbl 1000 0) (dbl 4013 (-2)) (dbl 2 0))
                    (dbl 1000 0) (dbl 4013 (-2)) (dbl 2 0)) double_half = false)
    by (vm_compute; reflexivity).
  pose proof (next_wait_cases 1 false (dbl 1000 0) (dbl 4015 (-2)) (dbl 2 0)) as (_ & Ha & _).
  pose proof (next_wait_cases 1 false (dbl 1000 0) (dbl 4013 (-2)) (dbl 2 0)) as (_ & _ & Hb).
  specialize (Ha H1 H2). specialize (Hb H3 H4).
  split; [exact H1|]. split; [vm_compute; reflexivity|].
  split; [rewrite Ha; vm_compute; reflexivity|].
  split; [exact H3|]. split; [vm_compute; reflexivity|].
  rewrite Hb. vm_compute. reflexivity.
Defined.

(** The claim of C9 fails on the code: with an interval of 10 s, a start at
    1000 s and the time 1019.25 s, tick 1 is late and the loop catches up to
    tick 2, but the wait of 0.75 s is kept although it is below half an
    interval (5 s). *)
Lemma next_wait_half_interval_counterexample :
  double_ltb (wait_for 1 (dbl 1000 0) (dbl 4077 (-2)) (dbl 10 0)) double_zero = true ∧
  next_wait 1 false (dbl 1000 0) (dbl 4077 (-2)) (dbl 10 0) = (dbl 3 (-2), 2) ∧
  double_ltb (fst (next_wait 1 false (dbl 1000 0) (dbl 4077 (-2)) (dbl 10 0)))
    (double_mul double_half (dbl 10 0)) = true.
Proof. split; [|split]; vm_compute; reflexivity. Qed.

(** ** The allow-list *)






Lemma parse_pid_token_wf token pids pids' :
  wf_pid_list pids → parse_pid_token token pids = Some pids' → wf_pid_list pids'.
Proof.
  unfold wf_pid_list, parse_pid_token. intros Hwf.
  destruct token as [|c r].
  - intros [= <-]. by constructor.
  - destruct (is_digit c).
    + destruct (LONG_MAX <? _); [done|].
      case_bool_decide; intros [= <-]; [done|]. by constructor.
    + intros [= <-]. by constructor.
Qed.

(** The lists [parse_pid_list] makes are well formed. *)
Lemma parse_pid_list_wf arg pids pids' :
  wf_pid_list pids → parse_pid_list arg pids = Some pids' → wf_pid_list pids'.
Proof.
  unfold parse_pid_list. generalize (strtok_commas "" arg) as tokens.
  intros tokens. revert pids. induction tokens as [|tk rest IH]; intros pids Hwf; simpl.
  - by intros [= <-].
  - destruct (parse_pid_token tk pids) as [pids1|] eqn:Htk; [|done]. simpl.
    apply IH. by eapply parse_pid_token_wf.
Qed.



(** ** The caches *)









(** ** Insertion into a descending list *)

Section insertion.
Context {A : Type}.
Implicit Types (l acc : list A) (x : A).

Lemma insert_before_perm (lt : A → bool) x l : insert_before lt x l ≡ₚ x :: l.
Proof.
  induction l as [|c r IH]; simpl; [done|].
  destruct (lt c); [done|]. rewrite IH. apply Permutation_swap.
Qed.

Lemma insert_all_perm (lt : A → A → bool) l acc : insert_all lt l acc ≡ₚ acc ++ l.
Proof.
  unfold insert_all. revert acc. induction l as [|x l IH]; intros acc; simpl.
  - by rewrite app_nil_r.
  - rewrite IH, insert_before_perm. simpl. apply Permutation_middle.
Qed.

Lemma insert_before_ext (lt lt' : A → bool) x l :
  (∀ c, c ∈ l → lt c = lt' c) → insert_before lt x l = insert_before lt' x l.
Proof.
  induction l as [|c r IH]; intros H; simpl; [done|].
  rewrite <- (H c) by (apply elem_of_cons; by left).
  destruct (lt c); [done|]. f_equal. apply IH.
  intros d Hd. apply H. apply elem_of_cons. by right.
Qed.

Lemma insert_all_ext (lt lt' : A → A → bool) l acc :
  (∀ c x, c ∈ acc ++ l → x ∈ l → lt c x = lt' c x) →
  insert_all lt l acc = insert_all lt' l acc.
Proof.
  unfold insert_all. revert acc. induction l as [|x l IH]; intros acc H; simpl; [done|].
  rewrite (insert_before_ext (λ c, lt c x) (λ c, lt' c x)).
  - apply IH. intros c y Hc Hy. apply H.
    + apply elem_of_app in Hc as [Hc|Hc].
      * rewrite insert_before_perm in Hc.
        apply elem_of_cons in Hc as [->|Hc].
        -- apply elem_of_app. right. apply elem_of_cons. by left.
        -- apply elem_of_app. by left.
      * apply elem_of_app. right. apply elem_of_cons. by right.
    + apply elem_of_cons. by right.
  - intros c Hc. apply H.
    + apply elem_of_app. by left.
    + apply elem_of_cons. by left.
Qed.

Variable key : A → Z.

Lemma filter_key_none (k : Z) l :
  Forall (λ a, key a ≠ k) l → filter (λ a, key a = k) l = [].
Proof.
  induction 1 as [|c r Hc Hr IH]; [done|].
  by rewrite filter_cons_False.
Qed.

Lemma insert_desc_sorted x l :
  StronglySorted (desc key) l → StronglySorted (desc key) (insert_desc key x l).
Proof.
  unfold insert_desc. induction 1 as [|c r Hr IH Hc]; simpl.
  - repeat constructor.
  - destruct (Z.ltb_spec (key c) (key x)) as [Hlt|Hge].
    + constructor; [by constructor|].
      constructor; [unfold desc; lia|].
      eapply Forall_impl; [exact Hc|]. unfold desc. simpl. intros; lia.
    + constructor; [done|].
      rewrite insert_before_perm. constructor; [exact Hge|done].
Qed.

Lemma sort_from_sorted l acc :
  StronglySorted (desc key) acc →
  StronglySorted (desc key) (insert_all (λ c y, key c <? key y) l acc).
Proof.
  unfold insert_all. revert acc. induction l as [|x l IH]; intros acc Hacc; simpl; [done|].
  apply IH. by apply insert_desc_sorted.
Qed.

(** In a descending list an element is inserted after the elements of the
    same key. *)
Lemma insert_desc_stable (k : Z) x l :
  StronglySorted (desc key) l →
  filter (λ a, key a = k) (insert_desc key x l) =
  filter (λ a, key a = k) l ++ filter (λ a, key a = k) [x].
Proof.
  unfold insert_desc. induction 1 as [|c r Hr IH Hc]; simpl; [done|].
  destruct (Z.ltb_spec (key c) (key x)) as [Hlt|Hge].
  - rewrite (filter_cons _ x (c :: r)), (filter_cons _ x []), filter_nil.
    destruct (decide (key x = k)) as [Hk|Hk]; [|by rewrite app_nil_r].
    assert (Hnone : filter (λ a, key a = k) (c :: r) = []).
    { apply filter_key_none. constructor; [lia|].
      eapply Forall_impl; [exact Hc|]. unfold desc. simpl. intros; lia. }
    by rewrite Hnone.
  - rewrite !(filter_cons _ c). rewrite IH.
    destruct (decide (key c = k)); done.
Qed.

Lemma sort_from_stable (k : Z) l acc :
  StronglySorted (desc key) acc →
  filter (λ a, key a = k) (insert_all (λ c y, key c <? key y) l acc) =
  filter (λ a, key a = k) acc ++ filter (λ a, key a = k) l.
Proof.
  unfold insert_all. revert acc. induction l as [|x l IH]; intros acc Hacc; simpl.
  - by rewrite filter_nil, app_nil_r.
  - rewrite IH by (by apply insert_desc_sorted).
    change (insert_before (λ c, key c <? key x) x acc) with (insert_desc key x acc).
    rewrite insert_desc_stable by done.
    rewrite <- app_assoc. f_equal.
    rewrite (filter_cons _ x l), (filter_cons _ x []), filter_nil.
    by destruct (decide (key x = k)).
Qed.

Lemma insert_desc_last x acc :
  StronglySorted (desc key) (acc ++ [x]) → insert_desc key x acc = acc ++ [x].
Proof.
  unfold insert_desc. induction acc as [|c r IH]; simpl; [done|].
  intros Hs. apply StronglySorted_inv in Hs as [Hr Hc].
  rewrite Forall_app, Forall_singleton in Hc. destruct Hc as [_ Hx].
  unfold desc in Hx.
  destruct (Z.ltb_spec (key c) (key x)) as [Hlt|Hge]; [lia|].
  f_equal. by apply IH.
Qed.

Lemma sort_from_sorted_input l acc :
  StronglySorted (desc key) (acc ++ l) →
  insert_all (λ c y, key c <? key y) l acc = acc ++ l.
Proof.
  unfold insert_all. revert acc. induction l as [|x l IH]; intros acc Hs; simpl.
  - by rewrite app_nil_r.
  - assert (Hs' : StronglySorted (desc key) ((acc ++ [x]) ++ l)).
    { by rewrite <- app_assoc. }
    change (insert_before (λ c, key c <? key x) x acc) with (insert_desc key x acc).
    rewrite insert_desc_last by (by apply StronglySorted_app_1_l in Hs').
    rewrite IH by done. by rewrite <- app_assoc.
Qed.

End insertion.

(** ** The insertion loop *)

Lemma get_link_set_link fld v f : get_link fld (set_link fld v f) = v.
Proof. by destruct fld. Qed.

Lemma set_link_set_link fld v w f : set_link fld w (set_link fld v f) = set_link fld w f.
Proof. by destruct fld. Qed.

Lemma rec_at_Some h a f : h !! a = Some f → rec_at h a = f.
Proof. unfold rec_at. by intros ->. Qed.

Lemma agree_on_refl {B : Type} (proj : fault_info_t → B) h : agree_on proj h h.
Proof. done. Qed.

Lemma agree_on_trans {B : Type} (proj : fault_info_t → B) h1 h2 h3 :
  agree_on proj h1 h2 → agree_on proj h2 h3 → agree_on proj h1 h3.
Proof. intros H1 H2 a. by rewrite H2, H1. Qed.

Lemma agree_on_sym {B : Type} (proj : fault_info_t → B) h1 h2 :
  agree_on proj h1 h2 → agree_on proj h2 h1.
Proof. intros H a. by rewrite H. Qed.

(** A projection that is a function of another agrees where the other does. *)
Lemma agree_on_weaken {B C : Type} (p1 : fault_info_t → B) (p2 : fault_info_t → C) h h' :
  (∀ f f', p1 f = p1 f' → p2 f = p2 f') → agree_on p1 h h' → agree_on p2 h h'.
Proof.
  intros Hp H a. specialize (H a).
  destruct (h' !! a) as [f'|], (h !! a) as [f|]; simpl in *; try done.
  injection H as H. f_equal. by apply Hp.
Qed.

(** An assignment that keeps a projection keeps the agreement on it. *)
Lemma agree_on_alter {B : Type} (proj : fault_info_t → B) (g : fault_info_t → fault_info_t)
    a h :
  (∀ f, proj (g f) = proj f) → agree_on proj h (alter g a h).
Proof.
  intros Hg b. rewrite lookup_alter. case_decide as Hab; [|done].
  subst b. destruct (h !! a); simpl; [|done]. by rewrite Hg.
Qed.

Section insertion_loop.
Variables (sb : Z) (fld : link).

Lemma sorted_insert_field l :
  ∀ fuel a h sorted x fx,
    chain (get_link fld) h (Some a) (a :: l) →
    h !! x = Some fx → get_link fld fx = None →
    x ∉ a :: l → (length l < fuel)%nat →
    ∃ h', sorted_insert fuel sb fld x (Field a) h sorted = Some (h', sorted) ∧
      chain (get_link fld) h' (Some a)
        (a :: insert_before (λ c, compare sb (rec_at h c) fx) x l) ∧
      agree_on (set_link fld None) h h' ∧
      (∀ b, b ∉ x :: a :: l → h' !! b = h !! b).
Proof.
  induction l as [|c r IH]; intros fuel a h sorted x fx Hc Hx Hlink Hnin Hfuel.
  - destruct fuel as [|fuel]; [simpl in Hfuel; lia|].
    inversion Hc as [|a' fa l' Ha Htl]; subst.
    inversion Htl as [Hnone|]; subst.
    apply not_elem_of_cons in Hnin as [Hxa _].
    simpl. rewrite Ha. simpl. rewrite <- Hnone. simpl.
    eexists. split; [done|]. split; [|split].
    + econstructor; [by rewrite lookup_alter_eq, Ha|].
      rewrite get_link_set_link. simpl.
      econstructor; [by rewrite lookup_alter_ne|]. rewrite Hlink. constructor.
    + apply agree_on_alter. intros f. apply set_link_set_link.
    + intros b Hb. apply not_elem_of_cons in Hb as [_ Hb].
      apply not_elem_of_cons in Hb as [Hb _]. by rewrite lookup_alter_ne.
  - destruct fuel as [|fuel]; [simpl in Hfuel; lia|].
    pose proof (chain_NoDup _ _ _ _ Hc) as Hnd.
    inversion Hc as [|a' fa l' Ha Htl]; subst.
    inversion Htl as [|c' fc r' Hcq Htl' Hsome]; subst.
    rewrite <- Hsome in Htl.
    apply not_elem_of_cons in Hnin as [Hxa Hnin].
    apply NoDup_cons in Hnd as [Hanin Hnd].
    simpl. rewrite Ha. simpl. rewrite <- Hsome. simpl. rewrite Hcq, Hx. simpl.
    rewrite (rec_at_Some _ _ _ Hcq).
    destruct (compare sb fc fx) eqn:Hcmp.
    + eexists. split; [done|]. split; [|split].
      * econstructor.
        { rewrite lookup_alter_eq, lookup_alter_ne by done. by rewrite Ha. }
        rewrite get_link_set_link.
        econstructor.
        { rewrite lookup_alter_ne, lookup_alter_eq by done. by rewrite Hx. }
        rewrite get_link_set_link.
        eapply chain_ext; [exact Htl|].
        intros b Hb. rewrite !lookup_alter_ne; [done|intros ->; done..].
      * eapply agree_on_trans; apply agree_on_alter; intros f; apply set_link_set_link.
      * intros b Hb. apply not_elem_of_cons in Hb as [Hbx Hb].
        apply not_elem_of_cons in Hb as [Hba _]. by rewrite !lookup_alter_ne.
    + destruct (IH fuel c h sorted x fx) as (h' & Hins & Hch & Hag & Hfr);
        [done|done|done|done|simpl in Hfuel; lia|].
      exists h'. split; [done|]. split; [|split; [done|]].
      * econstructor.
        { rewrite Hfr; [exact Ha|].
          apply not_elem_of_cons. split; [done|]. done. }
        by rewrite <- Hsome.
      * intros b Hb. apply Hfr.
        apply not_elem_of_cons in Hb as [Hbx Hb].
        apply not_elem_of_cons in Hb as [Hba Hb].
        apply not_elem_of_cons. by split.
Qed.

Lemma sorted_insert_root l fuel h sorted x fx :
  chain (get_link fld) h sorted l →
  h !! x = Some fx → get_link fld fx = None →
  x ∉ l → (length l < fuel)%nat →
  ∃ h' sorted', sorted_insert fuel sb fld x Root h sorted = Some (h', sorted') ∧
    chain (get_link fld) h' sorted'
      (insert_before (λ c, compare sb (rec_at h c) fx) x l) ∧
    agree_on (set_link fld None) h h' ∧
    (∀ b, b ∉ x :: l → h' !! b = h !! b).
Proof.
  intros Hc Hx Hlink Hnin Hfuel.
  destruct fuel as [|fuel]; [lia|].
  destruct l as [|c r].
  - inversion Hc; subst. simpl.
    exists h, (Some x). split; [done|]. split; [|split; [apply agree_on_refl|done]].
    econstructor; [exact Hx|]. rewrite Hlink. constructor.
  - inversion Hc as [|c' fc r' Hcq Htl]; subst.
    simpl. rewrite Hcq, Hx. simpl. rewrite (rec_at_Some _ _ _ Hcq).
    destruct (compare sb fc fx) eqn:Hcmp.
    + eexists _, _. split; [done|]. split; [|split].
      * econstructor; [by rewrite lookup_alter_eq, Hx|].
        rewrite get_link_set_link.
        eapply chain_ext; [exact Hc|].
        intros b Hb. rewrite lookup_alter_ne; [done|intros ->; done].
      * apply agree_on_alter. intros f. apply set_link_set_link.
      * intros b Hb. apply not_elem_of_cons in Hb as [Hbx _].
        by rewrite lookup_alter_ne.
    + destruct (sorted_insert_field r fuel c h (Some c) x fx) as (h' & Hins & Hch & Hag & Hfr);
        [done|done|done|done|simpl in Hfuel; lia|].
      exists h', (Some c). split; [done|]. split; [done|]. split; [done|].
      intros b Hb. by apply Hfr.
Qed.

End insertion_loop.

(** ** The first loop of the dumps *)

Ltac rec_fields :=
  cbv [no_da frame_new same_data set_link get_link set_alive set_d_maj_fault
       set_d_min_fault set_min_fault set_maj_fault set_d_next set_s_next pcore deltas
       pid uid proc uname min_fault maj_fault vm_swap d_min_fault d_maj_fault
       d_next s_next next alive];
  intros;
  repeat match goal with
         | H : _ ∧ _ |- _ => destruct H
         | H : (_, _) = (_, _) |- _ => injection H; clear H; intros
         | H : Fault_info _ _ _ _ _ _ _ _ _ _ _ _ _ = Fault_info _ _ _ _ _ _ _ _ _ _ _ _ _
           |- _ => injection H; clear H; intros
         end;
  subst; try done; try (repeat split; done).

Lemma pcore_no_da f f' : no_da f = no_da f' → pcore f = pcore f'.
Proof. destruct f, f'. rec_fields. Qed.

Lemma links_no_da fld f f' : no_da f = no_da f' → get_link fld f = get_link fld f'.
Proof. destruct f, f', fld; rec_fields. Qed.

Lemma no_da_frame_new fld f f' : no_da f = no_da f' → frame_new fld f = frame_new fld f'.
Proof. unfold frame_new. by intros ->. Qed.

Lemma pcore_frame_new fld f f' : frame_new fld f = frame_new fld f' → pcore f = pcore f'.
Proof. destruct f, f', fld; rec_fields. Qed.

Lemma next_pcore f f' : pcore f = pcore f' → next f = next f'.
Proof. destruct f, f'. rec_fields. Qed.

Lemma pid_pcore f f' : pcore f = pcore f' → pid f = pid f'.
Proof. destruct f, f'. rec_fields. Qed.


Lemma frame_new_set_link fld f f' :
  set_link fld None f = set_link fld None f' → frame_new fld f = frame_new fld f'.
Proof. destruct f, f', fld; rec_fields. Qed.

Lemma deltas_set_link fld f f' :
  set_link fld None f = set_link fld None f' → deltas f = deltas f'.
Proof. destruct f, f', fld; rec_fields. Qed.

Lemma alive_set_link fld f f' :
  set_link fld None f = set_link fld None f' → alive f = alive f'.
Proof. destruct f, f', fld; rec_fields. Qed.

Lemma pcore_set_link fld f f' :
  set_link fld None f = set_link fld None f' → pcore f = pcore f'.
Proof. destruct f, f', fld; rec_fields. Qed.

Lemma compare_data sb f1 f1' f2 f2' :
  same_data f1 f1' → same_data f2 f2' → compare sb f1 f2 = compare sb f1' f2'.
Proof.
  unfold compare. destruct f1, f1', f2, f2'. rec_fields.
Qed.

Lemma tally_new_data swap f f' t :
  same_data f f' → tally_new swap f t = tally_new swap f' t.
Proof.
  unfold tally_new, add_deltas, add_cumulative, add_swap. destruct f, f'. rec_fields.
Qed.

Lemma sort_key_data sb f f' : same_data f f' → sort_key sb f = sort_key sb f'.
Proof.
  unfold sort_key. destruct f, f'. rec_fields.
Qed.

Lemma json_row_data g f f' : same_data f f' → json_row_of g f = json_row_of g f'.
Proof.
  unfold json_row_of, get_cmdline. destruct f, f'. rec_fields.
Qed.

Lemma compare_sort_key sb f1 f2 :
  0 <= sb < SORT_END → compare sb f1 f2 = (sort_key sb f1 <? sort_key sb f2).
Proof.
  unfold compare, sort_key, SORT_END, SORT_MAJOR_MINOR, SORT_MAJOR, SORT_MINOR,
    SORT_D_MAJOR_MINOR, SORT_D_MAJOR, SORT_D_MINOR, SORT_SWAP.
  intros Hsb.
  repeat (match goal with |- context [?a =? ?b] => destruct (Z.eqb_spec a b) end; [done|]).
  lia.
Qed.

Lemma agree_lookup {B : Type} (proj : fault_info_t → B) h h' a f :
  agree_on proj h h' → h !! a = Some f → ∃ f', h' !! a = Some f' ∧ proj f' = proj f.
Proof.
  intros Hag Ha. specialize (Hag a). rewrite Ha in Hag.
  destruct (h' !! a) as [f'|]; [|done]. injection Hag as Hag. by exists f'.
Qed.

Lemma find_pid_agree h h' p olds :
  agree_on pcore h h' →
  match find_pid h p olds, find_pid h' p olds with
  | Some (o, fo), Some (o', fo') => o = o' ∧ pcore fo = pcore fo'
  | None, None => True
  | _, _ => False
  end.
Proof.
  intros Hag. induction olds as [|o r IH]; simpl; [done|].
  pose proof (Hag o) as Ho.
  destruct (h !! o) as [fo|], (h' !! o) as [fo'|]; simpl in Ho; try done.
  assert (Ho' : pcore fo' = pcore fo) by congruence.
  rewrite (pid_pcore _ _ Ho').
  case_bool_decide; [by split|done].
Qed.

Lemma with_delta_agree h h' olds f f' :
  agree_on pcore h h' → pcore f = pcore f' →
  same_data (with_delta h olds f) (with_delta h' olds f').
Proof.
  intros Hag Hf. unfold with_delta. rewrite (pid_pcore _ _ Hf).
  pose proof (find_pid_agree h h' (pid f') olds Hag) as Hfind.
  destruct (find_pid h (pid f') olds) as [[o fo]|], (find_pid h' (pid f') olds) as [[o' fo']|];
    try done.
  - destruct Hfind as [_ Hfo]. revert Hf Hfo.
    destruct f, f', fo, fo'. rec_fields.
  - revert Hf. destruct f, f'. rec_fields.
Qed.

Lemma matches_agree h h' olds o x :
  agree_on pcore h h' → matches h olds o x = matches h' olds o x.
Proof.
  intros Hag. unfold matches.
  assert (Hp : pid (rec_at h x) = pid (rec_at h' x)).
  { unfold rec_at. pose proof (Hag x) as Hx.
    destruct (h !! x) as [f|], (h' !! x) as [f'|]; simpl in Hx; try done.
    assert (Hx' : pcore f' = pcore f) by congruence.
    symmetry. by apply pid_pcore. }
  rewrite Hp.
  pose proof (find_pid_agree h h' (pid (rec_at h' x)) olds Hag) as Hfind.
  destruct (find_pid h _ olds) as [[o1 fo]|], (find_pid h' _ olds) as [[o' fo']|];
    try done.
  by destruct Hfind as [-> _].
Qed.

(** What [fault_delta] changes in the store. *)
Lemma fault_delta_frame fuel h x fx old_list olds :
  chain next h old_list olds → h !! x = Some fx → (length olds ≤ fuel)%nat →
  ∃ h1 f1, fault_delta fuel x old_list h = Some h1 ∧
    h1 !! x = Some f1 ∧ same_data f1 (with_delta h olds fx) ∧
    agree_on no_da h h1 ∧
    (∀ b, b ≠ x → deltas <$> h1 !! b = deltas <$> h !! b) ∧
    (∀ b, alive <$> h1 !! b = (λ f, alive f || matches h olds b x) <$> h !! b).
Proof.
  intros Hc Hx Hfuel.
  rewrite (fault_delta_find fuel h x fx old_list olds) by done.
  unfold matches, with_delta. rewrite (rec_at_Some _ _ _ Hx).
  destruct (find_pid h (pid fx) olds) as [[o fo]|] eqn:Hfind.
  - assert (Hx1 : ∃ f1,
      alter (set_alive true) o
        (alter (set_d_maj_fault (sub64 (maj_fault fx) (maj_fault fo))) x
          (alter (set_d_min_fault (sub64 (min_fault fx) (min_fault fo))) x h)) !! x
        = Some f1 ∧
      same_data f1 (set_d_maj_fault (sub64 (maj_fault fx) (maj_fault fo))
                      (set_d_min_fault (sub64 (min_fault fx) (min_fault fo)) fx))).
    { destruct (decide (o = x)) as [->|Hox].
      - rewrite !lookup_alter_eq, Hx. simpl. eexists. split; [done|]. by destruct fx.
      - rewrite lookup_alter_ne, !lookup_alter_eq, Hx by done. simpl.
        eexists. split; [done|]. by destruct fx. }
    destruct Hx1 as (f1 & Hf1 & Hd1).
    eexists _, f1. split; [done|]. split; [exact Hf1|]. split; [exact Hd1|].
    split.
    { eapply agree_on_trans; [|apply agree_on_alter; by intros []].
      eapply agree_on_trans; apply agree_on_alter; by intros []. }
    split.
    + intros b Hb. rewrite lookup_alter. case_decide as Hob.
      * subst b. rewrite !lookup_alter_ne by done. by destruct (h !! o) as [[]|].
      * by rewrite !lookup_alter_ne.
    + intros b. rewrite lookup_alter. case_decide as Hob.
      * subst b. rewrite bool_decide_eq_true_2 by done.
        destruct (decide (x = o)) as [->|Hxo].
        -- rewrite !lookup_alter_eq. destruct (h !! o) as [[]|]; simpl; [|done].
           by rewrite orb_true_r.
        -- rewrite !lookup_alter_ne by done. destruct (h !! o) as [[]|]; simpl; [|done].
           by rewrite orb_true_r.
      * rewrite bool_decide_eq_false_2 by done.
        destruct (decide (x = b)) as [->|Hxb].
        -- rewrite !lookup_alter_eq. destruct (h !! b) as [[]|]; simpl; [|done].
           by rewrite orb_false_r.
        -- rewrite !lookup_alter_ne by done. destruct (h !! b) as [[]|]; simpl; [|done].
           by rewrite orb_false_r.
  - eexists _, _. split; [done|].
    split; [by rewrite !lookup_alter_eq, Hx|].
    split; [by destruct fx|].
    split.
    { eapply agree_on_trans; apply agree_on_alter; by intros []. }
    split.
    + intros b Hb. by rewrite !lookup_alter_ne.
    + intros b. destruct (decide (x = b)) as [->|Hxb].
      * rewrite !lookup_alter_eq. destruct (h !! b) as [[]|]; simpl; [|done].
        by rewrite orb_false_r.
      * rewrite !lookup_alter_ne by done. destruct (h !! b) as [[]|]; simpl; [|done].
        by rewrite orb_false_r.
Qed.

Lemma same_data_trans f1 f2 f3 : same_data f1 f2 → same_data f2 f3 → same_data f1 f3.
Proof. unfold same_data. intros [-> ->] [-> ->]. done. Qed.

Lemma same_data_sym f1 f2 : same_data f1 f2 → same_data f2 f1.
Proof. unfold same_data. intros [-> ->]. done. Qed.

Lemma same_data_set_link fld f f' :
  set_link fld None f = set_link fld None f' → same_data f f'.
Proof.
  intros H. split; [by eapply pcore_set_link|by eapply deltas_set_link].
Qed.

Lemma alive_orb_false (o : option fault_info_t) :
  (λ f, alive f || false) <$> o = alive <$> o.
Proof. destruct o; simpl; [|done]. by rewrite orb_false_r. Qed.

Lemma filter_all {A : Type} (P : A → Prop) `{∀ x, Decision (P x)} (l : list A) :
  (∀ x, x ∈ l → P x) → filter P l = l.
Proof.
  induction l as [|x l IH]; intros Hl; [done|].
  rewrite filter_cons_True by (apply Hl, elem_of_cons; by left).
  f_equal. apply IH. intros y Hy. apply Hl, elem_of_cons. by right.
Qed.

Lemma kept_data diff f f' : same_data f f' → kept diff f = kept diff f'.
Proof. unfold kept. destruct f, f'. rec_fields. Qed.

Section scan_new_loop.
Variables (diff : bool) (sb : Z) (fld : link) (swap : bool).
Variables (old_list : ptr) (olds : list addr) (h0 : heap).
Hypothesis Holds : chain next h0 old_list olds.

Lemma scan_new_spec_kept R :
  ∀ k fuel h sorted t cur acc,
    chain next h cur R →
    chain (get_link fld) h sorted acc →
    agree_on (frame_new fld) h0 h →
    (∀ a, a ∈ R → get_link fld <$> h !! a = Some None) →
    NoDup R → (∀ a, a ∈ R → a ∉ acc) →
    (∀ c, c ∈ acc → ∃ f, h !! c = Some f ∧ same_data f (new_record h0 olds c)) →
    (length R ≤ k)%nat → (length olds ≤ fuel)%nat → (length acc + length R < fuel)%nat →
    ∃ h' sorted' t',
      scan_new k fuel sb fld diff swap old_list cur (h, sorted, t)
        = Some (h', sorted', t') ∧
      chain (get_link fld) h' sorted'
        (insert_all (dump_lt sb h0 olds)
           (filter (λ a, kept diff (new_record h0 olds a) = true) R) acc) ∧
      agree_on (frame_new fld) h0 h' ∧
      (∀ c, c ∈ acc ++ filter (λ a, kept diff (new_record h0 olds a) = true) R →
         ∃ f, h' !! c = Some f ∧ same_data f (new_record h0 olds c)) ∧
      t' = fold_left (λ t a, tally_new swap (new_record h0 olds a) t)
             (filter (λ a, kept diff (new_record h0 olds a) = true) R) t ∧
      (∀ b, alive <$> h' !! b =
            (λ f, alive f || existsb (matches h0 olds b) R) <$> h !! b) ∧
      (∀ b, b ∉ acc ++ filter (λ a, kept diff (new_record h0 olds a) = true) R →
         get_link fld <$> h' !! b = get_link fld <$> h !! b).
Proof.
  induction R as [|x R' IH];
    intros k fuel h sorted t cur acc Hnew Hsorted Hframe Hlinks Hnd Hdisj Hacc Hk Hfo Hfuel.
  - inversion Hnew; subst. destruct k; simpl.
    all: eexists _, _, _; split; [done|]; split; [done|]; split; [done|].
    all: split; [by rewrite app_nil_r|]; split; [done|].
    all: split; [intros b; by rewrite alive_orb_false|done].
  - inversion Hnew as [|x' fx R'' Hx Htl]; subst.
    destruct k as [|k]; [simpl in Hk; lia|].
    assert (Hpc : agree_on pcore h0 h).
    { eapply agree_on_weaken; [|exact Hframe]. apply pcore_frame_new. }
    assert (Hnx : agree_on next h0 h).
    { eapply agree_on_weaken; [|exact Hpc]. apply next_pcore. }
    assert (Hold : chain next h old_list olds).
    { eapply chain_agree; [exact Holds|]. intros a _. apply Hnx. }
    destruct (fault_delta_frame fuel h x fx old_list olds Hold Hx Hfo)
      as (h1 & f1 & Hfd & Hf1 & Hsd1 & Hno & Hdl & Hal).
    assert (Hlk1 : agree_on (get_link fld) h h1).
    { eapply agree_on_weaken; [|exact Hno]. apply links_no_da. }
    assert (Hpc1 : agree_on pcore h h1).
    { eapply agree_on_weaken; [|exact Hno]. apply pcore_no_da. }
    (* the record at x on entry and its final data *)
    destruct (agree_lookup pcore h h0 x fx (agree_on_sym _ _ _ Hpc) Hx)
      as (fx0 & Hx0 & Hpx0).
    assert (Hfin1 : same_data f1 (new_record h0 olds x)).
    { eapply same_data_trans; [exact Hsd1|].
      unfold new_record. rewrite (rec_at_Some _ _ _ Hx0).
      apply with_delta_agree; [by apply agree_on_sym|done]. }
    assert (Hacc1 : ∀ c, c ∈ acc →
              ∃ f, h1 !! c = Some f ∧ same_data f (new_record h0 olds c)).
    { intros c Hc. destruct (Hacc c Hc) as (f & Hf & Hsd).
      destruct (agree_lookup pcore h h1 c f Hpc1 Hf) as (f' & Hf' & Hp').
      exists f'. split; [done|].
      eapply same_data_trans; [|exact Hsd]. split; [done|].
      assert (Hcx : c ≠ x).
      { intros ->. eapply Hdisj; [|exact Hc]. apply elem_of_cons. by left. }
      pose proof (Hdl c Hcx) as Hd. rewrite Hf, Hf' in Hd. simpl in Hd. congruence. }
    assert (Hs1 : chain (get_link fld) h1 sorted acc).
    { eapply chain_agree; [exact Hsorted|]. intros a _. apply Hlk1. }
    assert (Hnext1 : next f1 = next fx).
    { apply next_pcore. pose proof (Hpc1 x) as Hp. rewrite Hx, Hf1 in Hp.
      simpl in Hp. congruence. }
    assert (Hnd' : (x ∉ R') ∧ NoDup R') by (by apply NoDup_cons).
    destruct Hnd' as [HxR HndR].
    assert (Hcond : diff && (add64 (d_min_fault f1) (d_maj_fault f1) =? 0)
                    = negb (kept diff (new_record h0 olds x))).
    { rewrite <- (kept_data diff _ _ Hfin1). unfold kept. by rewrite negb_involutive. }
    assert (Halive1 : ∀ (h' hm : heap) (l : list addr) b,
              alive <$> h' !! b = (λ f, alive f || existsb (matches h0 olds b) l) <$> hm !! b →
              alive <$> hm !! b = alive <$> h1 !! b →
              alive <$> h' !! b
              = (λ f, alive f || existsb (matches h0 olds b) (x :: l)) <$> h !! b).
    { intros h' hm l b Hal' Halm.
      pose proof (Hal b) as Hal1.
      rewrite (matches_agree h h0 olds b x (agree_on_sym _ _ _ Hpc)) in Hal1.
      rewrite Hal'.
      destruct (hm !! b) as [fbm|], (h1 !! b) as [fb1|], (h !! b) as [fb|];
        simpl in *; try done.
      injection Halm as Halm. injection Hal1 as Hal1.
      rewrite Halm, Hal1. by rewrite orb_assoc. }
    destruct (kept diff (new_record h0 olds x)) eqn:Hkept; simpl in Hcond.
    + (* the record is inserted *)
      rewrite filter_cons_True by done.
      assert (Hl1 : get_link fld f1 = None).
      { pose proof (Hlk1 x) as Hl. rewrite Hx, Hf1 in Hl. simpl in Hl.
        assert (Hl' : get_link fld <$> h !! x = Some None).
        { apply Hlinks. apply elem_of_cons. by left. }
        rewrite Hx in Hl'. simpl in Hl'. congruence. }
      assert (Hxacc : x ∉ acc).
      { apply Hdisj. apply elem_of_cons. by left. }
      destruct (sorted_insert_root sb fld acc fuel h1 sorted x f1 Hs1 Hf1 Hl1 Hxacc)
        as (h2 & sorted2 & Hins & Hch2 & Hag2 & Hfr2); [lia|].
      rewrite (insert_before_ext _ (λ c, dump_lt sb h0 olds c x)) in Hch2.
      2:{ intros c Hc. destruct (Hacc1 c Hc) as (f & Hf & Hsd).
          rewrite (rec_at_Some _ _ _ Hf). unfold dump_lt. by apply compare_data. }
      destruct (agree_lookup (set_link fld None) h1 h2 x f1 Hag2 Hf1) as (f2 & Hf2 & Hp2).
      assert (Hsd2 : same_data f2 (new_record h0 olds x)).
      { eapply same_data_trans; [|exact Hfin1]. by eapply same_data_set_link. }
      assert (Hnext2 : next f2 = next fx).
      { rewrite <- Hnext1. apply next_pcore. by eapply pcore_set_link. }
      assert (Hpc2 : agree_on pcore h1 h2).
      { eapply agree_on_weaken; [|exact Hag2]. apply pcore_set_link. }
      destruct (IH k fuel h2 sorted2 (tally_new swap f2 t) (next f2)
                  (insert_before (λ c, dump_lt sb h0 olds c x) x acc))
        as (h' & sorted' & t' & Hscan & Hch' & Hframe' & Hfin' & Ht' & Hal' & Hlk').
      * rewrite Hnext2. eapply chain_agree; [exact Htl|].
        intros a _. eapply (agree_on_weaken pcore next); [apply next_pcore|].
        eapply agree_on_trans; [exact Hpc1|exact Hpc2].
      * exact Hch2.
      * eapply agree_on_trans; [exact Hframe|].
        eapply agree_on_trans.
        -- eapply agree_on_weaken; [|exact Hno]. apply no_da_frame_new.
        -- eapply agree_on_weaken; [|exact Hag2]. apply frame_new_set_link.
      * intros a Ha. rewrite Hfr2.
        -- rewrite Hlk1. apply Hlinks. apply elem_of_cons. by right.
        -- apply not_elem_of_cons. split; [intros ->; done|].
           apply Hdisj. apply elem_of_cons. by right.
      * exact HndR.
      * intros a Ha. rewrite insert_before_perm.
        apply not_elem_of_cons. split; [intros ->; done|].
        apply Hdisj. apply elem_of_cons. by right.
      * intros c Hc. rewrite insert_before_perm in Hc.
        apply elem_of_cons in Hc as [->|Hc]; [by exists f2|].
        destruct (Hacc1 c Hc) as (f & Hf & Hsd).
        destruct (agree_lookup (set_link fld None) h1 h2 c f Hag2 Hf) as (f' & Hf' & Hp').
        exists f'. split; [done|].
        eapply same_data_trans; [|exact Hsd]. by eapply same_data_set_link.
      * simpl in Hk. lia.
      * exact Hfo.
      * pose proof (Permutation_length
                      (insert_before_perm (λ c, dump_lt sb h0 olds c x) x acc)) as Hlen.
        simpl in Hlen, Hfuel. lia.
      * exists h', sorted', t'.
        split.
        { simpl. rewrite Hfd. simpl. rewrite Hf1. simpl. rewrite Hcond.
          rewrite Hins. simpl. rewrite Hf2. simpl. exact Hscan. }
        split; [exact Hch'|]. split; [exact Hframe'|].
        split.
        { intros c Hc. apply Hfin'. apply elem_of_app.
          apply elem_of_app in Hc as [Hc|Hc].
          - left. rewrite insert_before_perm. apply elem_of_cons. by right.
          - apply elem_of_cons in Hc as [->|Hc]; [|by right].
            left. rewrite insert_before_perm. apply elem_of_cons. by left. }
        split.
        { rewrite Ht'. simpl. f_equal. by apply tally_new_data. }
        split.
        { intros b. apply (Halive1 h' h2 R' b (Hal' b)).
          eapply (agree_on_weaken (set_link fld None) alive); [|exact Hag2].
          apply alive_set_link. }
        intros b Hb.
        assert (Hb' : b ∉ x :: acc).
        { intros Hin. apply Hb. apply elem_of_app.
          apply elem_of_cons in Hin as [->|Hin]; [right; apply elem_of_cons; by left|by left]. }
        rewrite Hlk'.
        -- rewrite Hfr2 by done. apply Hlk1.
        -- intros Hin. apply elem_of_app in Hin as [Hin|Hin].
           ++ rewrite insert_before_perm in Hin. done.
           ++ apply Hb. apply elem_of_app. right. apply elem_of_cons. by right.
    + (* the record is passed over *)
      rewrite filter_cons_False by (by rewrite Hkept).
      destruct (IH k fuel h1 sorted t (next f1) acc)
        as (h' & sorted' & t' & Hscan & Hch' & Hframe' & Hfin' & Ht' & Hal' & Hlk').
      * rewrite Hnext1. eapply chain_agree; [exact Htl|].
        intros a _. eapply (agree_on_weaken pcore next); [apply next_pcore|exact Hpc1].
      * exact Hs1.
      * eapply agree_on_trans; [exact Hframe|].
        eapply agree_on_weaken; [|exact Hno]. apply no_da_frame_new.
      * intros a Ha. rewrite Hlk1. apply Hlinks. apply elem_of_cons. by right.
      * exact HndR.
      * intros a Ha. apply Hdisj. apply elem_of_cons. by right.
      * exact Hacc1.
      * simpl in Hk. lia.
      * exact Hfo.
      * simpl in Hfuel. lia.
      * exists h', sorted', t'.
        split.
        { simpl. rewrite Hfd. simpl. rewrite Hf1. simpl. rewrite Hcond. exact Hscan. }
        split; [exact Hch'|]. split; [exact Hframe'|].
        split; [exact Hfin'|]. split; [exact Ht'|].
        split; [intros b; by apply (Halive1 h' h1 R' b (Hal' b))|].
        intros b Hb. rewrite Hlk' by exact Hb. apply Hlk1.
Qed.

End scan_new_loop.

(** The loop of [fault_dump] and [fault_dump_json] passes over no record. *)
Lemma scan_new_spec sb fld swap old_list olds h0 (Holds : chain next h0 old_list olds) R :
  ∀ k fuel h sorted t cur acc,
    chain next h cur R →
    chain (get_link fld) h sorted acc →
    agree_on (frame_new fld) h0 h →
    (∀ a, a ∈ R → get_link fld <$> h !! a = Some None) →
    NoDup R → (∀ a, a ∈ R → a ∉ acc) →
    (∀ c, c ∈ acc → ∃ f, h !! c = Some f ∧ same_data f (new_record h0 olds c)) →
    (length R ≤ k)%nat → (length olds ≤ fuel)%nat → (length acc + length R < fuel)%nat →
    ∃ h' sorted' t',
      scan_new k fuel sb fld false swap old_list cur (h, sorted, t)
        = Some (h', sorted', t') ∧
      chain (get_link fld) h' sorted' (insert_all (dump_lt sb h0 olds) R acc) ∧
      agree_on (frame_new fld) h0 h' ∧
      (∀ c, c ∈ acc ++ R → ∃ f, h' !! c = Some f ∧ same_data f (new_record h0 olds c)) ∧
      t' = fold_left (λ t a, tally_new swap (new_record h0 olds a) t) R t ∧
      (∀ b, alive <$> h' !! b =
            (λ f, alive f || existsb (matches h0 olds b) R) <$> h !! b).
Proof.
  intros k fuel h sorted t cur acc H1 H2 H3 H4 H5 H6 H7 H8 H9 H10.
  pose proof (scan_new_spec_kept false sb fld swap old_list olds h0 Holds R
                k fuel h sorted t cur acc H1 H2 H3 H4 H5 H6 H7 H8 H9 H10) as Hspec.
  rewrite (filter_all (λ a, kept false (new_record h0 olds a) = true) R) in Hspec by done.
  destruct Hspec as (h' & sorted' & t' & Hscan & Hch & Hframe & Hfin & Ht & Hal & _).
  by exists h', sorted', t'.
Qed.

(** ** The printing loop *)

Lemma print_chain_spec {A : Type} (row : fault_info_t → A) fld h p l :
  chain (get_link fld) h p l →
  ∀ k, (length l ≤ k)%nat →
    print_chain k fld false row p h = Some (map (λ a, row (rec_at h a)) l, h).
Proof.
  induction 1 as [|a f l Ha Hc IH]; intros k Hk.
  - by destruct k.
  - destruct k as [|k]; [simpl in Hk; lia|].
    simpl. rewrite Ha. simpl. rewrite IH by (simpl in Hk; lia). simpl.
    by rewrite (rec_at_Some _ _ _ Ha).
Qed.


(** Printing with the links reset, as [fault_dump_diff] does: the lines are
    those of the records of the chain, whose links are [NULL] afterwards. *)
Lemma print_chain_clear_spec {A : Type} (row : fault_info_t → A) fld l :
  ∀ h p k, chain (get_link fld) h p l → (length l ≤ k)%nat →
    ∃ h', print_chain k fld true row p h = Some (map (λ a, row (rec_at h a)) l, h') ∧
      (∀ a, a ∈ l → h' !! a = set_link fld None <$> h !! a) ∧
      (∀ a, a ∉ l → h' !! a = h !! a).
Proof.
  induction l as [|a l IH]; intros h p k Hc Hk.
  - inversion Hc; subst. exists h. split; [by destruct k|].
    split; [|done]. intros a Ha. by apply elem_of_nil in Ha.
  - pose proof (chain_NoDup _ _ _ _ Hc) as Hnd.
    apply NoDup_cons in Hnd as [Hal Hnd].
    inversion Hc as [|a' f l' Ha Htl]; subst.
    destruct k as [|k]; [simpl in Hk; lia|].
    assert (Hoth : ∀ b, b ∈ l → alter (set_link fld None) a h !! b = h !! b).
    { intros b Hb. rewrite lookup_alter_ne; [done|]. by intros ->. }
    destruct (IH (alter (set_link fld None) a h) (get_link fld f) k) as (h' & Hrun & Hin & Hout).
    + by eapply chain_ext.
    + simpl in Hk. lia.
    + exists h'. split.
      * simpl. rewrite Ha. simpl. rewrite Hrun. simpl.
        rewrite (rec_at_Some _ _ _ Ha).
        assert (Hmap : map (λ b, row (rec_at (alter (set_link fld None) a h) b)) l
                       = map (λ b, row (rec_at h b)) l).
        { apply map_ext_in. intros b Hb. apply list_elem_of_In in Hb.
          unfold rec_at. by rewrite Hoth. }
        by rewrite Hmap.
      * split.
        -- intros b Hb. apply elem_of_cons in Hb as [->|Hb].
           ++ rewrite Hout by done. by rewrite lookup_alter_eq.
           ++ rewrite Hin by done. by rewrite Hoth.
        -- intros b Hb. apply not_elem_of_cons in Hb as [Hba Hbl].
           rewrite Hout by done. by rewrite lookup_alter_ne.
Qed.

(** ** The JSON dump *)

(** C4, as the code has it: the JSON dump returns, prints exactly one object
    for each record of the new list, in the order of the insertions, each
    with the deltas of the record against the previous list, and no other
    object; its totals are the sums over the records of the new list only, so
    that a process that has died adds nothing to them. *)
Theorem fault_dump_json_rows (fuel : nat) (g : globals) (now : Z) (h : heap)
    (old_list new_list : ptr) (olds news : list addr) :
  chain next h old_list olds →
  chain next h new_list news →
  (∀ a, a ∈ news → s_next <$> h !! a = Some None) →
  (length news + length olds < fuel)%nat →
  ∃ out h' order,
    fault_dump_json fuel g now old_list new_list h = Some (out, h') ∧
    order = insert_all (dump_lt (sort_by g) h olds) news [] ∧
    order ≡ₚ news ∧
    processes out = map (λ a, json_row_of g (new_record h olds a)) order ∧
    json_totals out =
      fold_left (λ t a, tally_new true (new_record h olds a) t) news totals0 ∧
    timestamp out = now.
Proof.
  intros Holds Hnews Hfresh Hfuel.
  destruct (scan_new_spec (sort_by g) S_NEXT true old_list olds h Holds news
              fuel fuel h None totals0 new_list [])
    as (h1 & sorted & t & Hscan & Hch & _ & Hfin & Ht & _).
  - exact Hnews.
  - constructor.
  - apply agree_on_refl.
  - exact Hfresh.
  - by eapply chain_NoDup.
  - intros a _ Ha. by apply elem_of_nil in Ha.
  - intros c Hc. by apply elem_of_nil in Hc.
  - lia.
  - lia.
  - simpl. lia.
  - set (order := insert_all (dump_lt (sort_by g) h olds) news []) in *.
    assert (Hperm : order ≡ₚ news) by apply insert_all_perm.
    eexists _, _, order. split.
    { unfold fault_dump_json. rewrite Hscan. simpl.
      rewrite (print_chain_spec (json_row_of g) S_NEXT h1 sorted order Hch)
        by (rewrite Hperm; lia).
      simpl. reflexivity. }
    split; [done|]. split; [exact Hperm|].
    simpl. split; [|by split].
    apply map_ext_in. intros a Ha.
    destruct (Hfin a) as (f & Hf & Hsd).
    { simpl. rewrite <- Hperm. by apply list_elem_of_In. }
    rewrite (rec_at_Some _ _ _ Hf). by apply json_row_data.
Qed.

Lemma fault_dump_json_rows_witness :
  chain next tick_store (Some 1%positive) [1%positive] ∧
  chain next tick_store (Some 2%positive) [2%positive; 3%positive] ∧
  ∃ out h',
    fault_dump_json 4 plain_globals 0 (Some 1%positive) (Some 2%positive) tick_store
      = Some (out, h') ∧
    length (processes out) = 2%nat ∧
    json_totals out = Totals 23 9 3 4 0.
Proof.
  assert (H1 : chain next tick_store (Some 1%positive) [1%positive]).
  { econstructor; [reflexivity|]. constructor. }
  assert (H2 : chain next tick_store (Some 2%positive) [2%positive; 3%positive]).
  { econstructor; [reflexivity|]. econstructor; [reflexivity|]. constructor. }
  split; [exact H1|]. split; [exact H2|].
  destruct (fault_dump_json_rows 4 plain_globals 0 tick_store (Some 1%positive)
              (Some 2%positive) [1%positive] [2%positive; 3%positive] H1 H2)
    as (out & h' & order & Hrun & _ & Hperm & Hrows & Htot & _).
  - intros a Ha.
    apply elem_of_cons in Ha as [->|Ha]; [reflexivity|].
    apply elem_of_cons in Ha as [->|Ha]; [reflexivity|].
    by apply elem_of_nil in Ha.
  - simpl. lia.
  - exists out, h'. split; [exact Hrun|]. split.
    + rewrite Hrows, length_map. by rewrite Hperm.
    + rewrite Htot. vm_compute. reflexivity.
Defined.

(** The claim of C4 fails on the code: when pid 10 has exited and no process
    is sampled, the totals of the JSON dump are all 0, while the totals of
    the deltas of the full dump are -5 and -20. *)
Lemma fault_dump_json_died_counterexample :
  (fst <$> fault_dump_json 2 plain_globals 0 (Some 1%positive) None exit_store)
    = Some (Json_dump [] (Totals 0 0 0 0 0) 0) ∧
  (fst <$> fault_dump_json 2 plain_globals 0 None None exit_store)
    = Some (Json_dump [] (Totals 0 0 0 0 0) 0) ∧
  (snd <$> fault_dump_scan 2 SORT_MAJOR_MINOR (Some 1%positive) None exit_store)
    = Some (Totals 20 5 (-20) (-5) 0).
Proof. split; [|split]; vm_compute; reflexivity. Qed.

(** ** The order of the rows *)

Lemma key_at_Some sb h a f : h !! a = Some f → key_at sb h a = sort_key sb f.
Proof. unfold key_at. by intros ->. Qed.

(** C5: for each of the seven sort keys, the first loop of [fault_dump] and
    of [fault_dump_json] returns and leaves in the chain [sorted] the records
    of the sample list, each once, in descending order of the key, the
    records of equal key in the order in which the loop meets them in the
    sample list; the order is that of the insertion sort of the list by the
    key, so that it is fixed by the list and the keys, and sorting the rows
    again gives the same rows. *)
Theorem sorted_chain_descending_stable (fuel : nat) (sb : Z) (swap : bool) (h : heap)
    (old_list new_list : ptr) (olds news : list addr) :
  0 <= sb < SORT_END →
  chain next h old_list olds →
  chain next h new_list news →
  (∀ a, a ∈ news → s_next <$> h !! a = Some None) →
  (length news + length olds < fuel)%nat →
  ∃ h' sorted t order,
    scan_new fuel fuel sb S_NEXT false swap old_list new_list (h, None, totals0)
      = Some (h', sorted, t) ∧
    chain s_next h' sorted order ∧
    order = sort_desc (key_at sb h') news ∧
    order ≡ₚ news ∧
    StronglySorted (desc (key_at sb h')) order ∧
    (∀ k, filter (λ a, key_at sb h' a = k) order = filter (λ a, key_at sb h' a = k) news) ∧
    sort_desc (key_at sb h') order = order.
Proof.
  intros Hsb Holds Hnews Hfresh Hfuel.
  destruct (scan_new_spec sb S_NEXT swap old_list olds h Holds news
              fuel fuel h None totals0 new_list [])
    as (h1 & sorted & t & Hscan & Hch & _ & Hfin & _ & _).
  - exact Hnews.
  - constructor.
  - apply agree_on_refl.
  - exact Hfresh.
  - by eapply chain_NoDup.
  - intros a _ Ha. by apply elem_of_nil in Ha.
  - intros c Hc. by apply elem_of_nil in Hc.
  - lia.
  - lia.
  - simpl. lia.
  - assert (Hkey : ∀ c, c ∈ news →
              key_at sb h1 c = sort_key sb (new_record h olds c)).
    { intros c Hc. destruct (Hfin c Hc) as (f & Hf & Hsd).
      rewrite (key_at_Some _ _ _ _ Hf). by apply sort_key_data. }
    assert (Horder : insert_all (dump_lt sb h olds) news []
                     = sort_desc (key_at sb h1) news).
    { unfold sort_desc. apply insert_all_ext. intros c x Hc Hx.
      unfold dump_lt. rewrite compare_sort_key by done.
      by rewrite !Hkey. }
    rewrite Horder in Hch.
    exists h1, sorted, t, (sort_desc (key_at sb h1) news).
    split; [exact Hscan|]. split; [exact Hch|]. split; [done|].
    split; [apply insert_all_perm|].
    assert (Hsorted : StronglySorted (desc (key_at sb h1)) (sort_desc (key_at sb h1) news)).
    { apply sort_from_sorted. constructor. }
    split; [exact Hsorted|].
    split.
    + intros k. unfold sort_desc. rewrite sort_from_stable by constructor. done.
    + unfold sort_desc at 1. by apply sort_from_sorted_input.
Qed.

(** Three records of equal key 5 and one of key 9: the record of key 9 comes
    first and the others keep the order of the list. *)
Lemma sorted_chain_descending_stable_witness :
  0 <= SORT_MAJOR < SORT_END ∧
  ∃ h' sorted t,
    scan_new 5 5 SORT_MAJOR S_NEXT false false None (Some 1%positive)
      (list_to_map [(1%positive, sample 21 0 5 (Some 2%positive));
                    (2%positive, sample 22 0 9 (Some 3%positive));
                    (3%positive, sample 23 0 5 (Some 4%positive));
                    (4%positive, sample 24 0 5 None)], None, totals0)
      = Some (h', sorted, t) ∧
    chain s_next h' sorted [2%positive; 1%positive; 3%positive; 4%positive].
Proof.
  split; [done|].
  set (h := list_to_map [(1%positive, sample 21 0 5 (Some 2%positive));
                         (2%positive, sample 22 0 9 (Some 3%positive));
                         (3%positive, sample 23 0 5 (Some 4%positive));
                         (4%positive, sample 24 0 5 None)] : heap).
  destruct (sorted_chain_descending_stable 5 SORT_MAJOR false h None (Some 1%positive) []
              [1%positive; 2%positive; 3%positive; 4%positive])
    as (h' & sorted & t & order & Hscan & Hch & Horder & _).
  - done.
  - constructor.
  - repeat (econstructor; [reflexivity|]). constructor.
  - intros a Ha. repeat (apply elem_of_cons in Ha as [->|Ha]; [reflexivity|]).
    by apply elem_of_nil in Ha.
  - simpl. lia.
  - exists h', sorted, t. split; [exact Hscan|].
    subst order. pose proof Hscan as Hrun. vm_compute in Hrun.
    injection Hrun as <- <- <-.
    vm_compute in Hch. exact Hch.
Defined.

(** ** The loop over the previous list *)



Lemma tally_died_step (diff : bool) (f f1 : fault_info_t) (t : totals) :
  set_d_next None f1 = set_d_next None f →
  add_deltas
    (set_d_maj_fault (neg64 (maj_fault (set_d_min_fault (neg64 (min_fault f1)) f1)))
       (set_d_min_fault (neg64 (min_fault f1)) f1))
    (if diff then sub_cumulative f1 t else add_cumulative f1 t)
  = tally_died diff f t.
Proof.
  destruct f, f1.
  cbv [set_d_next set_d_maj_fault set_d_min_fault add_deltas tally_died sub_cumulative
       add_cumulative pid uid proc uname min_fault maj_fault vm_swap d_min_fault
       d_maj_fault d_next s_next next alive t_min_fault t_maj_fault t_d_min_fault
       t_d_maj_fault t_vm_swap].
  intros H. injection H; clear H; intros; subst. by destruct diff.
Qed.

Section scan_died_loop.
Variables (sb : Z) (diff : bool) (href : heap).

Lemma scan_died_spec R :
  ∀ k fuel h sorted t cur Ld,
    chain next h cur R →
    chain (get_link D_NEXT) h sorted Ld →
    (∀ a, a ∈ R → h !! a = href !! a) →
    (∀ a, a ∈ R → d_next <$> href !! a = Some None) →
    NoDup R → (∀ a, a ∈ R → a ∉ Ld) →
    (length R ≤ k)%nat → (length Ld + length R < fuel)%nat →
    ∃ h' sorted' t',
      scan_died k fuel sb diff cur (h, sorted, t) = Some (h', sorted', t') ∧
      t' = fold_left (λ t a, tally_died diff (rec_at href a) t)
             (filter (λ a, alive (rec_at href a) = false) R) t ∧
      (∀ a, a ∈ R → alive (rec_at href a) = false →
         ∃ f', h' !! a = Some f' ∧ set_d_next None f' = died_record (rec_at href a)) ∧
      (∀ b, b ∉ R → set_d_next None <$> h' !! b = set_d_next None <$> h !! b) ∧
      (∃ Ld', chain (get_link D_NEXT) h' sorted' Ld' ∧
         Ld' ≡ₚ Ld ++ filter (λ a, alive (rec_at href a) = false) R ∧
         (∀ b, b ∉ Ld' → h' !! b = h !! b)).
Proof.
  induction R as [|a R' IH];
    intros k fuel h sorted t cur Ld Hold Hsorted Href Hlinks Hnd Hdisj Hk Hfuel.
  - inversion Hold; subst. destruct k; simpl.
    all: eexists _, _, _; split; [done|]; split; [done|]; split;
      [intros a Ha; by apply elem_of_nil in Ha|].
    all: split; [done|]; exists Ld; split; [done|]; split; [by rewrite app_nil_r|done].
  - inversion Hold as [|a' f R'' Ha Htl]; subst.
    destruct k as [|k]; [simpl in Hk; lia|].
    assert (Hra : rec_at href a = f).
    { apply rec_at_Some. rewrite <- Href; [done|]. apply elem_of_cons. by left. }
    apply NoDup_cons in Hnd as [HaR HndR].
    destruct (alive f) eqn:Halive.
    + destruct (IH k fuel h sorted t (next f) Ld)
        as (h' & sorted' & t' & Hrun & Ht & Hrec & Hfr & Ld' & Hch' & Hperm & Hout).
      * exact Htl.
      * exact Hsorted.
      * intros b Hb. apply Href. apply elem_of_cons. by right.
      * intros b Hb. apply Hlinks. apply elem_of_cons. by right.
      * exact HndR.
      * intros b Hb. apply Hdisj. apply elem_of_cons. by right.
      * simpl in Hk. lia.
      * simpl in Hfuel. lia.
      * exists h', sorted', t'. split.
        { simpl. rewrite Ha. simpl. rewrite Halive. exact Hrun. }
        split.
        { rewrite filter_cons_False; [done|]. rewrite Hra, Halive. done. }
        split.
        { intros b Hb Hal. apply elem_of_cons in Hb as [->|Hb]; [|by apply Hrec].
          rewrite Hra, Halive in Hal. done. }
        split.
        { intros b Hb. apply Hfr. apply not_elem_of_cons in Hb. tauto. }
        exists Ld'. split; [done|]. split; [|done].
        rewrite filter_cons_False; [done|]. rewrite Hra, Halive. done.
    + assert (Hl0 : get_link D_NEXT f = None).
      { assert (Hl : d_next <$> href !! a = Some None).
        { apply Hlinks. apply elem_of_cons. by left. }
        rewrite <- Href in Hl by (apply elem_of_cons; by left).
        rewrite Ha in Hl. simpl in Hl. simpl. congruence. }
      assert (HaLd : a ∉ Ld) by (apply Hdisj, elem_of_cons; by left).
      destruct (sorted_insert_root sb D_NEXT Ld fuel h sorted a f Hsorted Ha Hl0 HaLd)
        as (h1 & sorted1 & Hins & Hch1 & Hag1 & Hfr1); [lia|].
      destruct (agree_lookup (set_link D_NEXT None) h h1 a f Hag1 Ha) as (f1 & Hf1 & Hp1).
      set (f2 := set_d_min_fault (neg64 (min_fault f1)) f1).
      set (f3 := set_d_maj_fault (neg64 (maj_fault f2)) f2).
      set (f4 := set_maj_fault 0 (set_min_fault 0 f3)).
      set (h4 := alter (set_maj_fault 0) a
                   (alter (set_min_fault 0) a
                      (alter (set_d_maj_fault (neg64 (maj_fault f2))) a
                         (alter (set_d_min_fault (neg64 (min_fault f1))) a h1)))).
      assert (Hh4a : h4 !! a = Some f4).
      { unfold h4. rewrite !lookup_alter_eq, Hf1. done. }
      assert (Hh4 : ∀ b, b ≠ a → h4 !! b = h1 !! b).
      { intros b Hb. unfold h4. by rewrite !lookup_alter_ne. }
      assert (Hnext4 : next f4 = next f).
      { transitivity (next f1); [by destruct f1|].
        revert Hp1. destruct f, f1. rec_fields. }
      assert (Hkeep : ∀ b, b ∈ R' → h4 !! b = h !! b).
      { intros b Hb. rewrite Hh4 by (intros ->; done).
        apply Hfr1. apply not_elem_of_cons. split; [intros ->; done|].
        apply Hdisj. apply elem_of_cons. by right. }
      destruct (IH k fuel h4 sorted1
                  (add_deltas f3 (if diff then sub_cumulative f1 t else add_cumulative f1 t))
                  (next f4)
                  (insert_before (λ c, compare sb (rec_at h c) f) a Ld))
        as (h' & sorted' & t' & Hrun & Ht & Hrec & Hfr & Ld' & Hch' & Hperm & Hout).
      * rewrite Hnext4. eapply chain_ext; [exact Htl|exact Hkeep].
      * eapply chain_agree; [exact Hch1|]. intros b _.
        destruct (decide (b = a)) as [->|Hba]; [|by rewrite Hh4].
        rewrite Hh4a, Hf1. unfold f4, f3, f2. by destruct f1.
      * intros b Hb. rewrite Hkeep by done. apply Href. apply elem_of_cons. by right.
      * intros b Hb. apply Hlinks. apply elem_of_cons. by right.
      * exact HndR.
      * intros b Hb. rewrite insert_before_perm.
        apply not_elem_of_cons. split; [intros ->; done|].
        apply Hdisj. apply elem_of_cons. by right.
      * simpl in Hk. lia.
      * pose proof (Permutation_length
                      (insert_before_perm (λ c, compare sb (rec_at h c) f) a Ld)) as Hlen.
        simpl in Hlen, Hfuel. lia.
      * exists h', sorted', t'. split.
        { simpl. rewrite Ha. simpl. rewrite Halive. rewrite Hins. simpl.
          do 5 (rewrite ?lookup_alter_eq, ?Hf1; simpl). exact Hrun. }
        split.
        { rewrite filter_cons_True by (by rewrite Hra). simpl.
          rewrite Ht. f_equal. rewrite Hra. unfold f3, f2. by apply tally_died_step. }
        split.
        { intros b Hb Hal. apply elem_of_cons in Hb as [->|Hb]; [|by apply Hrec].
          pose proof (Hfr a HaR) as Hfa. rewrite Hh4a in Hfa.
          destruct (h' !! a) as [f'|]; [|done]. simpl in Hfa.
          exists f'. split; [done|]. rewrite Hra.
          assert (Hfa' : set_d_next None f' = set_d_next None f4) by congruence.
          clear - Hfa' Hp1 Hl0. revert Hfa' Hp1 Hl0. unfold f4, f3, f2, died_record.
          destruct f, f1, f'. rec_fields. }
        split.
        { intros b Hb. apply not_elem_of_cons in Hb as [Hba HbR].
          rewrite Hfr by done. rewrite Hh4 by done. apply Hag1. }
        exists Ld'. split; [done|]. split.
        { rewrite Hperm, insert_before_perm, filter_cons_True by (by rewrite Hra).
          simpl. apply Permutation_middle. }
        intros b Hb.
        assert (Hba : b ∉ a :: Ld).
        { intros Hin. apply Hb. rewrite Hperm, insert_before_perm.
          apply elem_of_app. by left. }
        rewrite Hout by done. rewrite Hh4 by (intros ->; apply Hba, elem_of_cons; by left).
        by apply Hfr1.
Qed.

End scan_died_loop.






(** ** The dump of the differences *)




(** The row [fault_dump_diff] prints for pid 10 when it has exited: its
    deltas are -5 and -20 and every column reads 0. *)
Example fault_dump_diff_died_row :
  (fst <$> fault_dump_diff 2 plain_globals (Some 1%positive) None exit_store)
    = Some (Text_dump
              [Text_row 10 ["     0 "; "     0 "; "     0 "; "     0 "; "     0 "]
                 "" "<unknown>" "<unknown>"]
              ["     0 "; "     0 "; "     0 "; "     0 "]) ∧
  (deltas <$> (fault_dump_diff 2 plain_globals (Some 1%positive) None exit_store
                 ≫= λ out, snd out !! 1%positive))
    = Some (-20, -5).
Proof. split; vm_compute; reflexivity. Qed.

(** ** The full dump when every process is still there *)




Lemma matches_old h olds o x : matches h olds o x = true → o ∈ olds.
Proof.
  unfold matches.
  destruct (find_pid h (pid (rec_at h x)) olds) as [[o' fo]|] eqn:Hfind; [|done].
  intros Ho. apply bool_decide_eq_true in Ho. subst o'.
  destruct (find_pid_Some _ _ _ _ _ Hfind) as (pre & post & -> & _).
  apply elem_of_app. right. apply elem_of_cons. by left.
Qed.



(** ** What [fault_delta] leaves alone *)

(** X4: [fault_delta] changes nothing but the two deltas of the new record
    and the alive flag of a record of the previous list: every record keeps
    its pid, uid, cache pointers, counters, swap and links, no record is
    added or removed, and no alive flag is cleared. *)
Theorem fault_delta_preserves (fuel : nat) (h : heap) (fault_new : addr)
    (n : fault_info_t) (old_list : ptr) (olds : list addr) :
  chain next h old_list olds →
  h !! fault_new = Some n →
  (length olds ≤ fuel)%nat →
  ∃ h', fault_delta fuel fault_new old_list h = Some h' ∧
    dom h' = dom h ∧
    ∀ a f, h !! a = Some f →
      ∃ f', h' !! a = Some f' ∧
        pid f' = pid f ∧ uid f' = uid f ∧ proc f' = proc f ∧ uname f' = uname f ∧
        min_fault f' = min_fault f ∧ maj_fault f' = maj_fault f ∧
        vm_swap f' = vm_swap f ∧
        next f' = next f ∧ s_next f' = s_next f ∧ d_next f' = d_next f ∧
        (a ≠ fault_new →
           d_min_fault f' = d_min_fault f ∧ d_maj_fault f' = d_maj_fault f) ∧
        (alive f = true → alive f' = true) ∧
        (a ∉ olds → alive f' = alive f).
Proof.
  intros Hc Hx Hfuel.
  destruct (fault_delta_frame fuel h fault_new n old_list olds Hc Hx Hfuel)
    as (h1 & f1 & Hfd & Hf1 & Hsd1 & Hno & Hdl & Hal).
  exists h1. split; [exact Hfd|]. split.
  { apply set_eq. intros a. rewrite !elem_of_dom.
    pose proof (Hno a) as Ha.
    destruct (h1 !! a), (h !! a); simpl in Ha; try done; split; by eauto. }
  intros a f Hf.
  destruct (agree_lookup no_da h h1 a f Hno Hf) as (f' & Hf' & Hnf).
  exists f'. split; [exact Hf'|].
  pose proof (Hal a) as Hala. rewrite Hf, Hf' in Hala. simpl in Hala.
  injection Hala as Hala.
  assert (Hd : a ≠ fault_new → deltas f' = deltas f).
  { intros Hne. pose proof (Hdl a Hne) as Hda. rewrite Hf, Hf' in Hda.
    simpl in Hda. congruence. }
  assert (Hfields : pid f' = pid f ∧ uid f' = uid f ∧ proc f' = proc f ∧
            uname f' = uname f ∧ min_fault f' = min_fault f ∧
            maj_fault f' = maj_fault f ∧ vm_swap f' = vm_swap f ∧
            next f' = next f ∧ s_next f' = s_next f ∧ d_next f' = d_next f).
  { clear - Hnf. revert Hnf. destruct f, f'. rec_fields. }
  destruct Hfields as (? & ? & ? & ? & ? & ? & ? & ? & ? & ?).
  repeat (split; [assumption|]).
  split.
  { intros Hne. specialize (Hd Hne). clear - Hd. revert Hd. destruct f, f'. rec_fields. }
  split.
  { intros Htrue. rewrite Hala, Htrue. done. }
  intros Hnot. rewrite Hala.
  destruct (matches h olds a fault_new) eqn:Hm; [|by rewrite orb_false_r].
  exfalso. apply Hnot. by eapply matches_old.
Qed.

Lemma fault_delta_preserves_witness :
  ∃ h', fault_delta 1 2%positive (Some 1%positive) tick_store = Some h' ∧
    dom h' = dom tick_store ∧
    (min_fault <$> h' !! 3%positive) = Some 3 ∧
    (alive <$> h' !! 1%positive) = Some true.
Proof.
  destruct (fault_delta_preserves 1 tick_store 2%positive
              (sample 10 20 9 (Some 3%positive)) (Some 1%positive) [1%positive])
    as (h' & Hrun & Hdom & Hkeep).
  - econstructor; [reflexivity|]. constructor.
  - reflexivity.
  - simpl. lia.
  - exists h'. split; [exact Hrun|]. split; [exact Hdom|]. split.
    + destruct (Hkeep 3%positive (sample 11 3 0 None)) as (f' & Hf' & H); [reflexivity|].
      replace (h' !! 3%positive) with (Some f') by (symmetry; exact Hf').
      simpl. f_equal. tauto.
    + pose proof Hrun as Hrun'. vm_compute in Hrun'. injection Hrun' as <-.
      reflexivity.
Defined.

(** ** The order [compare] gives *)

(** X5: for each of the seven sort settings [compare] is a strict weak
    order (irreflexive, transitive, and so is its complement), which is what
    the insertion loops rely on; for any other setting it holds of every
    pair of records. *)
Theorem compare_strict_weak_order (sb : Z) :
  (0 <= sb < SORT_END →
     (∀ f, compare sb f f = false) ∧
     (∀ f1 f2 f3, compare sb f1 f2 = true → compare sb f2 f3 = true →
        compare sb f1 f3 = true) ∧
     (∀ f1 f2 f3, compare sb f1 f2 = false → compare sb f2 f3 = false →
        compare sb f1 f3 = false)) ∧
  (¬ (0 <= sb < SORT_END) → ∀ f1 f2, compare sb f1 f2 = true).
Proof.
  split.
  - intros Hsb. split; [|split].
    + intros f. rewrite compare_sort_key by done. lia.
    + intros f1 f2 f3. rewrite !compare_sort_key by done. lia.
    + intros f1 f2 f3. rewrite !compare_sort_key by done. lia.
  - intros Hsb f1 f2. unfold compare, SORT_END, SORT_MAJOR_MINOR, SORT_MAJOR, SORT_MINOR,
      SORT_D_MAJOR_MINOR, SORT_D_MAJOR, SORT_D_MINOR, SORT_SWAP in *.
    repeat (match goal with |- context [?a =? ?b] => destruct (Z.eqb_spec a b) end;
            [lia|]).
    done.
Qed.

Lemma compare_strict_weak_order_witness :
  compare SORT_MAJOR (sample 1 0 5 None) (sample 1 0 5 None) = false ∧
  compare 7 (sample 1 0 5 None) (sample 1 0 5 None) = true.
Proof.
  destruct (compare_strict_weak_order SORT_MAJOR) as [Hin _].
  destruct (compare_strict_weak_order 7) as [_ Hout].
  split.
  - apply Hin. unfold SORT_MAJOR, SORT_END. lia.
  - apply Hout. unfold SORT_END. lia.
Defined.

(** ** The dump of the differences, from one round to the next *)


(** X3: [fault_dump_diff] leaves the lists ready for the next round.  After
    it every record of the new list is still linked by [next] in the same
    order, keeps its pid, its counters, its swap and its alive flag, and has
    a [NULL] [d_next] link again, as has every record of the previous list:
    the new list is fit to be the previous list of the next dump. *)
Theorem fault_dump_diff_next_round (fuel : nat) (g : globals) (h : heap)
    (old_list new_list : ptr) (olds news : list addr) :
  chain next h old_list olds →
  chain next h new_list news →
  unlinked h news →
  (∀ o, o ∈ olds → d_next <$> h !! o = Some None) →
  (∀ o, o ∈ olds → alive (rec_at h o) = false) →
  (∀ a, a ∈ news → a ∉ olds) →
  (length news + length olds < fuel)%nat →
  ∃ out h',
    fault_dump_diff fuel g old_list new_list h = Some (out, h') ∧
    chain next h' new_list news ∧
    (∀ a f, a ∈ news → h !! a = Some f →
       ∃ f', h' !! a = Some f' ∧
         pid f' = pid f ∧ min_fault f' = min_fault f ∧ maj_fault f' = maj_fault f ∧
         vm_swap f' = vm_swap f ∧ next f' = next f ∧ alive f' = alive f ∧
         d_next f' = None) ∧
    (∀ o, o ∈ olds → d_next <$> h' !! o = Some None).
Proof.
  intros Holds Hnews Hunl Hunl_old Hdead Hdisj Hfuel.
  destruct (scan_new_spec_kept true (sort_by g) D_NEXT false old_list olds h Holds news
              fuel fuel h None totals0 new_list [])
    as (h1 & sorted & t1 & Hscan & Hch & Hframe & Hfin & Ht1 & Hal & Hlk).
  { exact Hnews. }
  { constructor. }
  { apply agree_on_refl. }
  { intros a Ha. destruct (Hunl a Ha) as (f & Hf & _ & Hd).
    rewrite Hf. simpl. by rewrite Hd. }
  { by eapply chain_NoDup. }
  { intros a _ Ha. by apply elem_of_nil in Ha. }
  { intros c Hc. by apply elem_of_nil in Hc. }
  { lia. }
  { lia. }
  { simpl. lia. }
  set (keptl := filter (λ a, kept true (new_record h olds a) = true) news) in *.
  set (L1 := insert_all (dump_lt (sort_by g) h olds) keptl []) in *.
  assert (HL1 : L1 ≡ₚ keptl) by apply (insert_all_perm _ keptl []).
  assert (Hsub : ∀ a, a ∈ L1 → a ∈ news).
  { intros a Ha. rewrite HL1 in Ha. by apply list_elem_of_filter in Ha as [_ ?]. }
  assert (Hlen1 : (length L1 ≤ length news)%nat).
  { rewrite (Permutation_length HL1). apply length_filter. }
  assert (Hpc : agree_on pcore h h1).
  { eapply agree_on_weaken; [|exact Hframe]. apply pcore_frame_new. }
  assert (Hold1 : ∀ o, o ∈ olds → d_next <$> h1 !! o = Some None).
  { intros a Ha. transitivity (get_link D_NEXT <$> h !! a); [|by apply Hunl_old].
    apply Hlk. simpl. intros Hin. apply list_elem_of_filter in Hin as [_ Hin].
    by apply (Hdisj a). }
  destruct (scan_died_spec (sort_by g) true h1 olds fuel fuel h1 sorted t1 old_list L1)
    as (h2 & sorted2 & t2 & Hrun & Ht2 & Hrec & Hfr & Ld' & Hch2 & Hperm2 & Hout2).
  { eapply chain_agree; [exact Holds|]. intros a _.
    eapply (agree_on_weaken pcore next); [apply next_pcore|exact Hpc]. }
  { exact Hch. }
  { done. }
  { exact Hold1. }
  { by eapply chain_NoDup. }
  { intros a Ha Hin. by apply (Hdisj a (Hsub a Hin)). }
  { lia. }
  { lia. }
  destruct (print_chain_clear_spec (diff_row g) D_NEXT Ld' h2 sorted2 fuel Hch2)
    as (h3 & Hprint & Hin3 & Hout3).
  { rewrite (Permutation_length Hperm2), length_app.
    pose proof (length_filter (λ a, alive (rec_at h1 a) = false) olds). lia. }
  assert (HLd : ∀ a, a ∉ Ld' → a ∉ keptl).
  { intros a Hnin Hin. apply Hnin. rewrite Hperm2, HL1. apply elem_of_app. by left. }
  assert (Hclear : ∀ a, a ∈ Ld' →
            ∃ f2, h2 !! a = Some f2 ∧ h3 !! a = Some (set_d_next None f2)).
  { intros a Hin. destruct (chain_lookup _ _ _ _ _ Hch2 Hin) as [f2 Hf2].
    exists f2. split; [done|]. by rewrite (Hin3 a Hin), Hf2. }
  (* the records of the new list *)
  assert (Hnew3 : ∀ a f, a ∈ news → h !! a = Some f →
            ∃ f', h3 !! a = Some f' ∧ pcore f' = pcore f ∧ alive f' = alive f ∧
              d_next f' = None).
  { intros a f Ha Hf.
    assert (Hao : a ∉ olds) by (by apply Hdisj).
    destruct (agree_lookup (frame_new D_NEXT) h h1 a f Hframe Hf) as (f1 & Hf1 & Hfn1).
    assert (Hp1 : pcore f1 = pcore f) by (by eapply pcore_frame_new).
    assert (Hal1 : alive f1 = alive f).
    { pose proof (Hal a) as Hala. rewrite Hf, Hf1 in Hala. simpl in Hala.
      injection Hala as Hala. rewrite Hala.
      destruct (existsb (matches h olds a) news) eqn:Hex; [|by rewrite orb_false_r].
      apply existsb_exists in Hex as (x & _ & Hm).
      exfalso. apply Hao. by eapply matches_old. }
    destruct (decide (a ∈ Ld')) as [Hin|Hnin].
    - destruct (Hclear a Hin) as (f2 & Hf2 & Hf3).
      pose proof (Hfr a Hao) as Hfa. rewrite Hf1, Hf2 in Hfa. simpl in Hfa.
      assert (Hf21 : set_d_next None f2 = set_d_next None f1) by congruence.
      exists (set_d_next None f2). split; [exact Hf3|].
      rewrite Hf21, <- Hp1, <- Hal1. by destruct f1.
    - exists f1. split; [by rewrite (Hout3 a Hnin), (Hout2 a Hnin)|].
      split; [done|]. split; [done|].
      assert (Hd : get_link D_NEXT <$> h1 !! a = get_link D_NEXT <$> h !! a).
      { apply Hlk. simpl. by apply HLd. }
      rewrite Hf1, Hf in Hd. simpl in Hd. injection Hd as Hd. rewrite Hd.
      destruct (Hunl a Ha) as (f0 & Hf0 & _ & Hd0). congruence. }
  exists (Text_dump (map (λ a, diff_row g (rec_at h2 a)) Ld') (total_cols false t2)), h3.
  split.
  { unfold fault_dump_diff, fault_dump_diff_scan. rewrite Hscan. simpl.
    rewrite Hrun. simpl. by rewrite Hprint. }
  split.
  { eapply chain_agree; [exact Hnews|]. intros a Ha.
    destruct (chain_lookup _ _ _ _ _ Hnews Ha) as [f Hf].
    destruct (Hnew3 a f Ha Hf) as (f' & Hf' & Hp & _).
    rewrite Hf, Hf'. simpl. f_equal. by apply next_pcore. }
  split.
  { intros a f Ha Hf. destruct (Hnew3 a f Ha Hf) as (f' & Hf' & Hp & Hal' & Hd').
    exists f'. split; [exact Hf'|].
    clear - Hp Hal' Hd'. revert Hp Hal' Hd'. destruct f, f'. rec_fields. }
  intros o Ho. destruct (decide (o ∈ Ld')) as [Hin|Hnin].
  - destruct (Hclear o Hin) as (f2 & _ & Hf3). by rewrite Hf3.
  - rewrite (Hout3 o Hnin), (Hout2 o Hnin). by apply Hold1.
Qed.

Lemma fault_dump_diff_next_round_witness :
  ∃ out h',
    fault_dump_diff 3 plain_globals (Some 1%positive) (Some 2%positive) exit_store_12
      = Some (out, h') ∧
    chain next h' (Some 2%positive) [2%positive] ∧
    d_next <$> h' !! 1%positive = Some None.
Proof.
  destruct (fault_dump_diff_next_round 3 plain_globals exit_store_12 (Some 1%positive)
              (Some 2%positive) [1%positive] [2%positive])
    as (out & h' & Hrun & Hch & _ & Hold).
  - econstructor; [reflexivity|]. constructor.
  - econstructor; [reflexivity|]. constructor.
  - intros a Ha. apply elem_of_cons in Ha as [->|Ha]; [by eexists|].
    by apply elem_of_nil in Ha.
  - intros o Ho. apply elem_of_cons in Ho as [->|Ho]; [reflexivity|].
    by apply elem_of_nil in Ho.
  - intros o Ho. apply elem_of_cons in Ho as [->|Ho]; [reflexivity|].
    by apply elem_of_nil in Ho.
  - intros a Ha Ha'.
    apply elem_of_cons in Ha as [->|Ha]; [|by apply elem_of_nil in Ha].
    apply elem_of_cons in Ha' as [Ha'|Ha']; [done|by apply elem_of_nil in Ha'].
  - simpl. lia.
  - exists out, h'. split; [exact Hrun|]. split; [exact Hch|].
    apply Hold. apply elem_of_cons. by left.
Defined.

(** ** [count_bits] *)

Lemma land_double (a b : Z) (x y : bool) :
  Z.land (2 * a + Z.b2z x) (2 * b + Z.b2z y) = 2 * Z.land a b + Z.b2z (x && y).
Proof.
  apply Z.bits_inj'. intros i Hi.
  rewrite Z.land_spec.
  destruct (Z.eq_dec i 0) as [->|Hne].
  - by rewrite !Z.testbit_0_r.
  - replace i with (Z.succ (i - 1)) by lia.
    rewrite !Z.testbit_succ_r by lia. by rewrite Z.land_spec.
Qed.

Lemma popcount_double (r : Z) : 0 <= r → popcount (2 * r) = popcount r.
Proof. intros Hr. by destruct r. Qed.

(** [n & (n - 1)] has one bit less than [n]. *)
Lemma land_pred_popcount (p : positive) :
  0 <= Z.land (Z.pos p) (Z.pos p - 1) < Z.pos p ∧
  popcount (Z.land (Z.pos p) (Z.pos p - 1)) = pos_popcount p - 1.
Proof.
  induction p as [q IH|q IH|].
  - replace (Z.pos q~1) with (2 * Z.pos q + Z.b2z true) by (simpl; lia).
    replace (2 * Z.pos q + Z.b2z true - 1) with (2 * Z.pos q + Z.b2z false)
      by (simpl; lia).
    rewrite land_double, Z.land_diag. simpl Z.b2z. rewrite Z.add_0_r.
    split; [lia|]. rewrite popcount_double by lia. simpl. lia.
  - replace (Z.pos q~0) with (2 * Z.pos q + Z.b2z false) by (simpl; lia).
    replace (2 * Z.pos q + Z.b2z false - 1) with (2 * (Z.pos q - 1) + Z.b2z true)
      by (simpl; lia).
    rewrite land_double. simpl Z.b2z. rewrite Z.add_0_r.
    destruct IH as [Hr Hp]. split; [lia|].
    rewrite popcount_double by lia. rewrite Hp. simpl. lia.
  - change (Z.land 1 (1 - 1)) with 0. split; [lia|done].
Qed.

Lemma pos_popcount_pos (p : positive) : 1 <= pos_popcount p.
Proof. induction p; simpl; lia. Qed.

Lemma pos_popcount_bound (p : positive) :
  ∀ k, 0 <= k → Z.pos p < 2 ^ k → pos_popcount p <= k.
Proof.
  induction p as [q IH|q IH|]; intros k Hk Hp.
  - assert (Hk1 : 1 <= k).
    { destruct (Z.eq_dec k 0) as [->|]; [simpl in Hp; lia|lia]. }
    replace k with (Z.succ (k - 1)) in Hp by lia.
    rewrite Z.pow_succ_r in Hp by lia.
    specialize (IH (k - 1)). simpl. lia.
  - assert (Hk1 : 1 <= k).
    { destruct (Z.eq_dec k 0) as [->|]; [simpl in Hp; lia|lia]. }
    replace k with (Z.succ (k - 1)) in Hp by lia.
    rewrite Z.pow_succ_r in Hp by lia.
    specialize (IH (k - 1)). simpl. lia.
  - assert (Hk1 : 1 <= k).
    { destruct (Z.eq_dec k 0) as [->|]; [simpl in Hp; lia|lia]. }
    simpl. lia.
Qed.

Lemma count_bits_loop_spec (fuel : nat) :
  ∀ c n, 0 <= n < 2 ^ 32 → 0 <= c → c + popcount n < 2 ^ 32 →
    popcount n <= Z.of_nat fuel →
    count_bits_loop fuel c n = Some (c + popcount n).
Proof.
  induction fuel as [|fuel IH]; intros c n Hn Hc Hsum Hfuel.
  - destruct n as [|p|p]; [simpl; f_equal; lia| |lia].
    pose proof (pos_popcount_pos p). simpl in Hfuel. lia.
  - destruct n as [|p|p]; [simpl; f_equal; lia| |lia].
    pose proof (pos_popcount_pos p) as Hpos.
    destruct (land_pred_popcount p) as [Hr Hp].
    cbn [count_bits_loop]. replace (Z.pos p =? 0) with false by done.
    unfold uint32_wrap. rewrite !Z.mod_small by (simpl popcount in *; lia).
    rewrite IH.
    + f_equal. rewrite Hp. simpl. lia.
    + lia.
    + lia.
    + rewrite Hp. simpl in Hsum. lia.
    + rewrite Hp. simpl in Hfuel. lia.
Qed.

(** X6: for every value of an [unsigned int] the loop of [count_bits]
    ends within 32 rounds and returns the number of bits set in the value,
    which is what the version with the compiler's built-in returns; the
    result is at most 32. *)
Theorem count_bits_popcount (fuel : nat) (val : Z) :
  0 <= val < 2 ^ 32 → (32 ≤ fuel)%nat →
  count_bits fuel val = Some (popcount val) ∧ 0 <= popcount val <= 32.
Proof.
  intros Hval Hfuel.
  assert (Hb : 0 <= popcount val <= 32).
  { destruct val as [|p|p]; [simpl; lia| |lia].
    pose proof (pos_popcount_pos p). pose proof (pos_popcount_bound p 32).
    simpl. lia. }
  split; [|exact Hb].
  unfold count_bits. rewrite count_bits_loop_spec; [done|lia|lia|lia|lia].
Qed.

Lemma count_bits_popcount_witness :
  count_bits 32 7 = Some 3 ∧ count_bits 32 (2 ^ 32 - 1) = Some 32.
Proof.
  split.
  - apply (count_bits_popcount 32 7); [lia|lia].
  - apply (count_bits_popcount 32 (2 ^ 32 - 1)); [lia|lia].
Defined.

(** ** [pid_max_digits] *)

Lemma leading_digits_bound (buf : list ascii) :
  ∀ n, n <= leading_digits n buf <= n + Z.of_nat (length buf).
Proof.
  induction buf as [|c r IH]; intros n; simpl; [lia|].
  destruct (is_digit c); [|lia]. specialize (IH (n + 1)). lia.
Qed.

(** X7: the width [pid_max_digits] gives for the pid column is at least 6
    and at most 31 whatever /proc/sys/kernel/pid_max holds, missing file
    included, and once it is set the calls that follow return it again
    without looking at the file. *)
Theorem pid_max_digits_bounds (file file' : option (list ascii)) :
  let '(digits, static) := pid_max_digits 0 file in
  6 <= digits <= 31 ∧ static = digits ∧
  pid_max_digits static file' = (digits, digits).
Proof.
  unfold pid_max_digits. simpl.
  destruct file as [bytes|].
  - pose proof (leading_digits_bound (take 31 bytes) 0) as Hb.
    pose proof (length_take_le bytes 31) as Hlen.
    assert (Hl : (length (take 31 bytes) ≤ 31)%nat).
    { rewrite length_take. lia. }
    destruct (leading_digits 0 (take 31 bytes) <? 6) eqn:Hlt.
    + split; [lia|]. split; [done|]. done.
    + apply Z.ltb_ge in Hlt. split; [lia|]. split; [done|].
      destruct (leading_digits 0 (take 31 bytes) =? 0) eqn:Hz; [|done].
      apply Z.eqb_eq in Hz. lia.
  - split; [lia|]. by split.
Qed.

(** ** [getattr] and [compare] *)

Lemma sort_setting_cases (sb : Z) :
  0 <= sb < SORT_END →
  sb = 0 ∨ sb = 1 ∨ sb = 2 ∨ sb = 3 ∨ sb = 4 ∨ sb = 5 ∨ sb = 6.
Proof. unfold SORT_END. lia. Qed.

Lemma column_cases (i : Z) :
  0 <= i < ATTR_MAX → i = 0 ∨ i = 1 ∨ i = 2 ∨ i = 3 ∨ i = 4.
Proof. unfold ATTR_MAX. lia. Qed.

Ltac each_setting H :=
  destruct (sort_setting_cases _ H) as [->|[->|[->|[->|[->|[->| ->]]]]]].
Ltac each_column H :=
  destruct (column_cases _ H) as [->|[->|[->|[-> | ->]]]].

(** In range, [getattr] reads the table. *)
Lemma getattr_table (A_NORMAL A_UNDERLINE sb i : Z) :
  0 <= sb < SORT_END → 0 <= i < ATTR_MAX →
  getattr A_NORMAL A_UNDERLINE sb i =
    if bool_decide (attr_vals !! Z.to_nat sb ≫= (λ row, row !! Z.to_nat i) = Some true)
    then A_UNDERLINE else A_NORMAL.
Proof.
  intros Hsb Hi. each_setting Hsb; each_column Hi; reflexivity.
Qed.

Lemma compare_reads_marked (sb i : Z) :
  0 <= sb < SORT_END → 0 <= i < ATTR_MAX →
  attr_vals !! Z.to_nat sb ≫= (λ row, row !! Z.to_nat i) = Some true →
  compare sb (set_column i (-1) (sample 0 0 0 None)) (sample 0 0 0 None)
    ≠ compare sb (sample 0 0 0 None) (sample 0 0 0 None).
Proof.
  intros Hsb Hi. each_setting Hsb; each_column Hi; vm_compute; congruence.
Qed.

Lemma compare_skips_unmarked (sb i : Z) :
  0 <= sb < SORT_END → 0 <= i < ATTR_MAX →
  attr_vals !! Z.to_nat sb ≫= (λ row, row !! Z.to_nat i) ≠ Some true →
  ∀ f1 f2 v w, compare sb (set_column i v f1) (set_column i w f2) = compare sb f1 f2.
Proof.
  intros Hsb Hi. each_setting Hsb; each_column Hi; intros Hm f1 f2 v w;
    try (exfalso; apply Hm; reflexivity); destruct f1, f2; reflexivity.
Qed.

(** X8: the columns that [getattr] underlines in the heading are exactly the
    columns that [compare] reads for the sort setting in force: changing the
    value of an underlined column can change the order, changing the value of
    another column cannot.  Outside the range of the settings or of the
    columns nothing is underlined.  The columns are those of the rows of
    [fault_dump]. *)
Theorem getattr_marks_sort_columns (A_NORMAL A_UNDERLINE sb i : Z) :
  A_NORMAL ≠ A_UNDERLINE →
  (getattr A_NORMAL A_UNDERLINE sb i = A_UNDERLINE ∨
   getattr A_NORMAL A_UNDERLINE sb i = A_NORMAL) ∧
  (getattr A_NORMAL A_UNDERLINE sb i = A_UNDERLINE ↔
     0 <= sb < SORT_END ∧ 0 <= i < ATTR_MAX ∧
     ∃ f1 f2 v, compare sb (set_column i v f1) f2 ≠ compare sb f1 f2) ∧
  (0 <= sb < SORT_END → 0 <= i < ATTR_MAX →
     getattr A_NORMAL A_UNDERLINE sb i = A_NORMAL →
     ∀ f1 f2 v w, compare sb (set_column i v f1) (set_column i w f2) = compare sb f1 f2) ∧
  (0 <= i < ATTR_MAX →
     ∀ g f, r_cols (dump_row g false f) !! Z.to_nat i = Some (fmt (column i f))).
Proof.
  intros Hne.
  assert (Hout : ¬ (0 <= sb < SORT_END ∧ 0 <= i < ATTR_MAX) →
            getattr A_NORMAL A_UNDERLINE sb i = A_NORMAL).
  { intros Hr. unfold getattr.
    destruct (sb <? 0) eqn:H1; [done|]. destruct (SORT_END <=? sb) eqn:H2; [done|].
    destruct (i <? 0) eqn:H3; [done|]. destruct (ATTR_MAX <=? i) eqn:H4; [done|].
    exfalso. apply Hr. lia. }
  destruct (decide (0 <= sb < SORT_END ∧ 0 <= i < ATTR_MAX)) as [[Hsb Hi]|Hr].
  - rewrite (getattr_table _ _ _ _ Hsb Hi).
    case_bool_decide as Hm.
    + split; [by left|]. split; [|split].
      * split; [|done]. intros _. split; [done|]. split; [done|].
        eexists _, _, _. by apply compare_reads_marked.
      * intros _ _ Heq. by destruct Hne.
      * intros _ g f. clear -Hi. each_column Hi; reflexivity.
    + split; [by right|]. split; [|split].
      * split; [by intros ?; destruct Hne|].
        intros (_ & _ & f1 & f2 & v & Hdiff). exfalso. apply Hdiff.
        rewrite <- (compare_skips_unmarked sb i Hsb Hi Hm f1 f2 v (column i f2)).
        f_equal. clear. destruct f2. unfold set_column, column.
        repeat (match goal with |- context [?a =? ?b] => destruct (a =? b) end; [done|]).
        done.
      * intros _ _ _. by apply compare_skips_unmarked.
      * intros _ g f. clear -Hi. each_column Hi; reflexivity.
  - rewrite (Hout Hr). split; [by right|]. split; [|split].
    + split; [by intros ?; destruct Hne|]. intros (? & ? & _). tauto.
    + intros ? ?. tauto.
    + intros Hi g f. clear -Hi. each_column Hi; reflexivity.
Qed.

Lemma getattr_marks_sort_columns_witness :
  getattr 0 131072 SORT_D_MAJOR_MINOR ATTR_D_MINOR = 131072 ∧
  getattr 0 131072 SORT_D_MAJOR_MINOR ATTR_SWAP = 0 ∧
  getattr 0 131072 SORT_END ATTR_MAJOR = 0.
Proof.
  pose proof (getattr_marks_sort_columns 0 131072 SORT_D_MAJOR_MINOR ATTR_D_MINOR)
    as H1.
  pose proof (getattr_marks_sort_columns 0 131072 SORT_D_MAJOR_MINOR ATTR_SWAP) as H2.
  pose proof (getattr_marks_sort_columns 0 131072 SORT_END ATTR_MAJOR) as H3.
  destruct H1 as (_ & [_ H1] & _); [lia|].
  destruct H2 as ([H2|H2] & _); [lia|vm_compute in H2; lia|].
  destruct H3 as ([H3|H3] & _); [lia|vm_compute in H3; lia|].
  split; [|by split].
  apply H1. split; [vm_compute; split; congruence|].
  split; [vm_compute; split; congruence|].
  exists (sample 0 0 0 None), (sample 0 0 0 None), (-1). vm_compute. congruence.
Defined.

(** ** The fields of /proc/pid/stat *)

Lemma list_ascii_app (a b : string) :
  list_ascii_of_string (a +:+ b) = list_ascii_of_string a ++ list_ascii_of_string b.
Proof. induction a as [|c a IH]; simpl; [done|]. by rewrite IH. Qed.

Lemma lacks_cons c d s : lacks c (String d s) ↔ c ≠ d ∧ lacks c s.
Proof. unfold lacks. simpl. by rewrite not_elem_of_cons. Qed.

Lemma lacks_app c a b : lacks c (a +:+ b) ↔ lacks c a ∧ lacks c b.
Proof. unfold lacks. rewrite list_ascii_app, not_elem_of_app. done. Qed.

Lemma after_comm_none (s : string) : lacks ")"%char s → after_comm s = None.
Proof.
  induction s as [|c s IH]; [done|]. intros Hs.
  apply lacks_cons in Hs as [Hc Hs]. simpl. rewrite (IH Hs).
  by rewrite bool_decide_eq_false_2.
Qed.

Lemma after_comm_last (pre rest : string) :
  lacks ")"%char rest → after_comm (pre +:+ String ")"%char rest) = Some rest.
Proof.
  intros Hrest. induction pre as [|c pre IH]; simpl.
  - by rewrite (after_comm_none _ Hrest).
  - by rewrite IH.
Qed.

Lemma lacks_concat c sep (l : list string) :
  lacks c sep → Forall (lacks c) l → lacks c (String.concat sep l).
Proof.
  intros Hsep. induction 1 as [|x l Hx Hl IH]; [by intros ?%elem_of_nil|].
  simpl. destruct l as [|y l]; [done|].
  change (lacks c (x +:+ sep +:+ String.concat sep (y :: l))).
  rewrite !lacks_app. done.
Qed.

Lemma skip_field_field (f rest : string) :
  lacks " "%char f → (rest = "" ∨ ∃ r, rest = String " "%char r) →
  skip_field (f +:+ rest) = rest.
Proof.
  intros Hf Hrest. induction f as [|c f IH]; simpl.
  - by destruct Hrest as [->|[r ->]].
  - apply lacks_cons in Hf as [Hc Hf].
    rewrite bool_decide_eq_false_2 by congruence. by apply IH.
Qed.

Lemma skip_blanks_field (f rest : string) :
  f ≠ "" → lacks " "%char f → skip_blanks (f +:+ rest) = f +:+ rest.
Proof.
  intros Hne Hf. destruct f as [|c f]; [done|].
  apply lacks_cons in Hf as [Hc _]. simpl.
  by rewrite bool_decide_eq_false_2 by congruence.
Qed.

Lemma skip_blanks_space (s : string) :
  skip_blanks (String " "%char s) = skip_blanks s.
Proof. reflexivity. Qed.

Lemma concat_field_start (f : string) (l : list string) :
  f ≠ "" → lacks " "%char f →
  skip_blanks (String.concat " " (f :: l)) = String.concat " " (f :: l).
Proof.
  intros Hne Hf. destruct l as [|y l].
  - simpl. destruct f as [|c f]; [done|].
    apply lacks_cons in Hf as [Hc _]. simpl.
    by rewrite bool_decide_eq_false_2 by congruence.
  - by apply skip_blanks_field.
Qed.

Lemma concat_cons_cons (sep x y : string) (l : list string) :
  String.concat sep (x :: y :: l) = x +:+ sep +:+ String.concat sep (y :: l).
Proof. done. Qed.

Lemma stat_field_loop_last (c : ascii) (s : string) :
  stat_field_loop 1 (String c s) = skip_blanks (String c s).
Proof. reflexivity. Qed.

Lemma stat_field_loop_step (n : nat) (c : ascii) (s : string) :
  stat_field_loop (S (S n)) (String c s)
    = stat_field_loop (S n) (skip_field (skip_blanks (String c s))).
Proof. reflexivity. Qed.

(** The second loop, from the space after the command on. *)
Lemma stat_field_loop_fields (fields : list string) :
  Forall stat_field fields →
  ∀ k, (k < length fields)%nat →
    stat_field_loop (S k) (String " "%char (String.concat " " fields))
      = String.concat " " (drop k fields).
Proof.
  induction 1 as [|f l Hf Hl IH]; intros k Hk; [simpl in Hk; lia|].
  destruct Hf as (Hne & Hsp & _).
  assert (Hstart : skip_blanks (String " "%char (String.concat " " (f :: l)))
                   = String.concat " " (f :: l)).
  { rewrite skip_blanks_space. by apply concat_field_start. }
  destruct k as [|k].
  - rewrite stat_field_loop_last, Hstart. by rewrite drop_0.
  - rewrite stat_field_loop_step, Hstart.
    destruct l as [|y l]; [simpl in Hk; lia|].
    rewrite concat_cons_cons.
    rewrite (skip_field_field f) by (done || (right; by eexists)).
    change (" " +:+ String.concat " " (y :: l))
      with (String " "%char (String.concat " " (y :: l))).
    rewrite IH by (simpl in Hk; simpl; lia). done.
Qed.

Lemma skip_field_end (f : string) : lacks " "%char f → skip_field f = "".
Proof.
  induction f as [|c f IH]; [done|]. intros Hf.
  apply lacks_cons in Hf as [Hc Hf]. simpl.
  rewrite bool_decide_eq_false_2 by congruence. by apply IH.
Qed.

Lemma stat_field_loop_end (n : nat) : stat_field_loop n "" = "".
Proof. by destruct n. Qed.

(** The second loop for any number of fields to pass: past the last field
    it stops at the end of the line. *)
Lemma stat_field_loop_drop (fields : list string) :
  Forall stat_field fields →
  ∀ k, stat_field_loop (S k) (String " "%char (String.concat " " fields))
       = String.concat " " (drop k fields).
Proof.
  induction 1 as [|f l Hf Hl IH]; intros k.
  - destruct k as [|k]; [reflexivity|].
    rewrite stat_field_loop_step. by destruct k.
  - destruct (decide (k < length (f :: l))%nat) as [Hk|Hk].
    + apply stat_field_loop_fields; [by constructor|done].
    + rewrite drop_ge by lia.
      destruct Hf as (Hne & Hsp & _).
      destruct k as [|k]; [simpl in Hk; lia|].
      rewrite stat_field_loop_step, skip_blanks_space, concat_field_start by done.
      destruct l as [|y l].
      * simpl String.concat. rewrite skip_field_end by done.
        by rewrite stat_field_loop_end.
      * rewrite concat_cons_cons.
        rewrite (skip_field_field f) by (done || (right; by eexists)).
        change (" " +:+ String.concat " " (y :: l))
          with (String " "%char (String.concat " " (y :: l))).
        rewrite IH. rewrite drop_ge; [done|]. simpl in Hk. simpl. lia.
Qed.

Lemma string_app_assoc (a b c : string) : (a +:+ b) +:+ c = a +:+ b +:+ c.
Proof.
  induction a as [|x a IH]; [done|].
  change (String x ((a +:+ b) +:+ c) = String x (a +:+ b +:+ c)). by rewrite IH.
Qed.

Lemma stat_line_split (pid_text comm : string) (fields : list string) :
  stat_line pid_text comm fields
    = (pid_text +:+ " (" +:+ comm)
        +:+ String ")"%char (String " "%char (String.concat " " fields)).
Proof. unfold stat_line. by rewrite !string_app_assoc. Qed.

Lemma get_proc_self_stat_field_line (pid_text comm : string) (fields : list string)
    (k : nat) :
  Forall stat_field fields →
  get_proc_self_stat_field (stat_line pid_text comm fields) (Z.of_nat k + 3)
    = Some (String.concat " " (drop k fields)).
Proof.
  intros Hf. unfold get_proc_self_stat_field.
  replace (Z.of_nat k + 3 <? 1) with false by (symmetry; apply Z.ltb_ge; lia).
  replace (Z.of_nat k + 3 =? 1) with false by (symmetry; apply Z.eqb_neq; lia).
  replace (Z.of_nat k + 3 =? 2) with false by (symmetry; apply Z.eqb_neq; lia).
  rewrite bool_decide_eq_false_2.
  2:{ rewrite stat_line_split. by destruct (pid_text +:+ " (" +:+ comm). }
  simpl. rewrite stat_line_split, after_comm_last.
  - simpl. replace (Z.to_nat (Z.of_nat k + 3 - 2)) with (S k) by lia.
    by rewrite stat_field_loop_drop.
  - apply lacks_cons. split; [done|].
    apply lacks_concat.
    + apply lacks_cons. split; [done|]. by intros ?%elem_of_nil.
    + eapply Forall_impl; [exact Hf|]. by intros f (_ & _ & ?).
Qed.

(** X9: [get_proc_self_stat_field] finds the fields of a line of
    /proc/pid/stat whatever the command holds, spaces and parentheses
    included: for the field [k + 3] it returns the text from the start of
    the [k]-th field after the command on, and the end of the line when the
    line has fewer fields.  A field number below 1 or an empty line gives
    [NULL], as does a field after the command when the line has no closing
    parenthesis. *)
Theorem get_proc_self_stat_field_fields (pid_text comm : string)
    (fields : list string) (k : nat) :
  Forall stat_field fields →
  get_proc_self_stat_field (stat_line pid_text comm fields) (Z.of_nat k + 3)
    = Some (String.concat " " (drop k fields)) ∧
  get_proc_self_stat_field (stat_line pid_text comm fields) 1
    = Some (stat_line pid_text comm fields) ∧
  (∀ buf num, num < 1 ∨ buf = "" → get_proc_self_stat_field buf num = None) ∧
  (∀ buf num, 3 <= num → lacks ")"%char buf → get_proc_self_stat_field buf num = None).
Proof.
  intros Hf. split; [by apply get_proc_self_stat_field_line|]. split; [|split].
  - unfold get_proc_self_stat_field. simpl.
    rewrite bool_decide_eq_false_2; [done|].
    rewrite stat_line_split. by destruct (pid_text +:+ " (" +:+ comm).
  - intros buf num [Hnum| ->]; unfold get_proc_self_stat_field.
    + by replace (num <? 1) with true by (symmetry; apply Z.ltb_lt; lia).
    + rewrite bool_decide_eq_true_2 by done. by rewrite orb_true_r.
  - intros buf num Hnum Hbuf. unfold get_proc_self_stat_field.
    destruct ((num <? 1) || bool_decide (buf = "")); [done|].
    replace (num =? 1) with false by (symmetry; apply Z.eqb_neq; lia).
    replace (num =? 2) with false by (symmetry; apply Z.eqb_neq; lia).
    by rewrite after_comm_none.
Qed.

Ltac stat_field_tac :=
  split; [discriminate|split; unfold lacks; compute_done].

Lemma get_proc_self_stat_field_fields_witness :
  get_proc_self_stat_field
    (stat_line "4242" "tmux: server (1) x" ["S"; "1"; "4242"; "4242"; "0"; "-1";
       "4194560"; "1811"; "0"; "37"]) 10
  = Some "1811 0 37".
Proof.
  apply (get_proc_self_stat_field_fields "4242" "tmux: server (1) x"
           ["S"; "1"; "4242"; "4242"; "0"; "-1"; "4194560"; "1811"; "0"; "37"] 7).
  repeat first [apply Forall_nil_2 | apply Forall_cons_2; [stat_field_tac|]].
Defined.

(** ** The counters read from /proc/pid/stat *)

Lemma is_digit_plain (c : ascii) :
  is_digit c = true →
  isspace c = false ∧ c ≠ "-"%char ∧ c ≠ "+"%char ∧ c ≠ " "%char.
Proof.
  intros Hd. split; [|split; [|split]].
  - unfold is_digit in Hd. unfold isspace.
    destruct (48 <=? Z.of_nat (nat_of_ascii c)) eqn:H1; [|done].
    destruct (Z.of_nat (nat_of_ascii c) <=? 57) eqn:H2; [|done].
    apply Z.leb_le in H1, H2.
    replace (Z.of_nat (nat_of_ascii c) <=? 13) with false
      by (symmetry; apply Z.leb_gt; lia).
    replace (Z.of_nat (nat_of_ascii c) =? 32) with false
      by (symmetry; apply Z.eqb_neq; lia).
    by rewrite andb_false_r.
  - intros ->. by vm_compute in Hd.
  - intros ->. by vm_compute in Hd.
  - intros ->. by vm_compute in Hd.
Qed.



Lemma string_app_empty_r (s : string) : s +:+ "" = s.
Proof.
  induction s as [|c s IH]; [done|].
  change (String c (s +:+ "") = String c s). by rewrite IH.
Qed.

Lemma concat_head (x : string) (l : list string) :
  ∃ rest, String.concat " " (x :: l) = x +:+ rest ∧
    (rest = "" ∨ ∃ r, rest = String " "%char r).
Proof.
  destruct l as [|y l].
  - exists "". split; [by rewrite string_app_empty_r|by left].
  - exists (" " +:+ String.concat " " (y :: l)). split; [done|]. right. by eexists.
Qed.



(** ** The command line of a process *)

Lemma c_string_app (l r : list ascii) :
  zero ∉ l → c_string (l ++ zero :: r) = string_of_list_ascii l.
Proof.
  induction l as [|c l IH]; intros Hl; simpl.
  - reflexivity.
  - apply not_elem_of_cons in Hl as [Hc Hl].
    rewrite bool_decide_eq_false_2 by congruence. by rewrite IH.
Qed.

Lemma c_string_string (s : string) (r : list ascii) :
  lacks zero s → c_string (list_ascii_of_string s ++ zero :: r) = s.
Proof.
  intros Hs. rewrite c_string_app by done. apply string_of_list_ascii_of_string.
Qed.

Lemma cmdline_bytes_cons (a : string) (args : list string) :
  cmdline_bytes (a :: args) = list_ascii_of_string a ++ zero :: cmdline_bytes args.
Proof. unfold cmdline_bytes. simpl. by rewrite <- app_assoc. Qed.

(** The bytes of the file without the last zero: the arguments with a zero
    byte between them. *)
Lemma cmdline_bytes_init (a : string) (args : list string) :
  cmdline_bytes (a :: args)
    = list_ascii_of_string (String.concat (String zero "") (a :: args)) ++ [zero].
Proof.
  revert a. induction args as [|b args IH]; intros a.
  - by rewrite cmdline_bytes_cons.
  - rewrite cmdline_bytes_cons, IH, concat_cons_cons, !list_ascii_app.
    simpl. by rewrite <- app_assoc.
Qed.

Lemma spaces_for_zeros (a : string) (args : list string) :
  Forall (lacks zero) (a :: args) →
  map (λ c, if bool_decide (c = zero) then " "%char else c)
    (list_ascii_of_string (String.concat (String zero "") (a :: args)))
  = list_ascii_of_string (String.concat " " (a :: args)).
Proof.
  assert (Hsame : ∀ s, lacks zero s →
            map (λ c, if bool_decide (c = zero) then " "%char else c)
              (list_ascii_of_string s) = list_ascii_of_string s).
  { intros s. induction s as [|c s IH]; [done|]. intros Hs.
    apply lacks_cons in Hs as [Hc Hs]. simpl.
    rewrite bool_decide_eq_false_2 by congruence. by rewrite IH. }
  revert a. induction args as [|b args IH]; intros a Hall.
  - apply Forall_cons in Hall as [Ha _]. by apply Hsame.
  - apply Forall_cons in Hall as [Ha Hall].
    rewrite !concat_cons_cons, !list_ascii_app, !map_app, Hsame by done.
    f_equal. simpl. f_equal. by apply IH.
Qed.

Lemma cmd_short_stem (a : string) :
  lacks zero a →
  ∀ n r, (String.length a < n)%nat →
    c_string (cmd_short n (list_ascii_of_string a ++ zero :: r)) = name_stem a.
Proof.
  induction a as [|c a IH]; intros Ha n r Hn.
  - destruct n as [|n]; [simpl in Hn; lia|]. done.
  - apply lacks_cons in Ha as [Hc Ha].
    destruct n as [|n]; [simpl in Hn; lia|].
    cbn [list_ascii_of_string app cmd_short name_stem].
    rewrite (bool_decide_eq_false_2 (c = zero)) by congruence. simpl orb.
    case_bool_decide as Hsp.
    + reflexivity.
    + cbn [c_string]. rewrite (bool_decide_eq_false_2 (c = zero)) by congruence.
      f_equal. apply IH; [done|]. simpl in Hn. lia.
Qed.

Lemma length_list_ascii (s : string) :
  length (list_ascii_of_string s) = String.length s.
Proof. induction s as [|c s IH]; simpl; [done|]. by rewrite IH. Qed.

(** X11: what [get_pid_cmdline] makes of /proc/pid/cmdline, where each
    argument of the process is followed by a zero byte.  Without [-l] and
    [-s] the result is the first argument; with [-l] it is the arguments
    with single spaces between them; with [-s] it is the first argument up
    to its first space.  A file that cannot be read or that is empty, as for
    a kernel thread, gives [NULL].  [get_pid_comm] returns the line of
    /proc/pid/comm without its last byte, the newline. *)
Theorem pid_cmdline_modes (flags : Z) (arg0 : string) (args : list string) :
  Forall (lacks zero) (arg0 :: args) →
  (length (cmdline_bytes (arg0 :: args)) < 4096)%nat →
  flag_set flags OPT_DIRNAME_STRIP = false →
  (flag_set flags OPT_CMD_LONG = false → flag_set flags OPT_CMD_SHORT = false →
     pid_cmdline_of_file flags (Some (cmdline_bytes (arg0 :: args))) = Some arg0) ∧
  (flag_set flags OPT_CMD_LONG = true → flag_set flags OPT_CMD_SHORT = false →
     pid_cmdline_of_file flags (Some (cmdline_bytes (arg0 :: args)))
       = Some (String.concat " " (arg0 :: args))) ∧
  (flag_set flags OPT_CMD_LONG = false → flag_set flags OPT_CMD_SHORT = true →
     pid_cmdline_of_file flags (Some (cmdline_bytes (arg0 :: args)))
       = Some (name_stem arg0)) ∧
  pid_cmdline_of_file flags None = None ∧
  pid_cmdline_of_file flags (Some []) = None ∧
  pid_comm_of_file (Some (list_ascii_of_string arg0 ++ ["010"%char])) = Some arg0.
Proof.
  intros Hall Hlen Hstrip.
  pose proof Hall as Hall'. apply Forall_cons in Hall' as [H0 _].
  set (bytes := cmdline_bytes (arg0 :: args)) in *.
  assert (Hne : bytes ≠ []).
  { unfold bytes. rewrite cmdline_bytes_cons. by destruct (list_ascii_of_string arg0). }
  assert (Hread : read_buffer (Some bytes) = Some bytes).
  { unfold read_buffer. rewrite bool_decide_eq_false_2 by done.
    by rewrite take_ge by lia. }
  assert (Hret : (4096 <=? length bytes)%nat = false) by (apply Nat.leb_gt; lia).
  split; [|split; [|split; [|split; [done|split; [done|]]]]].
  - intros Hlong Hshort. unfold pid_cmdline_of_file.
    rewrite Hread. cbn [mbind option_bind]. rewrite Hret, Hlong, Hshort, Hstrip.
    rewrite take_ge by lia. f_equal.
    unfold bytes. rewrite cmdline_bytes_cons, <- app_assoc. by apply c_string_string.
  - intros Hlong Hshort. unfold pid_cmdline_of_file.
    rewrite Hread. cbn [mbind option_bind]. rewrite Hret, Hlong, Hshort, Hstrip.
    rewrite take_ge by lia. f_equal. unfold cmd_long.
    unfold bytes. rewrite cmdline_bytes_init.
    set (init := list_ascii_of_string (String.concat (String zero "") (arg0 :: args))).
    rewrite length_app. cbn [length].
    replace (length init + 1 - 1)%nat with (length init) by lia.
    rewrite <- app_assoc, take_app_length. subst init.
    rewrite spaces_for_zeros by done.
    apply c_string_string. apply lacks_concat; [|done].
    apply lacks_cons. split; [done|]. by intros ?%elem_of_nil.
  - intros Hlong Hshort. unfold pid_cmdline_of_file.
    rewrite Hread. cbn [mbind option_bind]. rewrite Hret, Hlong, Hshort, Hstrip.
    rewrite take_ge by lia. f_equal.
    unfold bytes. rewrite cmdline_bytes_cons, <- app_assoc.
    apply cmd_short_stem; [done|].
    rewrite length_app, length_list_ascii. simpl. lia.
  - unfold pid_comm_of_file, read_buffer.
    rewrite bool_decide_eq_false_2 by (by destruct (list_ascii_of_string arg0)).
    cbn [mbind option_bind]. f_equal.
    assert (Hl : (length (list_ascii_of_string arg0 ++ ["010"%char]) < 4096)%nat).
    { rewrite length_app. cbn [length].
      pose proof Hlen as Hlen'. unfold bytes in Hlen'.
      rewrite cmdline_bytes_cons, length_app in Hlen'. cbn [length] in Hlen'. lia. }
    rewrite (take_ge (list_ascii_of_string arg0 ++ ["010"%char]) 4096) by lia.
    rewrite length_app. cbn [length].
    replace (length (list_ascii_of_string arg0) + 1 - 1)%nat
      with (length (list_ascii_of_string arg0)) by lia.
    rewrite take_app_length. by apply c_string_string.
Qed.

Lemma pid_cmdline_modes_witness :
  pid_cmdline_of_file OPT_CMD_LONG
    (Some (cmdline_bytes ["/usr/bin/python3"; "-u"; "my script.py"]))
  = Some "/usr/bin/python3 -u my script.py".
Proof.
  apply (pid_cmdline_modes OPT_CMD_LONG "/usr/bin/python3" ["-u"; "my script.py"]).
  - repeat first [apply Forall_nil_2 | apply Forall_cons_2; [unfold lacks; compute_done|]].
  - vm_compute. lia.
  - reflexivity.
  - reflexivity.
  - reflexivity.
Defined.

Lemma cmd_base_keep (name : string) (base tail : list ascii) :
  lacks zero name → lacks " "%char name → lacks "009"%char name → lacks "/"%char name →
  (tail = [] ∨ ∃ t r, tail = t :: r ∧ (t = zero ∨ isblank t = true)) →
  cmd_base base (list_ascii_of_string name ++ tail) = base.
Proof.
  intros Hz Hs Ht Hsl Htail. induction name as [|c name IH]; simpl.
  - destruct Htail as [->|(t & r & -> & [->|Hb])]; [done|done|].
    simpl. rewrite Hb. by destruct (bool_decide (t = zero)).
  - apply lacks_cons in Hz as [Hz1 Hz]. apply lacks_cons in Hs as [Hs1 Hs].
    apply lacks_cons in Ht as [Ht1 Ht]. apply lacks_cons in Hsl as [Hsl1 Hsl].
    rewrite (bool_decide_eq_false_2 (c = zero)) by congruence.
    unfold isblank.
    rewrite (bool_decide_eq_false_2 (c = " "%char)) by congruence.
    rewrite (bool_decide_eq_false_2 (c = "009"%char)) by congruence.
    rewrite (bool_decide_eq_false_2 (c = "/"%char)) by congruence.
    simpl. by apply IH.
Qed.

Lemma cmd_base_path (dir name : string) (base tail : list ascii) :
  lacks zero dir → lacks " "%char dir → lacks "009"%char dir →
  lacks zero name → lacks " "%char name → lacks "009"%char name → lacks "/"%char name →
  (tail = [] ∨ ∃ t r, tail = t :: r ∧ (t = zero ∨ isblank t = true)) →
  cmd_base base (list_ascii_of_string dir ++ "/"%char :: list_ascii_of_string name ++ tail)
    = list_ascii_of_string name ++ tail.
Proof.
  intros Hz Hs Ht Hnz Hns Hnt Hnsl Htail. revert base.
  induction dir as [|c dir IH]; intros base; simpl.
  - by apply cmd_base_keep.
  - apply lacks_cons in Hz as [Hz1 Hz]. apply lacks_cons in Hs as [Hs1 Hs].
    apply lacks_cons in Ht as [Ht1 Ht].
    rewrite (bool_decide_eq_false_2 (c = zero)) by congruence.
    unfold isblank.
    rewrite (bool_decide_eq_false_2 (c = " "%char)) by congruence.
    rewrite (bool_decide_eq_false_2 (c = "009"%char)) by congruence.
    simpl. destruct (bool_decide (c = "/"%char)); by apply IH.
Qed.

(** X12: with [-d] [get_pid_cmdline] strips the directories from the
    command: for a first argument [dir/name] without blanks the result is
    [name], and with [-l] too it is [name] followed by the other arguments;
    a first argument without a slash is returned as it is. *)
Theorem pid_cmdline_dirname_strip (flags : Z) (dir name : string) (args : list string) :
  Forall (lacks zero) ((dir +:+ "/" +:+ name) :: args) →
  lacks " "%char (dir +:+ "/" +:+ name) → lacks "009"%char (dir +:+ "/" +:+ name) →
  lacks "/"%char name →
  (length (cmdline_bytes ((dir +:+ "/" +:+ name) :: args)) < 4096)%nat →
  flag_set flags OPT_DIRNAME_STRIP = true →
  flag_set flags OPT_CMD_SHORT = false →
  (flag_set flags OPT_CMD_LONG = false →
     pid_cmdline_of_file flags (Some (cmdline_bytes ((dir +:+ "/" +:+ name) :: args)))
       = Some name ∧
     pid_cmdline_of_file flags (Some (cmdline_bytes (name :: args))) = Some name) ∧
  (flag_set flags OPT_CMD_LONG = true →
     pid_cmdline_of_file flags (Some (cmdline_bytes ((dir +:+ "/" +:+ name) :: args)))
       = Some (String.concat " " (name :: args))).
Proof.
  intros Hall Hsp Htab Hsl Hlen Hstrip Hshort.
  pose proof Hall as Hall'. apply Forall_cons in Hall' as [H0 Hargs].
  apply lacks_app in H0 as [Hdz H0]. apply lacks_app in H0 as [_ Hnz].
  apply lacks_app in Hsp as [Hds Hsp]. apply lacks_app in Hsp as [_ Hns].
  apply lacks_app in Htab as [Hdt Htab]. apply lacks_app in Htab as [_ Hnt].
  set (arg0 := dir +:+ "/" +:+ name) in *.
  assert (Harg0 : list_ascii_of_string arg0
                  = list_ascii_of_string dir ++ "/"%char :: list_ascii_of_string name).
  { unfold arg0. by rewrite !list_ascii_app. }
  assert (Hread : ∀ bytes, bytes ≠ [] → (length bytes < 4096)%nat →
            read_buffer (Some bytes) = Some bytes ∧
            (4096 <=? length bytes)%nat = false ∧ take (length bytes) bytes = bytes).
  { intros bytes Hne Hl. unfold read_buffer.
    rewrite bool_decide_eq_false_2 by done. rewrite take_ge by lia.
    split; [done|]. split; [apply Nat.leb_gt; lia|by rewrite take_ge]. }
  split.
  - intros Hlong. split.
    + destruct (Hread (cmdline_bytes (arg0 :: args))) as (Hr & Hret & Htake);
        [rewrite cmdline_bytes_cons; by destruct (list_ascii_of_string arg0)|done|].
      unfold pid_cmdline_of_file. rewrite Hr. cbn [mbind option_bind].
      rewrite Hret, Hlong, Hshort, Hstrip, Htake. f_equal.
      rewrite cmdline_bytes_cons, Harg0, <- !app_assoc. cbn [app].
      rewrite cmd_base_path; try done.
      * by apply c_string_string.
      * right. eexists _, _. split; [done|by left].
    + assert (Hl : (length (cmdline_bytes (name :: args)) < 4096)%nat).
      { revert Hlen. rewrite !cmdline_bytes_cons, Harg0.
        rewrite ?length_app. cbn [length]. rewrite ?length_app. cbn [length]. lia. }
      destruct (Hread (cmdline_bytes (name :: args))) as (Hr & Hret & Htake);
        [rewrite cmdline_bytes_cons; by destruct (list_ascii_of_string name)|done|].
      unfold pid_cmdline_of_file. rewrite Hr. cbn [mbind option_bind].
      rewrite Hret, Hlong, Hshort, Hstrip, Htake. f_equal.
      rewrite cmdline_bytes_cons, <- !app_assoc. cbn [app].
      rewrite cmd_base_keep; try done.
      * by apply c_string_string.
      * right. eexists _, _. split; [done|by left].
  - intros Hlong.
    destruct (Hread (cmdline_bytes (arg0 :: args))) as (Hr & Hret & Htake);
      [rewrite cmdline_bytes_cons; by destruct (list_ascii_of_string arg0)|done|].
    unfold pid_cmdline_of_file. rewrite Hr. cbn [mbind option_bind].
    rewrite Hret, Hlong, Hshort, Hstrip, Htake. f_equal. unfold cmd_long.
    rewrite cmdline_bytes_init.
    set (init := list_ascii_of_string (String.concat (String zero "") (arg0 :: args))).
    rewrite length_app. cbn [length].
    replace (length init + 1 - 1)%nat with (length init) by lia.
    rewrite <- app_assoc, take_app_length. subst init.
    rewrite spaces_for_zeros by done.
    destruct (concat_head arg0 args) as (rest & Hc & Hrest). rewrite Hc.
    destruct (concat_head name args) as (rest' & Hc' & _). 
    assert (Hsame : rest' = rest).
    { clear - Hc Hc'. destruct args as [|y l].
      - simpl in Hc, Hc'. rewrite <- (string_app_empty_r arg0) in Hc at 1.
        rewrite <- (string_app_empty_r name) in Hc' at 1.
        apply (f_equal list_ascii_of_string) in Hc, Hc'.
        rewrite !list_ascii_app in Hc, Hc'.
        apply app_inv_head in Hc, Hc'.
        apply (f_equal string_of_list_ascii) in Hc, Hc'.
        rewrite !string_of_list_ascii_of_string in Hc, Hc'. congruence.
      - rewrite concat_cons_cons in Hc, Hc'.
        apply (f_equal list_ascii_of_string) in Hc, Hc'.
        rewrite !list_ascii_app in Hc, Hc'.
        apply app_inv_head in Hc, Hc'.
        rewrite <- list_ascii_app in Hc, Hc'.
        apply (f_equal string_of_list_ascii) in Hc, Hc'.
        rewrite !string_of_list_ascii_of_string in Hc, Hc'. congruence. }
    subst rest'. rewrite Hc'.
    assert (Hlz : lacks zero (name +:+ rest)).
    { rewrite <- Hc'. apply lacks_concat.
      - apply lacks_cons. split; [done|]. by intros ?%elem_of_nil.
      - by apply Forall_cons. }
    rewrite list_ascii_app, Harg0, <- !app_assoc. cbn [app].
    rewrite cmd_base_path; try done.
    + rewrite app_assoc, <- list_ascii_app. by apply c_string_string.
    + destruct Hrest as [->|[r ->]].
      * right. eexists _, _. split; [done|by left].
      * right. eexists _, _. split; [done|by right].
Qed.

Lemma pid_cmdline_dirname_strip_witness :
  pid_cmdline_of_file (Z.lor OPT_DIRNAME_STRIP OPT_CMD_LONG)
    (Some (cmdline_bytes ["/usr/bin/python3"; "-u"; "my script.py"]))
  = Some "python3 -u my script.py".
Proof.
  apply (pid_cmdline_dirname_strip (Z.lor OPT_DIRNAME_STRIP OPT_CMD_LONG)
           "/usr/bin" "python3" ["-u"; "my script.py"]).
  - repeat first [apply Forall_nil_2 | apply Forall_cons_2; [unfold lacks; compute_done|]].
  - unfold lacks. compute_done.
  - unfold lacks. compute_done.
  - unfold lacks. compute_done.
  - vm_compute. lia.
  - reflexivity.
  - reflexivity.
  - reflexivity.
Defined.

(** ** The pool of fault records *)

(** X13: [fault_cache_alloc] hands out a zeroed record in either case.  When
    the free list is not empty it returns the record at its head without
    asking for memory, leaves the rest of the list as the free list and
    touches no other record; when the list is empty it asks [calloc] once
    and returns a record that was not in the store, or [NULL] with the store
    unchanged when memory has run out. *)
Theorem fault_cache_alloc_zeroed (sys : system) (st : fault_pool) :
  (∀ a pool, chain next (pool_heap st) (fault_info_cache st) (a :: pool) →
     ∃ st', fault_cache_alloc sys st = Some (Some a, st') ∧
       pool_heap st' !! a = Some zero_fault_info ∧
       chain next (pool_heap st') (fault_info_cache st') pool ∧
       pool_queries st' = pool_queries st ∧
       (∀ b, b ≠ a → pool_heap st' !! b = pool_heap st !! b)) ∧
  (fault_info_cache st = None →
     ∃ res st', fault_cache_alloc sys st = Some (res, st') ∧
       pool_queries st' = Q_calloc :: pool_queries st ∧
       fault_info_cache st' = None ∧
       match res with
       | Some a =>
           calloc_ok sys (pool_queries st) = true ∧ pool_heap st !! a = None ∧
           pool_heap st' = <[a := zero_fault_info]> (pool_heap st)
       | None =>
           calloc_ok sys (pool_queries st) = false ∧ pool_heap st' = pool_heap st
       end).
Proof.
  split.
  - intros a pool Hc.
    pose proof (chain_NoDup _ _ _ _ Hc) as Hnd. apply NoDup_cons in Hnd as [Ha _].
    inversion Hc as [|a' f pool' Hf Htl Hhead]; subst.
    unfold fault_cache_alloc. rewrite <- Hhead, Hf. simpl.
    eexists. split; [reflexivity|]. simpl.
    split; [by rewrite lookup_insert_eq|]. split; [|split; [done|]].
    + eapply chain_ext; [exact Htl|]. intros b Hb.
      rewrite lookup_insert_ne; [done|]. by intros ->.
    + intros b Hb. by rewrite lookup_insert_ne.
  - intros Hnone. unfold fault_cache_alloc. rewrite Hnone.
    destruct (calloc_ok sys (pool_queries st)) eqn:Hok; simpl.
    + eexists (Some _), _. split; [reflexivity|]. simpl.
      split; [done|]. split; [done|]. split; [done|]. split; [|done].
      apply not_elem_of_dom. apply is_fresh.
    + eexists None, _. split; [reflexivity|]. by simpl.
Qed.

Lemma fault_cache_alloc_zeroed_witness :
  ∃ st',
    fault_cache_alloc sample_system (Fault_pool tick_store (Some 2%positive) [])
      = Some (Some 2%positive, st') ∧
    pool_heap st' !! 2%positive = Some zero_fault_info ∧
    fault_info_cache st' = Some 3%positive ∧
    pool_queries st' = [].
Proof.
  destruct (fault_cache_alloc_zeroed sample_system
              (Fault_pool tick_store (Some 2%positive) [])) as [Hpool _].
  destruct (Hpool 2%positive [3%positive]) as (st' & Hrun & Hz & Hch & Hq & _).
  - econstructor; [reflexivity|]. econstructor; [reflexivity|]. constructor.
  - exists st'. split; [exact Hrun|]. split; [exact Hz|]. split; [|exact Hq].
    by inversion Hch.
Defined.

Lemma fault_cache_free_spec (a : addr) (f : fault_info_t) (st : fault_pool)
    (pool : list addr) :
  pool_heap st !! a = Some f → a ∉ pool →
  chain next (pool_heap st) (fault_info_cache st) pool →
  ∃ st', fault_cache_free a st = Some st' ∧
    pool_heap st' = alter (set_next (fault_info_cache st)) a (pool_heap st) ∧
    chain next (pool_heap st') (fault_info_cache st') (a :: pool) ∧
    pool_queries st' = pool_queries st.
Proof.
  intros Hf Ha Hc. unfold fault_cache_free. rewrite Hf. simpl.
  eexists. split; [reflexivity|]. simpl. split; [done|]. split; [|done].
  econstructor.
  - by rewrite lookup_alter_eq, Hf.
  - simpl. eapply chain_ext; [exact Hc|]. intros b Hb.
    rewrite lookup_alter_ne; [done|]. by intros ->.
Qed.

(** X14: [fault_cache_free_list] loses no record: it puts every record of
    the list on the free list, the last record of the list first, in front
    of the records that were free before; it changes nothing in the records
    but their [next] link, asks the system nothing, and touches no record
    outside the list. *)
Theorem fault_cache_free_list_pool (l : list addr) :
  ∀ (fuel : nat) (st : fault_pool) (p : ptr) (pool : list addr),
    chain next (pool_heap st) p l →
    chain next (pool_heap st) (fault_info_cache st) pool →
    (∀ a, a ∈ l → a ∉ pool) →
    (length l ≤ fuel)%nat →
    ∃ st', fault_cache_free_list fuel p st = Some st' ∧
      chain next (pool_heap st') (fault_info_cache st') (reverse l ++ pool) ∧
      pool_queries st' = pool_queries st ∧
      (∀ b, b ∉ l → pool_heap st' !! b = pool_heap st !! b) ∧
      (∀ b, set_next None <$> pool_heap st' !! b = set_next None <$> pool_heap st !! b).
Proof.
  induction l as [|a l IH]; intros fuel st p pool Hl Hpool Hdisj Hfuel.
  - inversion Hl; subst. exists st. split; [by destruct fuel|].
    split; [done|]. by split.
  - pose proof (chain_NoDup _ _ _ _ Hl) as Hnd. apply NoDup_cons in Hnd as [Hal Hnd].
    inversion Hl as [|a' f l' Hf Htl]; subst.
    destruct fuel as [|fuel]; [simpl in Hfuel; lia|].
    destruct (fault_cache_free_spec a f st pool Hf) as (st1 & Hfree & Hh1 & Hc1 & Hq1);
      [apply Hdisj, elem_of_cons; by left|done|].
    destruct (IH fuel st1 (next f) (a :: pool)) as (st' & Hrun & Hch & Hq & Hout & Hdata).
    + eapply chain_ext; [exact Htl|]. intros b Hb. rewrite Hh1.
      rewrite lookup_alter_ne; [done|]. by intros ->.
    + exact Hc1.
    + intros b Hb. apply not_elem_of_cons. split; [by intros ->|].
      apply Hdisj. apply elem_of_cons. by right.
    + simpl in Hfuel. lia.
    + exists st'. split.
      { simpl. rewrite Hf. simpl. rewrite Hfree. simpl. exact Hrun. }
      split.
      { rewrite reverse_cons, <- app_assoc. exact Hch. }
      split; [by rewrite Hq|]. split.
      * intros b Hb. apply not_elem_of_cons in Hb as [Hba Hbl].
        rewrite Hout by done. rewrite Hh1. by rewrite lookup_alter_ne.
      * intros b. rewrite Hdata, Hh1. rewrite lookup_alter.
        case_decide as Hab; [|done]. subst b.
        destruct (pool_heap st !! a) as [fa|]; [|done]. simpl. by destruct fa.
Qed.

Lemma fault_cache_free_list_pool_witness :
  ∃ st',
    fault_cache_free_list 2 (Some 2%positive) (Fault_pool tick_store (Some 1%positive) [])
      = Some st' ∧
    chain next (pool_heap st') (fault_info_cache st') [3%positive; 2%positive; 1%positive].
Proof.
  destruct (fault_cache_free_list_pool [2%positive; 3%positive] 2
              (Fault_pool tick_store (Some 1%positive) []) (Some 2%positive) [1%positive])
    as (st' & Hrun & Hch & _).
  - econstructor; [reflexivity|]. econstructor; [reflexivity|]. constructor.
  - econstructor; [reflexivity|]. constructor.
  - intros a Ha Hin.
    apply elem_of_cons in Hin as [->|Hin]; [|by apply elem_of_nil in Hin].
    apply elem_of_cons in Ha as [Ha|Ha]; [done|].
    apply elem_of_cons in Ha as [Ha|Ha]; [done|by apply elem_of_nil in Ha].
  - simpl. lia.
  - exists st'. split; [exact Hrun|exact Hch].
Defined.

(** X15: [fault_cache_prealloc] puts at most [n] new records in front of the
    free list, exactly [n] when [calloc] never fails; each of them is a
    record that was not in the store, zeroed but for its link, the records
    of the store are left as they were, and [calloc] is asked [n] times. *)
Theorem fault_cache_prealloc_pool (sys : system) (n : nat) :
  ∀ (st : fault_pool) (pool : list addr),
    chain next (pool_heap st) (fault_info_cache st) pool →
    ∃ st' added,
      fault_cache_prealloc sys n st = Some st' ∧
      chain next (pool_heap st') (fault_info_cache st') (added ++ pool) ∧
      (length added ≤ n)%nat ∧
      ((∀ q, calloc_ok sys q = true) → length added = n) ∧
      (∀ a, a ∈ added →
         pool_heap st !! a = None ∧
         set_next None <$> pool_heap st' !! a = Some zero_fault_info) ∧
      (∀ b, is_Some (pool_heap st !! b) → pool_heap st' !! b = pool_heap st !! b) ∧
      length (pool_queries st') = (length (pool_queries st) + n)%nat.
Proof.
  induction n as [|n IH]; intros st pool Hpool.
  - exists st, []. split; [done|]. split; [done|]. split; [done|]. split; [done|].
    split; [by intros a ?%elem_of_nil|]. split; [done|]. simpl. lia.
  - cbn [fault_cache_prealloc].
    destruct (calloc_ok sys (pool_queries st)) eqn:Hok.
    + set (a := fresh (dom (pool_heap st))).
      assert (Hfresh : pool_heap st !! a = None).
      { apply not_elem_of_dom. apply is_fresh. }
      assert (Hapool : a ∉ pool).
      { intros Hin. destruct (chain_lookup _ _ _ _ _ Hpool Hin) as [f Hf]. congruence. }
      set (st1 := Fault_pool (<[a := zero_fault_info]> (pool_heap st))
                    (fault_info_cache st) (Q_calloc :: pool_queries st)).
      destruct (fault_cache_free_spec a zero_fault_info st1 pool)
        as (st2 & Hfree & Hh2 & Hc2 & Hq2).
      { simpl. by rewrite lookup_insert_eq. }
      { done. }
      { simpl. eapply chain_ext; [exact Hpool|]. intros b Hb.
        rewrite lookup_insert_ne; [done|]. by intros ->. }
      assert (Hlist : fault_cache_free_list 1 (Some a) st1 = Some st2).
      { simpl. rewrite lookup_insert_eq. simpl.
        change (fault_cache_free a st1 ≫= (λ st', Some st') = Some st2).
        by rewrite Hfree. }
      rewrite Hlist. cbn [mbind option_bind].
      destruct (IH st2 (a :: pool) Hc2)
        as (st' & added & Hrun & Hch & Hlen & Hall & Hnew & Hold & Hq).
      assert (Ha2 : pool_heap st2 !! a = Some (set_next (fault_info_cache st) zero_fault_info)).
      { rewrite Hh2. simpl. by rewrite lookup_alter_eq, lookup_insert_eq. }
      assert (Hother : ∀ b, b ≠ a → pool_heap st2 !! b = pool_heap st !! b).
      { intros b Hb. rewrite Hh2. simpl.
        by rewrite lookup_alter_ne, lookup_insert_ne. }
      exists st', (added ++ [a]). split; [exact Hrun|].
      split; [by rewrite <- app_assoc|].
      split; [rewrite length_app; simpl; lia|].
      split; [intros Hok'; rewrite length_app; simpl; specialize (Hall Hok'); lia|].
      split.
      { intros b Hb. apply elem_of_app in Hb as [Hb|Hb].
        - destruct (Hnew b Hb) as [Hb2 Hz]. split; [|done].
          rewrite <- Hother; [done|]. intros ->. congruence.
        - apply elem_of_cons in Hb as [->|Hb]; [|by apply elem_of_nil in Hb].
          split; [done|]. rewrite Hold by (by rewrite Ha2). by rewrite Ha2. }
      split.
      { intros b Hb. assert (Hba : b ≠ a) by (intros ->; rewrite Hfresh in Hb; by destruct Hb).
        rewrite Hold by (by rewrite Hother). by apply Hother. }
      rewrite Hq, Hq2. simpl. lia.
    + destruct (IH (Fault_pool (pool_heap st) (fault_info_cache st)
                      (Q_calloc :: pool_queries st)) pool Hpool)
        as (st' & added & Hrun & Hch & Hlen & Hall & Hnew & Hold & Hq).
      exists st', added. split; [exact Hrun|]. split; [exact Hch|].
      split; [lia|]. split.
      { intros Hok'. rewrite Hok' in Hok. done. }
      split; [exact Hnew|]. split; [exact Hold|]. rewrite Hq. simpl. lia.
Qed.

Lemma fault_cache_prealloc_pool_witness :
  ∃ st' added,
    fault_cache_prealloc sample_system 3 (Fault_pool tick_store None []) = Some st' ∧
    chain next (pool_heap st') (fault_info_cache st') added ∧
    length added = 3%nat.
Proof.
  destruct (fault_cache_prealloc_pool sample_system 3 (Fault_pool tick_store None []) [])
    as (st' & added & Hrun & Hch & _ & Hall & _).
  - constructor.
  - exists st', added. split; [exact Hrun|]. split; [by rewrite app_nil_r in Hch|].
    by apply Hall.
Defined.

(** X16: [fault_cache_cleanup] frees the records of the free list, each
    once, and no other record, and leaves the free list empty. *)
Theorem fault_cache_cleanup_frees (pool : list addr) :
  ∀ (fuel : nat) (st : fault_pool),
    chain next (pool_heap st) (fault_info_cache st) pool →
    (length pool ≤ fuel)%nat →
    ∃ st', fault_cache_cleanup fuel st = Some st' ∧
      fault_info_cache st' = None ∧
      pool_queries st' = pool_queries st ∧
      (∀ b, b ∈ pool → pool_heap st' !! b = None) ∧
      (∀ b, b ∉ pool → pool_heap st' !! b = pool_heap st !! b).
Proof.
  induction pool as [|a pool IH]; intros fuel st Hc Hfuel.
  - inversion Hc as [Hnone|]. exists st.
    split; [destruct fuel; simpl; by rewrite <- Hnone|].
    split; [done|]. split; [done|]. split; [by intros b ?%elem_of_nil|done].
  - pose proof (chain_NoDup _ _ _ _ Hc) as Hnd. apply NoDup_cons in Hnd as [Ha _].
    inversion Hc as [|a' f pool' Hf Htl Hhead]; subst.
    destruct fuel as [|fuel]; [simpl in Hfuel; lia|].
    destruct (IH fuel (Fault_pool (delete a (pool_heap st)) (next f) (pool_queries st)))
      as (st' & Hrun & Hnone & Hq & Hin & Hout).
    + simpl. eapply chain_ext; [exact Htl|]. intros b Hb.
      rewrite lookup_delete_ne; [done|]. by intros ->.
    + simpl in Hfuel. lia.
    + exists st'. split.
      { simpl. rewrite <- Hhead, Hf. simpl. exact Hrun. }
      split; [done|]. split; [done|]. split.
      * intros b Hb. destruct (decide (b ∈ pool)) as [Hbp|Hbp]; [by apply Hin|].
        apply elem_of_cons in Hb as [->|Hb]; [|done].
        rewrite Hout by done. simpl. by rewrite lookup_delete_eq.
      * intros b Hb. apply not_elem_of_cons in Hb as [Hba Hbp].
        rewrite Hout by done. simpl. by rewrite lookup_delete_ne.
Qed.

Lemma fault_cache_cleanup_frees_witness :
  ∃ st',
    fault_cache_cleanup 2 (Fault_pool tick_store (Some 2%positive) []) = Some st' ∧
    fault_info_cache st' = None ∧
    pool_heap st' !! 3%positive = None ∧
    pool_heap st' !! 1%positive = Some (sample 10 20 5 None).
Proof.
  destruct (fault_cache_cleanup_frees [2%positive; 3%positive] 2
              (Fault_pool tick_store (Some 2%positive) []))
    as (st' & Hrun & Hnone & _ & Hin & Hout).
  - econstructor; [reflexivity|]. econstructor; [reflexivity|]. constructor.
  - simpl. lia.
  - exists st'. split; [exact Hrun|]. split; [exact Hnone|]. split.
    + apply Hin. apply elem_of_cons. right. apply elem_of_cons. by left.
    + rewrite Hout; [reflexivity|].
      intros Hb. apply elem_of_cons in Hb as [Hb|Hb]; [done|].
      apply elem_of_cons in Hb as [Hb|Hb]; [done|by apply elem_of_nil in Hb].
Defined.

(** ** A lookup that misses *)

Lemma uname_bucket_find_miss fuel hp uid cur l :
  chain u_next hp cur l →
  (∀ a r, a ∈ l → hp !! a = Some r → u_uid r ≠ uid) →
  (length l ≤ fuel)%nat →
  uname_bucket_find fuel hp uid cur = Some Not_found.
Proof.
  intros Hc. revert fuel. induction Hc as [|a r l Ha Hc IH]; intros fuel Hno Hf.
  - by destruct fuel.
  - destruct fuel as [|fuel]; [simpl in Hf; lia|]. simpl. rewrite Ha. simpl.
    rewrite bool_decide_eq_false_2.
    + apply IH; [|simpl in Hf; lia].
      intros b rb Hb. apply Hno. apply elem_of_cons. by right.
    + eapply Hno; [|exact Ha]. apply elem_of_cons. by left.
Qed.


(** X17: the first lookup of a uid.  When no record of its bucket has the
    uid, [uname_cache_find] asks for memory, asks [getpwuid] once and copies
    the name; the new record holds the user name, or the uid in decimal, as
    an [int], when the user database has no entry; it is put in front of
    the bucket and the other buckets and the process cache are left alone.
    When memory runs out the result is [NULL] and no record is added. *)
Theorem uname_cache_find_miss (fuel : nat) (sys : system) (uid : Z)
    (st : cache_state) (l : list addr) :
  chain u_next (uname_heap st) (uname_cache st !! hash_uid uid) l →
  (∀ a r, a ∈ l → uname_heap st !! a = Some r → u_uid r ≠ uid) →
  (length l ≤ fuel)%nat →
  ∃ res st', uname_cache_find fuel sys uid st = Some (res, st') ∧
    proc_cache_hash st' = proc_cache_hash st ∧ proc_heap st' = proc_heap st ∧
    match res with
    | Some a =>
        uname_heap st !! a = None ∧
        uname_heap st' !! a =
          Some (Uname_cache (uname_cache st !! hash_uid uid)
                  (default (pretty (int32_wrap uid))
                     (getpwuid sys (Q_calloc :: queries st) uid)) uid) ∧
        chain u_next (uname_heap st') (uname_cache st' !! hash_uid uid) (a :: l) ∧
        (∀ b, b ≠ hash_uid uid → uname_cache st' !! b = uname_cache st !! b) ∧
        queries st' = [Q_strdup; Q_getpwuid uid; Q_calloc] ++ queries st
    | None => uname_cache st' = uname_cache st ∧ uname_heap st' = uname_heap st
    end.
Proof.
  intros Hc Hno Hfuel. unfold uname_cache_find.
  rewrite (uname_bucket_find_miss fuel _ uid _ l Hc Hno Hfuel). cbn [mbind option_bind].
  destruct (calloc_ok sys (queries st)); simpl.
  2:{ eexists None, _. split; [reflexivity|]. by simpl. }
  destruct (strdup_ok sys _); simpl.
  2:{ eexists None, _. split; [reflexivity|]. by simpl. }
  eexists (Some _), _. split; [reflexivity|]. simpl.
  split; [done|]. split; [done|].
  assert (Hfresh : uname_heap st !! fresh (dom (uname_heap st)) = None).
  { apply not_elem_of_dom. apply is_fresh. }
  split; [done|]. split.
  { by rewrite lookup_insert_eq. }
  split.
  { rewrite lookup_insert_eq. econstructor; [by rewrite lookup_insert_eq|]. simpl.
    eapply chain_ext; [exact Hc|]. intros b Hb.
    rewrite lookup_insert_ne; [done|]. intros <-.
    destruct (chain_lookup _ _ _ _ _ Hc Hb) as [r Hr]. congruence. }
  split; [|done].
  intros b Hb. by rewrite lookup_insert_ne.
Qed.

Lemma uname_cache_find_miss_witness :
  ∃ a st', uname_cache_find 0 sample_system 1000 empty_caches = Some (Some a, st') ∧
    u_name <$> uname_heap st' !! a = Some "1000" ∧
    queries st' = [Q_strdup; Q_getpwuid 1000; Q_calloc].
Proof.
  destruct (uname_cache_find_miss 0 sample_system 1000 empty_caches [])
    as (res & st' & Hrun & _ & _ & Hres).
  - constructor.
  - intros a r Ha. by apply elem_of_nil in Ha.
  - simpl. lia.
  - destruct res as [a|].
    + destruct Hres as (_ & Hrec & _ & _ & Hq).
      exists a, st'. split; [exact Hrun|]. split; [|exact Hq].
      rewrite Hrec. reflexivity.
    + exfalso. vm_compute in Hrun. discriminate.
Defined.



(** ** The keys of the top mode *)

Lemma handle_key_sort (ch : ascii) (st : key_state) :
  0 <= k_sort_by st < SORT_END →
  k_sort_by (handle_key ch st)
    = (k_sort_by st + if bool_decide (ch = "s"%char) then 1 else 0) mod SORT_END.
Proof.
  intros Hsb. unfold handle_key, SORT_END, SORT_MAJOR_MINOR, int32_wrap in *.
  destruct (bool_decide (ch = "q"%char) || bool_decide (ch = "Q"%char)
            || bool_decide (ch = "027"%char)) eqn:Hq.
  { rewrite bool_decide_eq_false_2.
    - simpl. rewrite Z.add_0_r, Z.mod_small; lia.
    - intros ->. done. }
  destruct (bool_decide (ch = "a"%char)) eqn:Ha.
  { apply bool_decide_eq_true in Ha as ->. simpl. rewrite Z.add_0_r, Z.mod_small; lia. }
  destruct (bool_decide (ch = "t"%char)) eqn:Ht.
  { apply bool_decide_eq_true in Ht as ->. simpl. rewrite Z.add_0_r, Z.mod_small; lia. }
  destruct (bool_decide (ch = "s"%char)) eqn:Hs.
  - cbn [k_sort_by].
    replace ((k_sort_by st + 1 + 2 ^ 31) mod 2 ^ 32 - 2 ^ 31) with (k_sort_by st + 1)
      by (rewrite Z.mod_small; lia).
    destruct (Z.leb_spec 7 (k_sort_by st + 1)).
    + replace (k_sort_by st + 1) with 7 by lia. done.
    + rewrite Z.mod_small; lia.
  - rewrite Z.add_0_r, Z.mod_small; lia.
Qed.

Lemma handle_key_stop (ch : ascii) (st : key_state) :
  k_stop (handle_key ch st)
    = k_stop st || bool_decide (ch = "q"%char) || bool_decide (ch = "Q"%char)
      || bool_decide (ch = "027"%char).
Proof.
  unfold handle_key.
  destruct (bool_decide (ch = "q"%char)) eqn:H1; [simpl; by rewrite !orb_true_r|].
  destruct (bool_decide (ch = "Q"%char)) eqn:H2; [simpl; by rewrite !orb_true_r|].
  destruct (bool_decide (ch = "027"%char)) eqn:H3; [simpl; by rewrite !orb_true_r|].
  simpl. rewrite !orb_false_r.
  repeat (match goal with |- context [bool_decide ?P] => destruct (bool_decide P) end;
          [done|]).
  done.
Qed.

Lemma handle_key_flags (ch : ascii) (st : key_state) (i : Z) :
  i ≠ 5 → i ≠ 6 →
  Z.testbit (k_flags (handle_key ch st)) i = Z.testbit (k_flags st) i.
Proof.
  intros H5 H6. unfold handle_key, OPT_ARROW, OPT_TOP_TOTAL.
  destruct (bool_decide (ch = "q"%char) || bool_decide (ch = "Q"%char)
            || bool_decide (ch = "027"%char)); [done|].
  assert (H64 : Z.testbit 64 i = false).
  { destruct (Z.ltb_spec i 0); [by apply Z.testbit_neg_r|].
    change 64 with (2 ^ 6). apply Z.pow2_bits_false. lia. }
  assert (H32 : Z.testbit 32 i = false).
  { destruct (Z.ltb_spec i 0); [by apply Z.testbit_neg_r|].
    change 32 with (2 ^ 5). apply Z.pow2_bits_false. lia. }
  destruct (bool_decide (ch = "a"%char)).
  { cbn [k_flags]. by rewrite Z.lxor_spec, H64, xorb_false_r. }
  destruct (bool_decide (ch = "t"%char)).
  { cbn [k_flags]. by rewrite Z.lxor_spec, H32, xorb_false_r. }
  by destruct (bool_decide (ch = "s"%char)).
Qed.

(** X19: what the keys of the top mode can do.  Whatever keys are typed,
    [sort_by] stays one of the seven sort settings, and is the setting it
    was moved on by the number of [s] typed, round the seven; a stop, once
    asked for, is not taken back, and it comes from [q], [Q] or the escape
    key only; no bit of [opt_flags] but those of [-a] and [-T] changes;
    typing [a] twice, or [t] twice, leaves the flags as they were. *)
Theorem handle_keys_invariants (keys : list ascii) (st : key_state) :
  0 <= k_sort_by st < SORT_END →
  0 <= k_sort_by (fold_left (λ s ch, handle_key ch s) keys st) < SORT_END ∧
  k_sort_by (fold_left (λ s ch, handle_key ch s) keys st)
    = (k_sort_by st + Z.of_nat (length (filter (λ ch, ch = "s"%char) keys))) mod SORT_END ∧
  (k_stop (fold_left (λ s ch, handle_key ch s) keys st) = true ↔
     k_stop st = true ∨
     ∃ ch, ch ∈ keys ∧ (ch = "q"%char ∨ ch = "Q"%char ∨ ch = "027"%char)) ∧
  (∀ i, i ≠ 5 → i ≠ 6 →
     Z.testbit (k_flags (fold_left (λ s ch, handle_key ch s) keys st)) i
       = Z.testbit (k_flags st) i) ∧
  handle_key "a" (handle_key "a" st) = st ∧
  handle_key "t" (handle_key "t" st) = st.
Proof.
  intros Hsb.
  assert (Hseq : ∀ keys st, 0 <= k_sort_by st < SORT_END →
            k_sort_by (fold_left (λ s ch, handle_key ch s) keys st)
            = (k_sort_by st + Z.of_nat (length (filter (λ ch, ch = "s"%char) keys)))
                mod SORT_END).
  { clear. intros keys. induction keys as [|ch keys IH]; intros st Hsb.
    - simpl. rewrite Z.add_0_r, Z.mod_small; lia.
    - cbn [fold_left]. rewrite IH.
      + rewrite (handle_key_sort ch st Hsb). rewrite filter_cons.
        destruct (decide (ch = "s"%char)) as [->|Hne].
        * rewrite bool_decide_eq_true_2 by done. cbn [length].
          rewrite Zplus_mod_idemp_l. f_equal. lia.
        * rewrite bool_decide_eq_false_2 by done.
          rewrite Zplus_mod_idemp_l. f_equal. lia.
      + rewrite (handle_key_sort ch st Hsb). apply Z.mod_pos_bound. done. }
  split.
  { rewrite (Hseq keys st Hsb). apply Z.mod_pos_bound. done. }
  split; [by apply Hseq|]. split.
  { clear. revert st. induction keys as [|ch keys IH]; intros st.
    - simpl. split; [by left|]. intros [H|(ch & Hin & _)]; [done|].
      by apply elem_of_nil in Hin.
    - cbn [fold_left]. rewrite IH, handle_key_stop. split.
      + intros [H|(c & Hin & Hc)].
        * apply orb_true_iff in H as [H|H]; [|right; exists ch; split;
            [apply elem_of_cons; by left|apply bool_decide_eq_true in H; tauto]].
          apply orb_true_iff in H as [H|H]; [|right; exists ch; split;
            [apply elem_of_cons; by left|apply bool_decide_eq_true in H; tauto]].
          apply orb_true_iff in H as [H|H]; [by left|right; exists ch; split;
            [apply elem_of_cons; by left|apply bool_decide_eq_true in H; tauto]].
        * right. exists c. split; [apply elem_of_cons; by right|done].
      + intros [H|(c & Hin & Hc)].
        * left. by rewrite H.
        * apply elem_of_cons in Hin as [->|Hin]; [|right; by exists c].
          left. destruct Hc as [->|[->| ->]]; simpl; by rewrite ?orb_true_r. }
  split.
  { intros i H5 H6. clear Hsb Hseq. revert st.
    induction keys as [|ch keys IH]; intros st; [done|].
    cbn [fold_left]. rewrite IH. by apply handle_key_flags. }
  split.
  - destruct st as [stop flags sb]. unfold handle_key. simpl. f_equal.
    rewrite Z.lxor_assoc, Z.lxor_nilpotent. apply Z.lxor_0_r.
  - destruct st as [stop flags sb]. unfold handle_key. simpl. f_equal.
    rewrite Z.lxor_assoc, Z.lxor_nilpotent. apply Z.lxor_0_r.
Qed.

Lemma handle_keys_invariants_witness :
  k_sort_by (fold_left (λ s ch, handle_key ch s)
               (list_ascii_of_string "ssassssss") (Key_state false 0 SORT_SWAP))
  = SORT_MAJOR_MINOR.
Proof.
  destruct (handle_keys_invariants (list_ascii_of_string "ssassssss")
              (Key_state false 0 SORT_SWAP)) as (_ & Hs & _).
  - unfold SORT_SWAP, SORT_END. simpl. lia.
  - rewrite Hs. vm_compute. reflexivity.
Defined.

(** ** The options *)

Lemma flag_set_lor (f k b : Z) : flag_set (Z.lor f k) b = flag_set f b || flag_set k b.
Proof.
  unfold flag_set. rewrite Z.land_lor_distr_l.
  destruct (Z.eqb_spec (Z.land f b) 0) as [H1|H1],
           (Z.eqb_spec (Z.land k b) 0) as [H2|H2]; simpl.
  - rewrite H1, H2. done.
  - apply negb_true_iff, Z.eqb_neq. rewrite Z.lor_eq_0_iff. tauto.
  - apply negb_true_iff, Z.eqb_neq. rewrite Z.lor_eq_0_iff. tauto.
  - apply negb_true_iff, Z.eqb_neq. rewrite Z.lor_eq_0_iff. tauto.
Qed.

(** What holds of the options after each round of the loop. *)
Ltac eval_flags :=
  repeat match goal with
         | |- context [flag_set ?k ?b] =>
             let v := eval vm_compute in (flag_set k b) in
             match v with
             | true => change (flag_set k b) with true
             | false => change (flag_set k b) with false
             end
         end.

Ltac flags_case Hpos Htop Hjson Hwf :=
  intros [= <-]; unfold options_ok; cbn [o_flags o_pids];
  rewrite ?flag_set_lor, ?Z.lor_nonneg; eval_flags;
  rewrite ?orb_false_r, ?orb_true_r;
  repeat split; try done; try (by vm_compute).

Lemma apply_option_ok (c : ascii) (optarg : string) (o o' : options) :
  options_ok o → apply_option c optarg o = inl o' → options_ok o'.
Proof.
  intros (Hpos & Htop & Hjson & Hwf). unfold apply_option.
  destruct (bool_decide (c = "a"%char)); [flags_case Hpos Htop Hjson Hwf|].
  destruct (bool_decide (c = "c"%char)); [flags_case Hpos Htop Hjson Hwf|].
  destruct (bool_decide (c = "d"%char)); [flags_case Hpos Htop Hjson Hwf|].
  destruct (bool_decide (c = "h"%char)); [done|].
  destruct (bool_decide (c = "j"%char)); [flags_case Hpos Htop Hjson Hwf|].
  destruct (bool_decide (c = "l"%char)); [flags_case Hpos Htop Hjson Hwf|].
  destruct (bool_decide (c = "p"%char)).
  { destruct (parse_pid_list optarg (o_pids o)) as [pids|] eqn:Hp; [|done].
    intros [= <-]. unfold options_ok. cbn [o_flags o_pids].
    repeat split; try done. by eapply parse_pid_list_wf. }
  destruct (bool_decide (c = "s"%char)); [flags_case Hpos Htop Hjson Hwf|].
  destruct (bool_decide (c = "T"%char)); [flags_case Hpos Htop Hjson Hwf|].
  destruct (bool_decide (c = "t"%char)); [flags_case Hpos Htop Hjson Hwf|].
  done.
Qed.

Lemma apply_options_ok (opts : list (ascii * string)) :
  ∀ o o', options_ok o → apply_options opts o = inl o' → options_ok o'.
Proof.
  induction opts as [|[c optarg] rest IH]; intros o o' Hok; simpl.
  - by intros [= <-].
  - destruct (apply_option c optarg o) as [o1|status] eqn:H1; [|done].
    apply IH. by eapply apply_option_ok.
Qed.

Lemma apply_option_status (c : ascii) (optarg : string) (o : options) (status : Z) :
  apply_option c optarg o = inr status → status = 0 ∨ status = 1.
Proof.
  unfold apply_option.
  repeat match goal with
         | |- context [bool_decide ?P] => destruct (bool_decide P)
         end;
    try destruct (parse_pid_list optarg (o_pids o)); intros [= <-]; auto.
Qed.

Lemma apply_options_status (opts : list (ascii * string)) :
  ∀ o status, apply_options opts o = inr status → status = 0 ∨ status = 1.
Proof.
  induction opts as [|[c optarg] rest IH]; intros o status; simpl; [done|].
  destruct (apply_option c optarg o) as [o1|s1] eqn:H1.
  - apply IH.
  - intros [= <-]. by eapply apply_option_status.
Qed.

Lemma flag_set_cmd (flags bit : Z) :
  Z.land OPT_CMD_ALL bit = bit →
  flag_set flags bit = flag_set (Z.land flags OPT_CMD_ALL) bit.
Proof. intros Hb. unfold flag_set. by rewrite <- Z.land_assoc, Hb. Qed.

Lemma count_bits_cmd (fuel : nat) (flags : Z) :
  0 <= flags → (32 ≤ fuel)%nat →
  ∃ n, count_bits fuel (Z.land flags OPT_CMD_ALL) = Some n ∧
       (1 <? n) = two_cmd_flags flags.
Proof.
  intros Hpos Hfuel. unfold two_cmd_flags.
  rewrite (flag_set_cmd flags OPT_CMD_SHORT), (flag_set_cmd flags OPT_CMD_LONG),
    (flag_set_cmd flags OPT_CMD_COMM) by done.
  assert (Hx : 0 <= Z.land flags OPT_CMD_ALL < 8).
  { change OPT_CMD_ALL with (Z.ones 3). rewrite Z.land_ones by lia.
    apply Z.mod_pos_bound. lia. }
  generalize dependent (Z.land flags OPT_CMD_ALL). intros x Hx.
  exists (popcount x). split.
  - unfold count_bits.
    assert (Hp : 0 <= popcount x <= 3).
    { assert (x = 0 ∨ x = 1 ∨ x = 2 ∨ x = 3 ∨ x = 4 ∨ x = 5 ∨ x = 6 ∨ x = 7)
        as Hc by lia.
      destruct Hc as [->|[->|[->|[->|[->|[->|[->| ->]]]]]]]; simpl; lia. }
    rewrite count_bits_loop_spec; [done|lia|lia|lia|lia].
  - assert (x = 0 ∨ x = 1 ∨ x = 2 ∨ x = 3 ∨ x = 4 ∨ x = 5 ∨ x = 6 ∨ x = 7)
      as Hc by lia.
    by destruct Hc as [->|[->|[->|[->|[->|[->|[->| ->]]]]]]].
Qed.

Lemma default_options_ok : options_ok default_options.
Proof. repeat split; try done. apply Forall_nil_2. Qed.

(** X20: the loop of [main] over the options and the test after it always
    end: with the exit status of the first option that stops the program
    (0 for [-h], 1 otherwise), with status 1 when two of [-s], [-l] and
    [-c] were given, or with the options set.  The options set have the
    flag of [-t] whenever they have the one of [-T], have the flags JSON and
    ONCE together or not at all, and a list of processes in which every
    entry with a name has the process id 0. *)
Theorem main_options_checked (fuel : nat) (opts : list (ascii * string)) :
  (32 ≤ fuel)%nat →
  main_options fuel opts =
    Some (match apply_options opts default_options with
          | inl o => if two_cmd_flags (o_flags o) then inr 1 else inl o
          | inr status => inr status
          end) ∧
  match apply_options opts default_options with
  | inl o =>
      (flag_set (o_flags o) OPT_TOP_TOTAL = true → flag_set (o_flags o) OPT_TOP = true) ∧
      flag_set (o_flags o) OPT_JSON = flag_set (o_flags o) OPT_ONCE ∧
      wf_pid_list (o_pids o)
  | inr status => status = 0 ∨ status = 1
  end.
Proof.
  intros Hfuel. unfold main_options.
  destruct (apply_options opts default_options) as [o|status] eqn:Ha.
  - destruct (apply_options_ok opts _ _ default_options_ok Ha)
      as (Hpos & Htop & Hjson & Hwf).
    destruct (count_bits_cmd fuel (o_flags o) Hpos Hfuel) as (n & Hn & Hlt).
    rewrite Hn. cbn [mbind option_bind option_ret mret]. by rewrite Hlt.
  - split; [done|]. by eapply apply_options_status.
Qed.

Lemma main_options_checked_witness :
  main_options 32 [("T"%char, ""%string); ("s"%char, ""%string);
                   ("c"%char, ""%string)] = Some (inr 1) ∧
  main_options 32 [("j"%char, ""%string); ("l"%char, ""%string)] =
    Some (inl (Options (Z.lor (Z.lor OPT_JSON OPT_ONCE) OPT_CMD_LONG) 2
                 (double_of_Z 1) false [])).
Proof.
  split.
  - apply (main_options_checked 32
             [("T"%char, ""%string); ("s"%char, ""%string); ("c"%char, ""%string)]).
    lia.
  - apply (main_options_checked 32 [("j"%char, ""%string); ("l"%char, ""%string)]).
    lia.
Defined.

(** ** The allow-list of [-p] *)







(** ** The order of the caches *)

Section buckets.
Context {R : Type} (fld : R → ptr) (key : R → Z) (hash : Z → Z).

Lemma buckets_ok_insert (hp : gmap addr R) (table : gmap Z addr) (a : addr) (r : R) :
  buckets_ok fld key hash hp table →
  hp !! a = None →
  fld r = table !! hash (key r) →
  (∀ l c rc, chain fld hp (table !! hash (key r)) l → c ∈ l → hp !! c = Some rc →
     key rc ≠ key r) →
  buckets_ok fld key hash (<[a := r]> hp) (<[hash (key r) := a]> table).
Proof.
  intros Hok Ha Hfld Hnew b.
  destruct (Hok b) as (l & Hc & Hh & Hnd).
  assert (Hframe : ∀ c, c ∈ l → <[a := r]> hp !! c = hp !! c).
  { intros c Hcl. apply lookup_insert_ne. intros ->.
    destruct (chain_lookup _ _ _ _ _ Hc Hcl) as [? ?]. congruence. }
  assert (Hkeys : (λ c, key <$> <[a := r]> hp !! c) <$> l = (λ c, key <$> hp !! c) <$> l).
  { apply list_fmap_ext. intros i c Hi. rewrite Hframe; [done|].
    by eapply list_elem_of_lookup_2. }
  destruct (decide (b = hash (key r))) as [->|Hb].
  - exists (a :: l). rewrite lookup_insert_eq. split; [|split].
    + econstructor; [apply lookup_insert_eq|]. rewrite Hfld.
      by eapply chain_ext.
    + intros c rc [->|Hcl]%elem_of_cons.
      * rewrite lookup_insert_eq. by intros [= <-].
      * rewrite Hframe by done. by apply Hh.
    + rewrite fmap_cons, Hkeys, lookup_insert_eq. apply NoDup_cons. split; [|done].
      intros (c & Hkc & Hcl)%list_elem_of_fmap.
      destruct (hp !! c) as [rc|] eqn:Hrc; [|done]. injection Hkc as Hkc.
      by eapply (Hnew l c rc).
  - exists l. rewrite lookup_insert_ne by done. split; [|split].
    + by eapply chain_ext.
    + intros c rc Hcl. rewrite Hframe by done. by apply Hh.
    + by rewrite Hkeys.
Qed.

Lemma buckets_ok_unique (hp : gmap addr R) (table : gmap Z addr)
    (b1 b2 : Z) (a1 a2 : addr) (r1 r2 : R) :
  buckets_ok fld key hash hp table →
  in_bucket fld hp table b1 a1 → in_bucket fld hp table b2 a2 →
  hp !! a1 = Some r1 → hp !! a2 = Some r2 → key r1 = key r2 → a1 = a2.
Proof.
  intros Hok (l1 & Hc1 & Hin1) (l2 & Hc2 & Hin2) Hr1 Hr2 Hkey.
  destruct (Hok b1) as (l & Hc & Hh & Hnd).
  pose proof (chain_length_inv _ _ _ _ _ Hc1 Hc) as ->.
  assert (Hb : b2 = b1).
  { destruct (Hok b2) as (l' & Hc' & Hh' & _).
    pose proof (chain_length_inv _ _ _ _ _ Hc2 Hc') as ->.
    rewrite <- (Hh' a2 r2 Hin2 Hr2), <- (Hh a1 r1 Hin1 Hr1). by rewrite Hkey. }
  subst b2. pose proof (chain_length_inv _ _ _ _ _ Hc2 Hc) as ->.
  apply list_elem_of_lookup_1 in Hin1 as [i Hi].
  apply list_elem_of_lookup_1 in Hin2 as [j Hj].
  assert (i = j) as ->; [|congruence].
  eapply NoDup_lookup; [exact Hnd| |].
  - rewrite list_lookup_fmap, Hi. simpl. by rewrite Hr1.
  - rewrite list_lookup_fmap, Hj. simpl. by rewrite Hr2, Hkey.
Qed.

End buckets.

Lemma uname_bucket_find_Not_found fuel hp uid cur l :
  uname_bucket_find fuel hp uid cur = Some Not_found →
  chain u_next hp cur l →
  ∀ c rc, c ∈ l → hp !! c = Some rc → u_uid rc ≠ uid.
Proof.
  intros Hfind Hc. revert fuel Hfind.
  induction Hc as [|a r l Ha Hc IH]; intros fuel Hfind c rc Hcl Hrc.
  - by apply elem_of_nil in Hcl.
  - destruct fuel as [|fuel]; [done|]. simpl in Hfind. rewrite Ha in Hfind.
    simpl in Hfind. case_bool_decide as Hu; [done|].
    apply elem_of_cons in Hcl as [->|Hcl]; [congruence|].
    by eapply IH.
Qed.

Lemma proc_bucket_find_Not_found fuel hp pid cur l :
  proc_bucket_find fuel hp pid cur = Some Not_found →
  chain p_next hp cur l →
  ∀ c rc, c ∈ l → hp !! c = Some rc → p_pid rc ≠ pid.
Proof.
  intros Hfind Hc. revert fuel Hfind.
  induction Hc as [|a r l Ha Hc IH]; intros fuel Hfind c rc Hcl Hrc.
  - by apply elem_of_nil in Hcl.
  - destruct fuel as [|fuel]; [done|]. simpl in Hfind. rewrite Ha in Hfind.
    simpl in Hfind. case_bool_decide as Hu; [done|].
    apply elem_of_cons in Hcl as [->|Hcl]; [congruence|].
    by eapply IH.
Qed.

Lemma uname_cache_find_ok fuel sys uid st res st1 :
  caches_ok st → uname_cache_find fuel sys uid st = Some (res, st1) → caches_ok st1.
Proof.
  intros [Hu Hp]. unfold uname_cache_find.
  destruct (uname_bucket_find fuel (uname_heap st) uid
              (uname_cache st !! hash_uid uid)) as [[a|]|] eqn:Hb; [| |done]; simpl.
  - by intros [= <- <-].
  - destruct (calloc_ok sys (queries st)); simpl; [|by intros [= <- <-]].
    destruct (strdup_ok sys _); simpl; [|by intros [= <- <-]].
    intros [= <- <-]. split; [|exact Hp]. simpl.
    set (r := Uname_cache _ _ uid).
    apply (buckets_ok_insert u_next u_uid hash_uid _ _ _ r); [done| |done|].
    + apply not_elem_of_dom. apply is_fresh.
    + intros l c rc Hc. by eapply uname_bucket_find_Not_found.
Qed.

Lemma proc_cache_find_ok fuel sys flags pid st res st1 :
  caches_ok st → proc_cache_find_by_pid fuel sys flags pid st = Some (res, st1) →
  caches_ok st1.
Proof.
  intros [Hu Hp]. unfold proc_cache_find_by_pid.
  destruct (proc_bucket_find fuel (proc_heap st) pid
              (proc_cache_hash st !! proc_cache_hash_pid pid)) as [[a|]|] eqn:Hb;
    [| |done]; simpl.
  - by intros [= <- <-].
  - destruct (pid_exists sys (queries st) pid); simpl; [|by intros [= <- <-]].
    unfold proc_cache_add_at_hash_index. simpl.
    destruct (calloc_ok sys _); simpl; [|by intros [= <- <-]].
    destruct (bool_decide (get_pid_cmdline sys _ pid = None) || _);
      intros [= <- <-]; (split; [exact Hu|]); simpl.
    + set (r := Proc_info _ _ pid _).
      apply (buckets_ok_insert p_next p_pid proc_cache_hash_pid _ _ _ r); [done| |done|].
      * apply not_elem_of_dom. apply is_fresh.
      * intros l c rc Hc. by eapply proc_bucket_find_Not_found.
    + set (r := Proc_info _ _ pid _).
      apply (buckets_ok_insert p_next p_pid proc_cache_hash_pid _ _ _ r); [done| |done|].
      * apply not_elem_of_dom. apply is_fresh.
      * intros l c rc Hc. by eapply proc_bucket_find_Not_found.
Qed.

(** X22: the two caches stay in good order.  When every bucket of the user
    name cache and of the process cache is a list that ends, holds only
    records whose uid, or pid, hashes to that bucket, and holds no uid, or
    pid, twice, the same is true after a lookup of either cache, whatever
    the system answers; and in caches in good order a uid has at most one
    record in the whole user name cache and a pid at most one in the whole
    process cache. *)
Theorem caches_stay_ok (fuel : nat) (sys : system) (flags : Z) (st : cache_state) :
  caches_ok st →
  (∀ uid res st1, uname_cache_find fuel sys uid st = Some (res, st1) → caches_ok st1) ∧
  (∀ pid res st1,
     proc_cache_find_by_pid fuel sys flags pid st = Some (res, st1) → caches_ok st1) ∧
  (∀ b1 b2 a1 a2 r1 r2,
     in_bucket u_next (uname_heap st) (uname_cache st) b1 a1 →
     in_bucket u_next (uname_heap st) (uname_cache st) b2 a2 →
     uname_heap st !! a1 = Some r1 → uname_heap st !! a2 = Some r2 →
     u_uid r1 = u_uid r2 → a1 = a2) ∧
  (∀ b1 b2 a1 a2 r1 r2,
     in_bucket p_next (proc_heap st) (proc_cache_hash st) b1 a1 →
     in_bucket p_next (proc_heap st) (proc_cache_hash st) b2 a2 →
     proc_heap st !! a1 = Some r1 → proc_heap st !! a2 = Some r2 →
     p_pid r1 = p_pid r2 → a1 = a2).
Proof.
  intros Hok. split; [|split; [|split]].
  - intros uid res st1. by apply uname_cache_find_ok.
  - intros pid res st1. by apply proc_cache_find_ok.
  - intros b1 b2 a1 a2 r1 r2. by apply (buckets_ok_unique u_next u_uid hash_uid), Hok.
  - intros b1 b2 a1 a2 r1 r2.
    by apply (buckets_ok_unique p_next p_pid proc_cache_hash_pid), Hok.
Qed.

Lemma caches_ok_empty : caches_ok empty_caches.
Proof.
  split; intros b; exists []; simpl; rewrite lookup_empty;
    (split; [constructor|split; [intros a r Ha; by apply elem_of_nil in Ha|constructor]]).
Qed.

Lemma caches_stay_ok_witness :
  caches_ok empty_caches ∧
  ∃ a st1, proc_cache_find_by_pid 1 sample_system 0 4242 empty_caches = Some (Some a, st1) ∧
           caches_ok st1.
Proof.
  split; [exact caches_ok_empty|].
  eexists _, _. split; [vm_compute; reflexivity|].
  eapply (proj1 (proj2 (caches_stay_ok 1 sample_system 0 empty_caches caches_ok_empty))
            4242 (Some _)).
  vm_compute. reflexivity.
Defined.

(** ** The question for the number of samples *)

Lemma strtol_range (buf : string) (val : Z) (moved : bool) :
  strtol buf = (val, moved, false) → LONG_MIN <= val <= LONG_MAX.
Proof.
  unfold strtol.
  destruct (skip_space buf) as [|c r]; [intros [= <- <-]; by vm_compute|].
  set (sg := if bool_decide (c = "-"%char) then (true, r)
             else if bool_decide (c = "+"%char) then (false, r)
             else (false, String c r)).
  destruct sg as [neg [|d s]]; [intros [= <- <-]; by vm_compute|].
  destruct (is_digit d); [|intros [= <- <-]; by vm_compute].
  set (v := if neg then _ else _).
  destruct (Z.ltb_spec LONG_MAX v); [done|].
  destruct (Z.ltb_spec v LONG_MIN); [done|].
  intros [= <- <-]. lia.
Qed.

Lemma scan_digits_value (f rest : string) :
  Forall (λ c, is_digit c = true) (list_ascii_of_string f) →
  match rest with String c _ => is_digit c = false | EmptyString => True end →
  ∀ acc, (scan_digits acc (f +:+ rest)).1 = strtol_digits acc f.
Proof.
  intros Hf Hrest. induction f as [|c f IH]; intros acc.
  - destruct rest as [|d r]; [done|]. simpl. by rewrite Hrest.
  - simpl in Hf. apply Forall_cons in Hf as [Hc Hf].
    change (String c f +:+ rest) with (String c (f +:+ rest)).
    cbn [scan_digits strtol_digits]. rewrite Hc. by apply IH.
Qed.

Lemma strtol_digits_value (f rest : string) :
  digits f →
  match rest with String c _ => is_digit c = false | EmptyString => True end →
  strtol_digits 0 f <= LONG_MAX →
  strtol (f +:+ rest) = (strtol_digits 0 f, true, false) ∧ 0 <= strtol_digits 0 f.
Proof.
  intros [Hne Hf] Hrest Hmax.
  assert (Hpos : ∀ g acc, 0 <= acc → 0 <= strtol_digits acc g).
  { induction g as [|d g IHg]; intros acc Hacc; simpl; [done|].
    destruct (is_digit d) eqn:Hd; [|done]. apply IHg.
    unfold is_digit in Hd. apply andb_true_iff in Hd as [H1 H2].
    apply Z.leb_le in H1, H2. lia. }
  split; [|by apply Hpos].
  unfold strtol. destruct f as [|c f]; [done|].
  pose proof Hf as Hf'. simpl in Hf'. apply Forall_cons in Hf' as [Hc _].
  destruct (is_digit_plain c Hc) as (Hsp & Hm & Hp & _).
  change (String c f +:+ rest) with (String c (f +:+ rest)).
  cbn [skip_space]. rewrite Hsp.
  rewrite (bool_decide_eq_false_2 (c = "-"%char)) by done.
  rewrite (bool_decide_eq_false_2 (c = "+"%char)) by done.
  rewrite Hc.
  change (String c (f +:+ rest)) with (String c f +:+ rest).
  rewrite (scan_digits_value (String c f) rest Hf Hrest).
  pose proof (Hpos (String c f) 0 ltac:(lia)) as H0.
  destruct (Z.ltb_spec LONG_MAX (strtol_digits 0 (String c f))); [lia|].
  destruct (Z.ltb_spec (strtol_digits 0 (String c f)) LONG_MIN); [|done].
  unfold LONG_MIN in *. lia.
Qed.

(** X23: what [prompt_for_count] can leave behind.  When it returns false,
    the count and the flag for sampling without end are what they were;
    when it returns true, either the flag is set and the count is -1 (the
    answer was 0), or the flag is cleared and the count is a number from 1
    to the largest [long]: the count is never 0 after an answer was taken.
    It refuses at most as many lines as it reads.  A first line that starts
    with decimal digits is taken as the answer whatever follows the digits
    on the line, when their value is from 1 to the largest [long]. *)
Theorem prompt_for_count_result (lines : list string) (count : Z) (forever : bool) :
  (let '(r, count', forever', refused) := prompt_for_count lines count forever in
   (refused ≤ length lines)%nat ∧
   if r then
     (count' = -1 ∧ forever' = true) ∨ (1 <= count' <= LONG_MAX ∧ forever' = false)
   else count' = count ∧ forever' = forever) ∧
  (∀ f rest,
     digits f →
     match rest with String c _ => is_digit c = false | EmptyString => True end →
     1 <= strtol_digits 0 f <= LONG_MAX →
     prompt_for_count ((f +:+ rest) :: lines) count forever
       = (true, strtol_digits 0 f, false, O)).
Proof.
  split.
  - induction lines as [|buf rest IH]; simpl; [split; [lia|done]|].
    destruct buf as [|c s]; [split; [lia|done]|].
    destruct (bool_decide (c = "010"%char) || bool_decide (c = zero)); [split; [lia|done]|].
    destruct (strtol (String c s)) as [[val moved] errno] eqn:Hs.
    destruct (negb errno && moved && (0 <=? val)) eqn:Hok.
    + apply andb_true_iff in Hok as [[Herr Hm]%andb_true_iff Hpos].
      destruct errno; [done|]. apply strtol_range in Hs.
      destruct (Z.eqb_spec val 0); [split; [lia|by left]|].
      split; [lia|]. right. split; [lia|done].
    + destruct (prompt_for_count rest count forever) as [[[r count'] forever'] refused].
      destruct IH as [Hle IH]. split; [lia|exact IH].
  - intros f rest Hf Hrest Hv.
    destruct (strtol_digits_value f rest Hf Hrest ltac:(lia)) as [Hs _].
    destruct Hf as [Hne Hf]. destruct f as [|c f]; [done|].
    pose proof Hf as Hf'. simpl in Hf'. apply Forall_cons in Hf' as [Hc _].
    assert (Hnl : c ≠ "010"%char) by (intros ->; by vm_compute in Hc).
    assert (Hz : c ≠ zero) by (intros ->; by vm_compute in Hc).
    change (String c f +:+ rest) with (String c (f +:+ rest)) in *.
    cbn [prompt_for_count].
    rewrite (bool_decide_eq_false_2 (c = "010"%char)) by done.
    rewrite (bool_decide_eq_false_2 (c = zero)) by done.
    cbn [orb]. rewrite Hs. cbn [negb andb].
    destruct (Z.leb_spec 0 (strtol_digits 0 (String c f))); [|lia].
    destruct (Z.eqb_spec (strtol_digits 0 (String c f)) 0); [lia|done].
Qed.

Lemma prompt_for_count_result_witness :
  prompt_for_count ["12 samples"; "7"]%string 0 true = (true, 12, false, O).
Proof.
  apply (proj2 (prompt_for_count_result ["7"%string] 0 true) "12"%string " samples"%string).
  - split; [done|]. repeat constructor.
  - reflexivity.
  - vm_compute. split; discriminate.
Defined.
